(** * env: binding environment variables to struct fields

    A shallow embedding of package [env] (functions [Parse], [doParse],
    [get], [parseKeyForOption], [getRequired], [getOr], [set],
    [handleSlice], [parseInts], ...) together with the parts of the Go
    runtime library the package calls ([strings], [strconv], [time], [os],
    [reflect]), followed by the properties of the binder. *)

From Stdlib Require Import String Ascii List ZArith Bool Lia.
Import ListNotations.
Open Scope string_scope.
Open Scope Z_scope.
Set Warnings "-register-all".

(** ** Go strings and the [strings] package *)

Module strings.

(** [strings.Split(s, sep)] for a non-empty separator: cut at every
    non-overlapping occurrence of [sep], scanning from the left.  [skip]
    counts the bytes of a matched separator still to be dropped and [cur]
    is the piece being collected. *)
Fixpoint genSplit (sep : string) (skip : nat) (cur s : string) : list string :=
  match s with
  | EmptyString => [cur]
  | String c s' =>
      match skip with
      | S k => genSplit sep k cur s'
      | O => if String.prefix sep s
             then cur :: genSplit sep (Nat.pred (String.length sep)) "" s'
             else genSplit sep 0 (cur ++ String c "") s'
      end
  end.

(** With an empty separator Go explodes the string into its UTF-8
    sequences; the package never passes an empty separator (see
    [handleSlice] and [parseKeyForOption]), the model explodes bytes. *)
Definition Split (s sep : string) : list string :=
  match sep with
  | EmptyString => map (fun c => String c "") (list_ascii_of_string s)
  | _ => genSplit sep 0 "" s
  end.

Fixpoint Join (elems : list string) (sep : string) : string :=
  match elems with
  | [] => ""
  | [x] => x
  | x :: rest => x ++ sep ++ Join rest sep
  end.

End strings.

(** ** Errors *)

(** Go [error] values the package can produce: its four sentinels, values
    made by [errors.New], and the NumError of strconv. *)
Inductive error : Type :=
| ErrNotAStructPtr
| ErrUnsupportedType
| ErrMismatchType
| ErrUnsupportedSliceType
| errors_New (text : string)
| NumError (Func Num : string) (Err : error).

(** ** The host library

    Pieces of the Go library that work on floating point numbers or on
    Unicode tables are kept abstract.  A [float64] is represented by its
    IEEE-754 bit pattern; the package never computes with it. *)
Definition float64 := Z.

Record Host : Type := {
  (** [strconv.ParseFloat(s, bitSize)] *)
  ParseFloat : string -> Z -> float64 + error;
  (** [strconv.Quote], used by the Error method of NumError *)
  Quote : string -> string;
  (** the quoting of package [time] in its error messages *)
  time_quote : string -> string;
  (** [uint64(float64(f) * (float64(unit) / scale))] of [time.ParseDuration] *)
  time_fraction : Z -> Z -> Z -> Z
}.

(** [err.Error()] *)
Fixpoint Error (h : Host) (err : error) : string :=
  match err with
  | ErrNotAStructPtr => "Expected a pointer to a Struct"
  | ErrUnsupportedType => "Type is not supported"
  | ErrMismatchType => "Data Type mismatch. Mismatching left and right hand types"
  | ErrUnsupportedSliceType => "Unsupported slice type"
  | errors_New text => text
  | NumError fn num e =>
      "strconv." ++ fn ++ ": parsing " ++ Quote h num ++ ": " ++ Error h e
  end.

(** ** The process environment, package [os] *)

Module os.

(** The environment block: [(key, value)] entries, the first entry of a
    key wins. *)
Definition Environ := list (string * string).

Fixpoint lookup (e : Environ) (key : string) : option string :=
  match e with
  | [] => None
  | (k, v) :: rest => if String.eqb k key then Some v else lookup rest key
  end.

(** [os.LookupEnv]: the empty key is never found. *)
Definition LookupEnv (e : Environ) (key : string) : option string :=
  if String.eqb key "" then None else lookup e key.

End os.

(** ** Package [strconv] *)

Module strconv.

Definition ErrSyntax : error := errors_New "invalid syntax".
Definition ErrRange : error := errors_New "value out of range".

Definition syntaxError (fn str : string) : error := NumError fn str ErrSyntax.
Definition rangeError (fn str : string) : error := NumError fn str ErrRange.

Definition ParseBool (str : string) : bool + error :=
  if existsb (String.eqb str) ["1"; "t"; "T"; "true"; "TRUE"; "True"] then inl true
  else if existsb (String.eqb str) ["0"; "f"; "F"; "false"; "FALSE"; "False"] then inl false
  else inr (syntaxError "ParseBool" str).

Definition maxUint64 : Z := 2 ^ 64 - 1.

(** The digit value of a byte, as the loop of [ParseUint] computes it. *)
Definition digit (c : ascii) : option Z :=
  let n := Z.of_nat (nat_of_ascii c) in
  if (48 <=? n) && (n <=? 57) then Some (n - 48)
  else if (97 <=? n) && (n <=? 122) then Some (n - 97 + 10)
  else if (65 <=? n) && (n <=? 90) then Some (n - 65 + 10)
  else None.

(** The digit loop of [ParseUint]: [inl n] on success, [inr true] for a
    range error, [inr false] for a syntax error. *)
Fixpoint uintLoop (base cutoff maxVal : Z) (s : string) (n : Z) : Z + bool :=
  match s with
  | EmptyString => inl n
  | String c s' =>
      match digit c with
      | None => inr false
      | Some d =>
          if base <=? d then inr false
          else if cutoff <=? n then inr true
          else
            let n := n * base in
            let n1 := (n + d) mod 2 ^ 64 in
            if (n1 <? n) || (maxVal <? n1) then inr true
            else uintLoop base cutoff maxVal s' n1
      end
  end.

(** [strconv.ParseUint(s, base, bitSize)] for an explicit base in
    [2..36] and a bit size in [1..64] (the package uses base 10 and sizes
    32 and 64).  On a range error Go also returns the largest value. *)
Definition ParseUint (s : string) (base bitSize : Z) : Z * option error :=
  match s with
  | EmptyString => (0, Some (syntaxError "ParseUint" s))
  | _ =>
      let cutoff := maxUint64 / base + 1 in
      let maxVal := 2 ^ bitSize - 1 in
      match uintLoop base cutoff maxVal s 0 with
      | inl n => (n, None)
      | inr true => (maxVal, Some (rangeError "ParseUint" s))
      | inr false => (0, Some (syntaxError "ParseUint" s))
      end
  end.

(** [strconv.ParseInt(s, base, bitSize)], same restrictions. *)
Definition ParseInt (s : string) (base bitSize : Z) : Z * option error :=
  match s with
  | EmptyString => (0, Some (syntaxError "ParseInt" s))
  | String c rest =>
      let s0 := s in
      let '(neg, s) :=
        if Ascii.eqb c "+" then (false, rest)
        else if Ascii.eqb c "-" then (true, rest)
        else (false, s) in
      let '(un, err) := ParseUint s base bitSize in
      match err with
      | Some (NumError _ _ (errors_New "invalid syntax")) =>
          (0, Some (syntaxError "ParseInt" s0))
      | _ =>
          let cutoff := 2 ^ (bitSize - 1) in
          if negb neg && (cutoff <=? un) then (cutoff - 1, Some (rangeError "ParseInt" s0))
          else if neg && (cutoff <? un) then (- cutoff, Some (rangeError "ParseInt" s0))
          else (if neg then - un else un, None)
      end
  end.

End strconv.

(** ** Package [time] *)

Module time.

Definition Nanosecond : Z := 1.
Definition Microsecond : Z := 1000 * Nanosecond.
Definition Millisecond : Z := 1000 * Microsecond.
Definition Second : Z := 1000 * Millisecond.
Definition Minute : Z := 60 * Second.
Definition Hour : Z := 60 * Minute.

(** The two spellings of the micro sign, as UTF-8 bytes. *)
Definition micro_B5 : string :=
  String (ascii_of_nat 194) (String (ascii_of_nat 181) "s").
Definition micro_3BC : string :=
  String (ascii_of_nat 206) (String (ascii_of_nat 188) "s").

Definition unitMap (u : string) : option Z :=
  if String.eqb u "ns" then Some Nanosecond
  else if String.eqb u "us" then Some Microsecond
  else if String.eqb u micro_B5 then Some Microsecond
  else if String.eqb u micro_3BC then Some Microsecond
  else if String.eqb u "ms" then Some Millisecond
  else if String.eqb u "s" then Some Second
  else if String.eqb u "m" then Some Minute
  else if String.eqb u "h" then Some Hour
  else None.

Definition code (c : ascii) : Z := Z.of_nat (nat_of_ascii c).
Definition isDigit (c : ascii) : bool := (48 <=? code c) && (code c <=? 57).
Definition isDot (c : ascii) : bool := code c =? 46.

(** [leadingInt]: the leading [[0-9]*] of [s]; [None] on overflow. *)
Fixpoint leadingInt (s : string) (x : Z) : option (Z * string) :=
  match s with
  | EmptyString => Some (x, s)
  | String c s' =>
      if isDigit c then
        if 2 ^ 63 / 10 <? x then None
        else
          let x := x * 10 + code c - 48 in
          if 2 ^ 63 <? x then None else leadingInt s' x
      else Some (x, s)
  end.

(** [leadingFraction]: the leading [[0-9]*] of [s] read as a fraction
    [x / scale]; digits past the overflow point are dropped. *)
Fixpoint leadingFraction (s : string) (x scale : Z) (overflow : bool)
  : Z * Z * string :=
  match s with
  | EmptyString => (x, scale, s)
  | String c s' =>
      if isDigit c then
        if overflow then leadingFraction s' x scale true
        else if (2 ^ 63 - 1) / 10 <? x then leadingFraction s' x scale true
        else
          let y := x * 10 + code c - 48 in
          if 2 ^ 63 <? y then leadingFraction s' x scale true
          else leadingFraction s' y (scale * 10) false
      else (x, scale, s)
  end.

(** The unit: the bytes up to the next ['.'] or digit. *)
Fixpoint unitSpan (s : string) : string * string :=
  match s with
  | EmptyString => ("", s)
  | String c s' =>
      if isDot c || isDigit c then ("", s)
      else let '(u, r) := unitSpan s' in (String c u, r)
  end.

Section WithHost.
Variable h : Host.

Definition invalid (orig : string) : error :=
  errors_New ("time: invalid duration " ++ time_quote h orig).

(** The loop [for s != ""] of [ParseDuration]; every turn consumes at
    least one byte, [fuel] bounds the number of turns. *)
Fixpoint segments (fuel : nat) (orig s : string) (d : Z) : option (Z + error) :=
  match s with
  | EmptyString => Some (inl d)
  | String c _ =>
      match fuel with
      | O => None
      | S fuel =>
          if negb (isDot c || isDigit c) then Some (inr (invalid orig))
          else
            match leadingInt s 0 with
            | None => Some (inr (invalid orig))
            | Some (v, s1) =>
                let pre := negb (String.length s =? String.length s1)%nat in
                let '(f, scale, s2, post) :=
                  match s1 with
                  | String c1 s1' =>
                      if isDot c1 then
                        let '(f, scale, s2) := leadingFraction s1' 0 1 false in
                        (f, scale, s2,
                         negb (String.length s1' =? String.length s2)%nat)
                      else (0, 1, s1, false)
                  | EmptyString => (0, 1, s1, false)
                  end in
                if negb pre && negb post then Some (inr (invalid orig))
                else
                  let '(u, s3) := unitSpan s2 in
                  if String.eqb u "" then
                    Some (inr (errors_New ("time: missing unit in duration "
                                           ++ time_quote h orig)))
                  else
                    match unitMap u with
                    | None =>
                        Some (inr (errors_New ("time: unknown unit " ++ time_quote h u
                                               ++ " in duration " ++ time_quote h orig)))
                    | Some unit =>
                        if 2 ^ 63 / unit <? v then Some (inr (invalid orig))
                        else
                          let v := v * unit in
                          let v := if 0 <? f
                                   then (v + time_fraction h f unit scale) mod 2 ^ 64
                                   else v in
                          if (0 <? f) && (2 ^ 63 <? v) then Some (inr (invalid orig))
                          else
                            let d := (d + v) mod 2 ^ 64 in
                            if 2 ^ 63 <? d then Some (inr (invalid orig))
                            else segments fuel orig s3 d
                    end
            end
      end
  end.

(** [time.ParseDuration], as in the current library: a duration is its
    number of nanoseconds.  The loop is given one turn per byte of the
    string, which is enough ([ParseDuration_total]). *)
Definition ParseDuration (orig : string) : Z + error :=
  let '(neg, s) :=
    match orig with
    | String c rest =>
        if Ascii.eqb c "-" then (true, rest)
        else if Ascii.eqb c "+" then (false, rest)
        else (false, orig)
    | EmptyString => (false, orig)
    end in
  if String.eqb s "0" then inl 0
  else if String.eqb s "" then inr (invalid orig)
  else
    match segments (String.length s) orig s 0 with
    | None => inr (invalid orig)
    | Some (inr e) => inr e
    | Some (inl d) =>
        if neg then inl (- d)
        else if 2 ^ 63 - 1 <? d then inr (invalid orig)
        else inl d
    end.

End WithHost.

End time.

(** ** Package [reflect] *)

Module reflect.

(** The kinds the package never names are grouped under [Other]. *)
Inductive OtherKind : Type :=
| Int8 | Int16 | Int32 | Uint8 | Uint16 | Uint32 | Uint64 | Uintptr
| Complex64 | Complex128 | Array | Chan | Func | Interface | Map
| UnsafePointer.

Inductive Kind : Type :=
| Invalid | Bool | Int | Int64 | Uint | Float32 | Float64
| Ptr | Slice | String | Struct
| Other (k : OtherKind).

Definition Kind_eq_dec (a b : Kind) : {a = b} + {a <> b}.
Proof. repeat decide equality. Defined.

Definition Kind_eqb (a b : Kind) : bool :=
  if Kind_eq_dec a b then true else false.

(** A type as far as the package looks at it: what [Type.String()] and
    [Type.Kind()] return, and the element type of an unnamed slice type.
    Two types are identical when they are equal here (distinct types
    print differently). *)
Inductive rtype : Type :=
| T (str : string) (k : Kind)
| SliceOf (elem : rtype).

Fixpoint rtype_eqb (a b : rtype) : bool :=
  match a, b with
  | T s k, T s' k' => String.eqb s s' && Kind_eqb k k'
  | SliceOf x, SliceOf y => rtype_eqb x y
  | _, _ => false
  end.

Fixpoint Type_String (t : rtype) : string :=
  match t with
  | T str _ => str
  | SliceOf elem => "[]" ++ Type_String elem
  end.

(** A struct tag, as the conventional list of [key:"value"] pairs. *)
Definition StructTag := list (string * string).

Fixpoint Tag_Get (tag : StructTag) (key : string) : string :=
  match tag with
  | [] => ""
  | (k, v) :: rest => if String.eqb k key then v else Tag_Get rest key
  end.

(** [reflect.StructField]; a field is exported when [PkgPath] is empty. *)
Record StructField : Type := {
  Name : string;
  PkgPath : string;
  Typ : rtype;
  Tag : StructTag;
  Anonymous : bool
}.

(** The elements of a slice. *)
Inductive SliceData : Type :=
| Strings (l : list string)
| Ints (l : list Z)
| Int64s (l : list Z)
| Float32s (l : list float64)
| Float64s (l : list float64)
| Bools (l : list bool)
| Elems.

(** Go values, by kind.  A pointer owns its pointee: the record is a
    finite tree, as the data model of the specification has it (exclusive
    ownership), without sharing or cycles.  A slice carries its type, the
    one [field.Type()] returns.  A [float32] is held as the [float64] that
    [ParseFloat] returns for the bit size 32, which converts without
    change.  The value of a field of kind [Float64] says nothing of the
    type of the field: that is the [Typ] of its descriptor.  A field whose
    type prints as [time.Duration] has that type. *)
Inductive Value : Type :=
| VString (s : string)
| VBool (b : bool)
| VInt (i : Z)
| VUint (u : Z)
| VFloat32 (x : float64)
| VFloat64 (x : float64)
| VInt64 (i : Z)
| VSlice (t : rtype) (d : SliceData)
| VStruct (fields : list (StructField * Value))
| VPtr (pointee : option Value)
| VOther (k : OtherKind).

(** A [reflect.Value] is a Go value or the zero Value; an [interface{}]
    is a Go value or nil. *)
Definition Kind_of (v : option Value) : Kind :=
  match v with
  | None => Invalid
  | Some (VString _) => String
  | Some (VBool _) => Bool
  | Some (VInt _) => Int
  | Some (VUint _) => Uint
  | Some (VFloat32 _) => Float32
  | Some (VFloat64 _) => Float64
  | Some (VInt64 _) => Int64
  | Some (VSlice _ _) => Slice
  | Some (VStruct _) => Struct
  | Some (VPtr _) => Ptr
  | Some (VOther k) => Other k
  end.

(** [v.IsNil()] and [v.Elem()], for a value of kind [Ptr]. *)
Definition IsNil (v : Value) : bool :=
  match v with
  | VPtr (Some _) => false
  | _ => true
  end.

Definition Elem (v : Value) : option Value :=
  match v with
  | VPtr p => p
  | _ => None
  end.

(** The access flags of a field reached from a struct whose own fields
    were reached through [sticky] read-only access ([flagStickyRO] is
    inherited, [flagEmbedRO] is not). *)
Definition exported (f : StructField) : bool := String.eqb (PkgPath f) "".

Definition CanSet (sticky : bool) (f : StructField) : bool :=
  negb sticky && exported f.

Definition stickyRO (sticky : bool) (f : StructField) : bool :=
  sticky || (negb (exported f) && negb (Anonymous f)).

End reflect.

Import reflect(StructField, Value, VString, VBool, VInt, VUint, VFloat32,
  VFloat64, VInt64, VSlice, VStruct, VPtr, VOther, rtype, SliceOf, T,
  Strings, Ints, Int64s, Float32s, Float64s, Bools, Elems).

Definition interface := option Value.

(** ** Package [env] *)

(** The friendly names for reflect types. *)
Definition sliceOfInts : rtype := SliceOf (T "int" reflect.Int).
Definition sliceOfInt64s : rtype := SliceOf (T "int64" reflect.Int64).
Definition sliceOfStrings : rtype := SliceOf (T "string" reflect.String).
Definition sliceOfBools : rtype := SliceOf (T "bool" reflect.Bool).
Definition sliceOfFloat32s : rtype := SliceOf (T "float32" reflect.Float32).
Definition sliceOfFloat64s : rtype := SliceOf (T "float64" reflect.Float64).

(** A write is recorded by the position of the written field: the field
    indices leading from the record being bound to the field. *)
Definition path := list nat.

(** What one turn of the loop of [doParse] does with field [i]: go on to
    the next field (perhaps after appending a message to [errorList]), or
    return from [doParse].  Both carry the field's value after the turn and
    the writes made during it. *)
Inductive step : Type :=
| Continue (v' : Value) (w : list path) (msg : option string)
| Return (v' : Value) (w : list path) (err : error).

(** How the loop ends: it runs past the last field, or it is left by the
    [return err] of a pointer field; [errorList] is the list at that
    moment. *)
Inductive ending : Type :=
| Finished (errorList : list string)
| Returned (errorList : list string) (err : error).

Definition fieldList := list (StructField * Value).

Section Loop.
Variable body : StructField -> Value -> step.

(** [for i := 0; i < refType.NumField(); i++ { ... }] *)
Fixpoint fieldLoop (i : nat) (fs : fieldList) (errorList : list string)
  : fieldList * list path * ending :=
  match fs with
  | [] => ([], [], Finished errorList)
  | (f, v) :: rest =>
      match body f v with
      | Return v' w err => ((f, v') :: rest, map (cons i) w, Returned errorList err)
      | Continue v' w msg =>
          let errorList := match msg with
                           | Some m => (errorList ++ [m])%list
                           | None => errorList
                           end in
          let '(rest', w', fin) := fieldLoop (S i) rest errorList in
          ((f, v') :: rest', (map (cons i) w ++ w')%list, fin)
      end
  end.
End Loop.

(** The lines after the loop, and the [return err] inside it. *)
Definition result (fin : ending) : option error :=
  match fin with
  | Returned _ err => Some err
  | Finished [] => None
  | Finished errorList => Some (errors_New (strings.Join errorList ". "))
  end.

Section Env.
Variable h : Host.
Variable e : os.Environ.

(** split the env tag's key into the expected key and desired option, if any. *)
Definition parseKeyForOption (key : string) : string * list string :=
  match strings.Split key "," with
  | k :: opts => (k, opts)
  | [] => ("", [])
  end.

Definition getRequired (key : string) : string * option error :=
  match os.LookupEnv e key with
  | Some value => (value, None)
  | None => ("", Some (errors_New ("Required environment variable " ++ key ++ " is not set")))
  end.

Definition getOr (key defaultValue : string) : string :=
  match os.LookupEnv e key with
  | Some value => value
  | None => defaultValue
  end.

(** One turn of [for _, opt := range opts] in [get]. *)
Definition getOpt (key : string) (st : string * option error) (opt : string)
  : string * option error :=
  let '(val, err) := st in
  if String.eqb opt "" then (val, err)
  else if String.eqb opt "required" then getRequired key
  else (val, Some (errors_New ("Env tag option " ++ opt ++ " not supported."))).

Definition get (field : StructField) : string * option error :=
  let '(key, opts) := parseKeyForOption (reflect.Tag_Get (reflect.Tag field) "env") in
  let defaultValue := reflect.Tag_Get (reflect.Tag field) "envDefault" in
  let val := getOr key defaultValue in
  fold_left (getOpt key) opts (val, None).

(** The five element loops: [for _, v := range data], appending each
    parsed element and returning at the first error. *)
Fixpoint parseEach {A : Type} (parse : string -> A + error) (data : list string)
  (acc : list A) : list A + error :=
  match data with
  | [] => inl acc
  | v :: rest =>
      match parse v with
      | inr err => inr err
      | inl x => parseEach parse rest (acc ++ [x])%list
      end
  end.

Definition checked {A : Type} (r : A * option error) : A + error :=
  match r with
  | (_, Some err) => inr err
  | (x, None) => inl x
  end.

Definition parseInts (data : list string) : list Z + error :=
  parseEach (fun v => checked (strconv.ParseInt v 10 32)) data [].

Definition parseInt64s (data : list string) : list Z + error :=
  parseEach (fun v => checked (strconv.ParseInt v 10 64)) data [].

Definition parseFloat32s (data : list string) : list float64 + error :=
  parseEach (fun v => ParseFloat h v 32) data [].

Definition parseFloat64s (data : list string) : list float64 + error :=
  parseEach (fun v => ParseFloat h v 64) data [].

Definition parseBools (data : list string) : list bool + error :=
  parseEach strconv.ParseBool data [].

(** [handleSlice]: [inl v'] is the field after [field.Set], [inr err] the
    returned error (the field is then not written). *)
Definition handleSlice (field : Value) (value separator : string) : Value + error :=
  let separator := if String.eqb separator "" then "," else separator in
  let splitData := strings.Split value separator in
  match field with
  | VSlice t _ =>
      let store {A} (r : list A + error) (mk : list A -> reflect.SliceData) :=
        match r with
        | inr err => inr err
        | inl data => inl (VSlice t (mk data))
        end in
      if reflect.rtype_eqb t sliceOfStrings then inl (VSlice t (Strings splitData))
      else if reflect.rtype_eqb t sliceOfInts then store (parseInts splitData) Ints
      else if reflect.rtype_eqb t sliceOfInt64s then store (parseInt64s splitData) Int64s
      else if reflect.rtype_eqb t sliceOfFloat32s then store (parseFloat32s splitData) Float32s
      else if reflect.rtype_eqb t sliceOfFloat64s then store (parseFloat64s splitData) Float64s
      else if reflect.rtype_eqb t sliceOfBools then store (parseBools splitData) Bools
      else inr ErrUnsupportedSliceType
  | _ => inr ErrUnsupportedSliceType
  end.

(** [set]: [inl v'] is the field after the one [Set...] call of the
    taken branch, [inr err] the returned error.  The [Float64] branch
    stores through [field.Set(reflect.ValueOf(v))], which reflect accepts
    for a field of type [float64] only: for a field of a defined type of
    kind [Float64] the call panics, and [inl] then stands for a write the
    program does not make.  [wellTypedFields] (in the further
    vocabulary) names the records without such a field; the statement on
    the one write of a field takes it as a hypothesis. *)
Definition set (field : Value) (refType : StructField) (value : string) : Value + error :=
  match field with
  | VSlice _ _ =>
      let separator := reflect.Tag_Get (reflect.Tag refType) "envSeparator" in
      handleSlice field value separator
  | VString _ => inl (VString value)
  | VBool _ =>
      match strconv.ParseBool value with
      | inr err => inr err
      | inl bvalue => inl (VBool bvalue)
      end
  | VInt _ =>
      match strconv.ParseInt value 10 32 with
      | (_, Some err) => inr err
      | (intValue, None) => inl (VInt intValue)
      end
  | VUint _ =>
      match strconv.ParseUint value 10 32 with
      | (_, Some err) => inr err
      | (uintValue, None) => inl (VUint uintValue)
      end
  | VFloat32 _ =>
      match ParseFloat h value 32 with
      | inr err => inr err
      | inl v => inl (VFloat32 v)
      end
  | VFloat64 _ =>
      match ParseFloat h value 64 with
      | inr err => inr err
      | inl v => inl (VFloat64 v)
      end
  | VInt64 _ =>
      if String.eqb (reflect.Type_String (reflect.Typ refType)) "time.Duration" then
        match time.ParseDuration h value with
        | inr err => inr err
        | inl dValue => inl (VInt64 dValue)
        end
      else
        match strconv.ParseInt value 10 64 with
        | (_, Some err) => inr err
        | (intValue, None) => inl (VInt64 intValue)
        end
  | VStruct _ => inr ErrMismatchType
  | VPtr _ | VOther _ => inr ErrUnsupportedType
  end.

(** The body of the loop of [doParse] for one field, with the calls of
    [Parse] and [doParse] it makes on the values below the field.
    [sticky] tells whether the struct being walked was reached through
    an unexported, not embedded field. *)
Fixpoint fieldStep (sticky : bool) (f : StructField) (v : Value) {struct v} : step :=
  let canSet := reflect.CanSet sticky f in
  let kind := reflect.Kind_of (Some v) in
  if reflect.Kind_eqb reflect.Ptr kind && negb (reflect.IsNil v) && canSet then
    (* err := Parse(ref.Field(i).Interface()) *)
    match v with
    | VPtr (Some (VStruct fs)) =>
        let '(fs', w, fin) := fieldLoop (fieldStep false) 0 fs [] in
        match result fin with
        | Some err => Return (VPtr (Some (VStruct fs'))) w err
        | None => Continue (VPtr (Some (VStruct fs'))) w None
        end
    | _ => Return v [] ErrNotAStructPtr
    end
  else if negb canSet && negb (reflect.Kind_eqb kind reflect.Struct) then
    (* skip unexported fields *)
    Continue v [] None
  else
    let '(value, err) := get f in
    if reflect.Kind_eqb kind reflect.Struct && String.eqb value "" then
      (* doParse(ref.Field(i)), its result dropped *)
      match v with
      | VStruct fs =>
          let '(fs', w, _) := fieldLoop (fieldStep (reflect.stickyRO sticky f)) 0 fs [] in
          Continue (VStruct fs') w None
      | _ => Continue v [] None
      end
    else if reflect.Kind_eqb kind reflect.Ptr
            && reflect.Kind_eqb (reflect.Kind_of (reflect.Elem v)) reflect.Struct
            && String.eqb value "" then
      (* doParse(ref.Field(i).Elem()), its result dropped *)
      match v with
      | VPtr (Some (VStruct fs)) =>
          let '(fs', w, _) := fieldLoop (fieldStep (reflect.stickyRO sticky f)) 0 fs [] in
          Continue (VPtr (Some (VStruct fs'))) w None
      | _ => Continue v [] None
      end
    else
      match err with
      | Some err => Continue v [] (Some (Error h err))
      | None =>
          if String.eqb value "" then Continue v [] None
          else
            match set v f value with
            | inr err => Continue v [] (Some (Error h err))
            | inl v' => Continue v' [[]] None
            end
      end.

(** [doParse(ref)] on the fields of [ref]: the fields after the call,
    the writes, and the returned error ([None] is [nil]). *)
Definition doParse (sticky : bool) (fs : fieldList) : fieldList * list path * option error :=
  let '(fs', w, fin) := fieldLoop (fieldStep sticky) 0 fs [] in
  (fs', w, result fin).

(** [Parse(v)]: the argument after the call (with what it points to),
    the writes, and the returned error. *)
Definition Parse (v : interface) : interface * list path * option error :=
  let ptrRef := v in
  if negb (reflect.Kind_eqb (reflect.Kind_of ptrRef) reflect.Ptr) then
    (v, [], Some ErrNotAStructPtr)
  else
    let ref := match ptrRef with Some p => reflect.Elem p | None => None end in
    if negb (reflect.Kind_eqb (reflect.Kind_of ref) reflect.Struct) then
      (v, [], Some ErrNotAStructPtr)
    else
      match ref with
      | Some (VStruct fs) =>
          let '(fs', w, err) := doParse false fs in
          (Some (VPtr (Some (VStruct fs'))), w, err)
      | _ => (v, [], Some ErrNotAStructPtr)
      end.

End Env.

(** ** Vocabulary of the statements *)

(** [sub] occurs in [s]. *)
Definition contains (sub s : string) : Prop :=
  exists a b, s = a ++ sub ++ b.

(** The parts of a [step]. *)
Definition stepValue (s : step) : Value :=
  match s with
  | Continue v' _ _ | Return v' _ _ => v'
  end.

Definition stepWrites (s : step) : list path :=
  match s with
  | Continue _ w _ | Return _ w _ => w
  end.

Definition stepMessages (s : step) : list string :=
  match s with
  | Continue _ _ (Some m) => [m]
  | _ => []
  end.

Definition continues (s : step) : Prop :=
  match s with
  | Continue _ _ _ => True
  | Return _ _ _ => False
  end.

Definition errorListOf (fin : ending) : list string :=
  match fin with
  | Finished errorList | Returned errorList _ => errorList
  end.

(** The loop, field by field, when every turn goes on to the next field. *)
Section LoopSpec.
Variable body : StructField -> Value -> step.

Definition stepped (fv : StructField * Value) : StructField * Value :=
  (fst fv, stepValue (body (fst fv) (snd fv))).

Definition messages (fs : fieldList) : list string :=
  flat_map (fun fv => stepMessages (body (fst fv) (snd fv))) fs.

Fixpoint writesFrom (i : nat) (fs : fieldList) : list path :=
  match fs with
  | [] => []
  | fv :: rest =>
      (map (cons i) (stepWrites (body (fst fv) (snd fv))) ++ writesFrom (S i) rest)%list
  end.

Definition allContinue (fs : fieldList) : Prop :=
  Forall (fun fv => continues (body (fst fv) (snd fv))) fs.

(** The number of fields the loop treats before it ends: all of them,
    or those up to and including the first whose turn returns. *)
Fixpoint processed (fs : fieldList) : nat :=
  match fs with
  | [] => 0
  | fv :: rest =>
      match body (fst fv) (snd fv) with
      | Return _ _ _ => 1
      | Continue _ _ _ => S (processed rest)
      end
  end.
End LoopSpec.

(** The writes at or below field [i] of the record being bound. *)
Definition under (i : nat) (p : path) : bool :=
  match p with
  | j :: _ => Nat.eqb j i
  | [] => false
  end.

Definition writesAt (i : nat) (w : list path) : list path := filter (under i) w.

(** The pieces of the result of [doParse] and [Parse]. *)
Definition fieldsAfter {A B C : Type} (r : A * B * C) : A := fst (fst r).
Definition writesOf {A B C : Type} (r : A * B * C) : B := snd (fst r).
Definition errorOf {A B C : Type} (r : A * B * C) : C := snd r.

(** The loop of [doParse] on its own: where it stops, and with which list. *)
Definition loopEnding (h : Host) (e : os.Environ) (sticky : bool) (fs : fieldList) : ending :=
  errorOf (fieldLoop (fieldStep h e sticky) 0 fs []).

(** The key and the options of a field's [env] tag. *)
Definition keyOf (f : StructField) : string :=
  fst (parseKeyForOption (reflect.Tag_Get (reflect.Tag f) "env")).

Definition optionsOf (f : StructField) : list string :=
  snd (parseKeyForOption (reflect.Tag_Get (reflect.Tag f) "env")).

Definition missingRequired (key : string) : string :=
  "Required environment variable " ++ key ++ " is not set".

Definition unsupportedOption (opt : string) : error :=
  errors_New ("Env tag option " ++ opt ++ " not supported.").

(** *** Sequence fields: the element rule of a slice type

    The scalar field whose rule converts the elements of a slice of type
    [t], for the six slice types [handleSlice] knows. *)
Definition elementField (t : rtype) : option Value :=
  if reflect.rtype_eqb t sliceOfStrings then Some (VString "")
  else if reflect.rtype_eqb t sliceOfInts then Some (VInt 0)
  else if reflect.rtype_eqb t sliceOfInt64s then Some (VInt64 0)
  else if reflect.rtype_eqb t sliceOfFloat32s then Some (VFloat32 0)
  else if reflect.rtype_eqb t sliceOfFloat64s then Some (VFloat64 0)
  else if reflect.rtype_eqb t sliceOfBools then Some (VBool false)
  else None.

(** The descriptor of a scalar field of the element type of [t]. *)
Definition elementDescriptor (t : rtype) : StructField :=
  {| reflect.Name := "";
     reflect.PkgPath := "";
     reflect.Typ := match t with SliceOf elem => elem | _ => t end;
     reflect.Tag := [];
     reflect.Anonymous := false |}.

(** The elements of a slice, as scalar values. *)
Definition elements (d : reflect.SliceData) : list Value :=
  match d with
  | Strings l => map VString l
  | Ints l => map VInt l
  | Int64s l => map VInt64 l
  | Float32s l => map VFloat32 l
  | Float64s l => map VFloat64 l
  | Bools l => map VBool l
  | Elems => []
  end.

(** The separator [handleSlice] splits with. *)
Definition separatorOf (f : StructField) : string :=
  let separator := reflect.Tag_Get (reflect.Tag f) "envSeparator" in
  if String.eqb separator "" then "," else separator.


(** The turn of a pointer field that calls [Parse] on itself:
    [err := Parse(...); if nil != err { return err }; continue]. *)
Definition afterParse (v : Value) (r : interface * list path * option error) : step :=
  match r with
  | (after, w, Some err) => Return (match after with Some v' => v' | None => v end) w err
  | (after, w, None) => Continue (match after with Some v' => v' | None => v end) w None
  end.

(** Every other field that reaches the call of [get]: the resolution error, the
    empty value, or the conversion. *)
Definition scalarTurn (h : Host) (e : os.Environ) (f : StructField) (v : Value) : step :=
  match get e f with
  | (_, Some err) => Continue v [] (Some (Error h err))
  | (value, None) =>
      if String.eqb value "" then Continue v [] None
      else match set h v f value with
           | inr err => Continue v [] (Some (Error h err))
           | inl v' => Continue v' [[]] None
           end
  end.

(** The option tokens that are not empty. *)
Definition effective (opts : list string) : list string :=
  filter (fun opt => negb (String.eqb opt "")) opts.

(** The declared default of a field. *)
Definition defaultOf (f : StructField) : string :=
  reflect.Tag_Get (reflect.Tag f) "envDefault".

(** [s] without its first [k] bytes, [s[k:]] (all of it gone when [s] is
    shorter). *)
Fixpoint dropBytes (k : nat) (s : string) : string :=
  match k, s with
  | O, _ => s
  | S k, String _ s' => dropBytes k s'
  | S _, EmptyString => EmptyString
  end.
(** ** Sample inputs *)

(** A host whose quoting functions add nothing and whose [ParseFloat]
    rejects everything. *)
Definition plainHost : Host :=
  {| ParseFloat := fun s _ => inr (strconv.syntaxError "ParseFloat" s);
     Quote := fun s => s;
     time_quote := fun s => s;
     time_fraction := fun _ _ _ => 0 |}.

Definition field (name : string) (isExported : bool) (t : rtype)
  (tag : reflect.StructTag) : StructField :=
  {| reflect.Name := name;
     reflect.PkgPath := if isExported then "" else "main";
     reflect.Typ := t;
     reflect.Tag := tag;
     reflect.Anonymous := false |}.

Definition tString : rtype := T "string" reflect.String.
Definition tBool : rtype := T "bool" reflect.Bool.
Definition tInt : rtype := T "int" reflect.Int.
Definition tUint : rtype := T "uint" reflect.Uint.
Definition tDuration : rtype := T "time.Duration" reflect.Int64.
Definition tIntPtr : rtype := T "*int" reflect.Ptr.
Definition tFoo : rtype := T "main.Foo" reflect.Struct.
Definition tFooPtr : rtype := T "*main.Foo" reflect.Ptr.


(** Two fields that differ only in the options before the last one. *)
Definition requiredThenBogus : StructField :=
  field "A" true tString [("env", "X,required,bogus"); ("envDefault", "d")].

Definition bogusOnly : StructField :=
  field "A" true tString [("env", "X,bogus"); ("envDefault", "d")].

Definition intPointer : StructField * Value :=
  (field "P" true tIntPtr [], VPtr (Some (VInt 0))).

Definition badBool : StructField * Value :=
  (field "B" true tBool [("env", "B")], VBool false).

Definition requiredString : StructField * Value :=
  (field "A" true tString [("env", "A,required")], VString "old").

(** [B] holds no boolean literal, [A] is not set. *)
Definition badEnviron : os.Environ := [("B", "maybe")].

(** [required] on a field the binder does not resolve, or resolves and
    then ignores. *)
Definition requiredUnexported : StructField * Value :=
  (field "a" false tString [("env", "A,required"); ("envDefault", "d")], VString "old").

Definition requiredStruct : StructField * Value :=
  (field "Nested" true tFoo [("env", "A,required")],
   VStruct [(field "Name" true tString [("env", "NAME")], VString "old")]).

Definition requiredPointer : StructField * Value :=
  (field "Ptr" true tFooPtr [("env", "A,required")],
   VPtr (Some (VStruct [(field "Name" true tString [("env", "NAME")], VString "old")]))).

Definition requiredThenBogusString : StructField * Value :=
  (field "A" true tString [("env", "A,required,bogus")], VString "old").

Definition requiredWithDefault : StructField * Value :=
  (field "A" true tString [("env", "A,required"); ("envDefault", "d")], VString "old").

Definition nestedFoo : StructField * Value :=
  (field "Foo" true tFoo [],
   VStruct [(field "Name" true tString [("env", "NAME")], VString "old")]).

Definition nameEnviron : os.Environ := [("NAME", "new")].

Definition home : StructField * Value :=
  (field "Home" true tString [("env", "HOME")], VString "old").

Definition homeEnviron : os.Environ := [("HOME", "/root"); ("B", "maybe")].

(** A pointer to a record whose only field fails to convert, and a record
    held by value with the same field. *)
Definition badBoolPointer : StructField * Value :=
  (field "Ptr" true tFooPtr [("env", "ANY,required")], VPtr (Some (VStruct [badBool]))).

Definition badBoolNested : StructField * Value :=
  (field "Nested" true tFoo [], VStruct [badBool]).

Definition nilPointerTagged : StructField * Value :=
  (field "N" true tIntPtr [("env", "HOME")], VPtr None).

Definition nilPointerPlain : StructField * Value :=
  (field "N" true tIntPtr [], VPtr None).

Definition hosts : StructField :=
  field "Hosts" true sliceOfStrings [("env", "HOSTS"); ("envSeparator", ":")].

Definition ports : StructField :=
  field "Ports" true sliceOfInts [("env", "PORTS")].

Definition sliceOfUints : rtype := SliceOf tUint.

(** ** Further vocabulary *)

(** The string holds the byte [c]. *)
Fixpoint hasByte (c : ascii) (s : string) : bool :=
  match s with
  | EmptyString => false
  | String x s' => Ascii.eqb x c || hasByte c s'
  end.

Definition comma : ascii := ascii_of_nat 44.

(** The values that hold no fields below them: everything but a struct and
    a pointer to a struct. *)
Definition isLeaf (v : Value) : bool :=
  match v with
  | VStruct _ => false
  | VPtr (Some (VStruct _)) => false
  | _ => true
  end.

(** Induction on values, through the fields of a struct and of the struct
    a pointer points to. *)
Section ValueInduction.
Variable P : Value -> Prop.
Hypothesis leaf_case : forall v, isLeaf v = true -> P v.
Hypothesis struct_case : forall fs, Forall (fun fv => P (snd fv)) fs -> P (VStruct fs).
Hypothesis pointer_case :
  forall fs, Forall (fun fv => P (snd fv)) fs -> P (VPtr (Some (VStruct fs))).

Fixpoint Value_nested_ind (v : Value) : P v :=
  let all :=
    fix all (l : list (StructField * Value)) : Forall (fun fv => P (snd fv)) l :=
      match l with
      | [] => Forall_nil _
      | (f, x) :: rest => Forall_cons (f, x) (Value_nested_ind x) (all rest)
      end in
  match v with
  | VStruct fs => struct_case fs (all fs)
  | VPtr (Some (VStruct fs)) => pointer_case fs (all fs)
  | VPtr (Some p) => leaf_case (VPtr (Some p)) eq_refl
  | v' => leaf_case v' eq_refl
  end.
End ValueInduction.

(** The schema of a value: the value with the data of its scalars and
    slices erased.  It keeps the descriptors of the fields and their order,
    the kinds, the types of the slices and which pointers are nil. *)
Fixpoint skeleton (v : Value) : Value :=
  match v with
  | VString _ => VString ""
  | VBool _ => VBool false
  | VInt _ => VInt 0
  | VUint _ => VUint 0
  | VFloat32 _ => VFloat32 0
  | VFloat64 _ => VFloat64 0
  | VInt64 _ => VInt64 0
  | VSlice t _ => VSlice t Elems
  | VStruct fs => VStruct (map (fun fv => let '(f, x) := fv in (f, skeleton x)) fs)
  | VPtr None => VPtr None
  | VPtr (Some p) => VPtr (Some (skeleton p))
  | VOther k => VOther k
  end.

Definition skeletons (fs : fieldList) : fieldList :=
  map (fun fv => let '(f, x) := fv in (f, skeleton x)) fs.

(** A field without [env] and [envDefault] tags. *)
Definition bare (f : StructField) : bool :=
  String.eqb (reflect.Tag_Get (reflect.Tag f) "env") ""
  && String.eqb (reflect.Tag_Get (reflect.Tag f) "envDefault") "".

(** A value below which every field is bare and no pointer points to
    something that is not a struct. *)
Fixpoint inert (v : Value) : bool :=
  match v with
  | VStruct fs => forallb (fun fv => let '(f, x) := fv in bare f && inert x) fs
  | VPtr (Some (VStruct fs)) =>
      forallb (fun fv => let '(f, x) := fv in bare f && inert x) fs
  | VPtr (Some _) => false
  | _ => true
  end.

Definition inertFields (fs : fieldList) : bool :=
  forallb (fun fv => let '(f, x) := fv in bare f && inert x) fs.

(** The errors [Parse] hands to its caller: [ErrNotAStructPtr] itself, or
    a value made by [errors.New]. *)
Definition plainError (err : error) : Prop :=
  err = ErrNotAStructPtr \/ exists text, err = errors_New text.

(** The ranges of the sized integers. *)
Definition inInt (bits : Z) (n : Z) : Prop := - 2 ^ (bits - 1) <= n < 2 ^ (bits - 1).
Definition inUint (bits : Z) (n : Z) : Prop := 0 <= n < 2 ^ bits.

(** The struct [foo] of the example program, embedded without export as
    the program has it, and held by an unexported field with a name. *)
Definition fooFields : fieldList :=
  [(field "Name1" true tString [("env", "EXAMPLE_FOO1")], VString "");
   (field "Name2" true tString [("env", "EXAMPLE_FOO2")], VString "")].

Definition embeddedFoo : StructField :=
  {| reflect.Name := "foo";
     reflect.PkgPath := "main";
     reflect.Typ := T "main.foo" reflect.Struct;
     reflect.Tag := [];
     reflect.Anonymous := true |}.

Definition hiddenFoo : StructField :=
  {| reflect.Name := "foo";
     reflect.PkgPath := "main";
     reflect.Typ := T "main.foo" reflect.Struct;
     reflect.Tag := [];
     reflect.Anonymous := false |}.

Definition fooEnviron : os.Environ := [("EXAMPLE_FOO1", "one"); ("EXAMPLE_FOO2", "two")].

(** What a turn does apart from the value it leaves: its writes, and the
    message it adds or the error it returns. *)
Definition outcome (s : step) : list path * (option string + error) :=
  match s with
  | Continue _ w msg => (w, inl msg)
  | Return _ w err => (w, inr err)
  end.

(** The call [field.Set(reflect.ValueOf(v))] of the [Float64] branch of
    [set] stores a [float64]; reflect panics unless the type of the field
    is [float64] itself (a defined type of kind [Float64] is not assignable
    from [float64]).  [set] describes the call for the fields of type
    [float64]; [wellTyped] says that a field is such a field, or holds
    only such fields at every depth. *)
Definition float64Type : rtype := T "float64" reflect.Float64.

Fixpoint wellTyped (f : StructField) (v : Value) {struct v} : bool :=
  match v with
  | VFloat64 _ => reflect.rtype_eqb (reflect.Typ f) float64Type
  | VStruct fs => forallb (fun fv => let '(g, x) := fv in wellTyped g x) fs
  | VPtr (Some (VStruct fs)) => forallb (fun fv => let '(g, x) := fv in wellTyped g x) fs
  | _ => true
  end.

Definition wellTypedFields (fs : fieldList) : bool :=
  forallb (fun fv => let '(g, x) := fv in wellTyped g x) fs.

(** Decimal numerals.  [digitsValue s acc] is the number the digits of [s]
    denote when read after [acc]; it is [None] when a byte of [s] is no
    decimal digit. *)
Definition isDecimalDigit (c : ascii) : bool :=
  (48 <=? Z.of_nat (nat_of_ascii c)) && (Z.of_nat (nat_of_ascii c) <=? 57).

Fixpoint digitsValue (s : string) (acc : Z) : option Z :=
  match s with
  | EmptyString => Some acc
  | String c s' =>
      if isDecimalDigit c
      then digitsValue s' (acc * 10 + (Z.of_nat (nat_of_ascii c) - 48))
      else None
  end.

(** The number an unsigned numeral (one digit at least) denotes. *)
Definition unsignedDecimal (s : string) : option Z :=
  match s with
  | EmptyString => None
  | String _ _ => digitsValue s 0
  end.

(** The number a numeral with an optional sign denotes. *)
Definition signedDecimal (s : string) : option Z :=
  match s with
  | EmptyString => None
  | String c rest =>
      if Ascii.eqb c "+" then unsignedDecimal rest
      else if Ascii.eqb c "-" then option_map Z.opp (unsignedDecimal rest)
      else unsignedDecimal s
  end.
(** * Properties *)

Open Scope list_scope.

(** ** The loop over the fields *)

Section LoopFacts.
Variable body : StructField -> Value -> step.

Lemma fieldLoop_all_continue : forall fs i errorList,
  allContinue body fs ->
  fieldLoop body i fs errorList
  = (map (stepped body) fs, writesFrom body i fs,
     Finished (errorList ++ messages body fs)).
Proof.
  induction fs as [|[f v] rest IH]; intros i errorList Hall; simpl.
  - now rewrite app_nil_r.
  - inversion Hall as [|? ? Hc Hrest]; subst. simpl in Hc.
    unfold stepped at 1, messages. simpl.
    destruct (body f v) as [v' w msg|]; [|contradiction].
    rewrite (IH (S i) _ Hrest). unfold messages.
    destruct msg; simpl; [rewrite <- app_assoc|]; reflexivity.
Qed.

Lemma fieldLoop_finished : forall fs i errorList fs' w l,
  fieldLoop body i fs errorList = (fs', w, Finished l) ->
  allContinue body fs.
Proof.
  induction fs as [|[f v] rest IH]; intros i errorList fs' w l H.
  - constructor.
  - simpl in H. destruct (body f v) as [v' w0 msg|] eqn:Hb; [|discriminate].
    destruct (fieldLoop body (S i) rest _) as [[rest' w'] fin] eqn:Hl.
    inversion H; subst. constructor.
    + simpl. now rewrite Hb.
    + eapply IH; eauto.
Qed.

Lemma fieldLoop_return : forall pre f v post i errorList v' w err,
  allContinue body pre ->
  body f v = Return v' w err ->
  fieldLoop body i (pre ++ (f, v) :: post) errorList
  = (map (stepped body) pre ++ (f, v') :: post,
     writesFrom body i pre ++ map (cons (i + length pre)%nat) w,
     Returned (errorList ++ messages body pre) err).
Proof.
  induction pre as [|[f0 v0] pre IH]; intros f v post i errorList v' w err Hall Hb.
  - simpl. rewrite Hb, app_nil_r, Nat.add_0_r. reflexivity.
  - inversion Hall as [|? ? Hc Hrest]; subst. simpl in Hc.
    cbn [app fieldLoop]. unfold stepped at 1, messages. cbn [map flat_map fst snd writesFrom].
    destruct (body f0 v0) as [v0' w0 msg|]; [|contradiction].
    rewrite (IH f v post (S i) _ v' w err Hrest Hb). unfold messages.
    cbn [length]. rewrite Nat.add_succ_r. cbn [stepValue stepWrites stepMessages].
    rewrite <- !app_assoc.
    destruct msg; simpl; [rewrite <- app_assoc|]; reflexivity.
Qed.

(** The fields the loop has treated carry their new value, the others
    their old one; the writes are those of the treated fields. *)
Lemma fieldLoop_shape : forall fs i errorList,
  fieldsAfter (fieldLoop body i fs errorList)
  = map (stepped body) (firstn (processed body fs) fs) ++ skipn (processed body fs) fs
  /\ writesOf (fieldLoop body i fs errorList)
     = writesFrom body i (firstn (processed body fs) fs).
Proof.
  unfold fieldsAfter, writesOf.
  induction fs as [|[f v] rest IH]; intros i errorList.
  - simpl. auto.
  - cbn [fieldLoop processed fst snd]. unfold stepped at 1.
    destruct (body f v) as [v' w msg|v' w err] eqn:Hb.
    + match goal with |- context [fieldLoop body (S i) rest ?l] =>
        destruct (IH (S i) l) as [IH1 IH2];
        destruct (fieldLoop body (S i) rest l) as [[rest' w'] fin] end.
      simpl in IH1, IH2. cbn [firstn skipn map app writesFrom fst snd].
      rewrite Hb. cbn [stepValue stepWrites]. rewrite IH1, IH2. auto.
    + cbn [firstn skipn map app writesFrom fst snd]. rewrite Hb.
      cbn [stepValue stepWrites]. rewrite app_nil_r. auto.
Qed.

Lemma processed_all_continue : forall fs,
  allContinue body fs -> processed body fs = length fs.
Proof.
  induction fs as [|[f v] rest IH]; intros Hall; [reflexivity|].
  inversion Hall as [|? ? Hc Hrest]; subst. simpl in *.
  destruct (body f v); [|contradiction]. now rewrite IH.
Qed.

Lemma writesAt_app : forall k (a b : list path),
  writesAt k (a ++ b) = writesAt k a ++ writesAt k b.
Proof. intros. apply filter_app. Qed.

Lemma writesAt_here : forall i (w : list path),
  writesAt i (map (cons i) w) = map (cons i) w.
Proof.
  unfold writesAt. induction w as [|p w IH]; [reflexivity|].
  simpl. rewrite Nat.eqb_refl, IH. reflexivity.
Qed.

Lemma writesAt_other : forall i k (w : list path),
  i <> k -> writesAt k (map (cons i) w) = [].
Proof.
  unfold writesAt. induction w as [|p w IH]; intros Hne; [reflexivity|].
  simpl. destruct (Nat.eqb_spec i k); [contradiction|]. auto.
Qed.

Lemma writesFrom_above : forall fs i k,
  (k < i)%nat -> writesAt k (writesFrom body i fs) = [].
Proof.
  induction fs as [|fv rest IH]; intros i k Hlt; [reflexivity|].
  cbn [writesFrom]. rewrite writesAt_app, IH by lia.
  rewrite writesAt_other by lia. reflexivity.
Qed.

Lemma writesFrom_at : forall fs i k f v,
  nth_error fs k = Some (f, v) ->
  writesAt (i + k) (writesFrom body i fs) = map (cons (i + k)%nat) (stepWrites (body f v)).
Proof.
  induction fs as [|fv rest IH]; intros i k f v Hnth.
  - destruct k; discriminate.
  - cbn [writesFrom]. rewrite writesAt_app.
    destruct k as [|k].
    + simpl in Hnth. inversion Hnth; subst. rewrite Nat.add_0_r. cbn [fst snd].
      rewrite writesAt_here, writesFrom_above by lia. now rewrite app_nil_r.
    + simpl in Hnth. rewrite writesAt_other by lia.
      replace (i + S k)%nat with (S i + k)%nat by lia.
      rewrite (IH (S i) k f v Hnth). reflexivity.
Qed.

Lemma writesFrom_beyond : forall fs i k,
  (length fs <= k)%nat -> writesAt (i + k) (writesFrom body i fs) = [].
Proof.
  induction fs as [|fv rest IH]; intros i k Hle; [reflexivity|].
  cbn [writesFrom]. rewrite writesAt_app.
  simpl in Hle. destruct k as [|k]; [lia|].
  rewrite writesAt_other by lia.
  replace (i + S k)%nat with (S i + k)%nat by lia.
  rewrite IH by lia. reflexivity.
Qed.

(** A field the loop has reached carries the value and the writes of
    its turn. *)
Lemma fieldLoop_reached : forall fs i errorList k f v,
  nth_error fs k = Some (f, v) ->
  (k < processed body fs)%nat ->
  nth_error (fieldsAfter (fieldLoop body i fs errorList)) k
  = Some (f, stepValue (body f v))
  /\ writesAt (i + k) (writesOf (fieldLoop body i fs errorList))
     = map (cons (i + k)%nat) (stepWrites (body f v)).
Proof.
  intros fs i errorList k f v Hnth Hlt.
  destruct (fieldLoop_shape fs i errorList) as [-> ->].
  assert (Hk : nth_error (firstn (processed body fs) fs) k = Some (f, v)).
  { rewrite nth_error_firstn. destruct (Nat.ltb_spec k (processed body fs)); [assumption|lia]. }
  split.
  - rewrite nth_error_app1.
    + rewrite nth_error_map, Hk. reflexivity.
    + rewrite length_map. apply nth_error_Some. now rewrite Hk.
  - now apply writesFrom_at.
Qed.

(** A field the loop has not reached is as before, and not written. *)
Lemma fieldLoop_not_reached : forall fs i errorList k f v,
  nth_error fs k = Some (f, v) ->
  (processed body fs <= k)%nat ->
  nth_error (fieldsAfter (fieldLoop body i fs errorList)) k = Some (f, v)
  /\ writesAt (i + k) (writesOf (fieldLoop body i fs errorList)) = [].
Proof.
  intros fs i errorList k f v Hnth Hle.
  destruct (fieldLoop_shape fs i errorList) as [-> ->].
  assert (Hlen : (k < length fs)%nat) by (apply nth_error_Some; now rewrite Hnth).
  assert (Hfl : length (firstn (processed body fs) fs) = processed body fs)
    by (rewrite length_firstn; lia).
  split.
  - rewrite nth_error_app2 by (rewrite length_map; lia).
    rewrite length_map, Hfl, nth_error_skipn.
    replace (processed body fs + (k - processed body fs))%nat with k by lia. assumption.
  - apply writesFrom_beyond. lia.
Qed.

(** A field whose turn changes nothing is as before whether the loop
    reaches it or not. *)
Lemma fieldLoop_untouched : forall fs i errorList k f v,
  nth_error fs k = Some (f, v) ->
  stepValue (body f v) = v ->
  stepWrites (body f v) = [] ->
  nth_error (fieldsAfter (fieldLoop body i fs errorList)) k = Some (f, v)
  /\ writesAt (i + k) (writesOf (fieldLoop body i fs errorList)) = [].
Proof.
  intros fs i errorList k f v Hnth Hv Hw.
  destruct (Nat.lt_ge_cases k (processed body fs)) as [Hlt|Hge].
  - destruct (fieldLoop_reached fs i errorList k f v Hnth Hlt) as [H1 H2].
    rewrite H1, H2, Hv, Hw. auto.
  - now apply fieldLoop_not_reached.
Qed.
End LoopFacts.

(** ** Parse *)

(** [Parse] on a pointer to something that is not a struct. *)
Lemma Parse_pointer_to_non_struct : forall h e p,
  reflect.Kind_of (Some p) <> reflect.Struct ->
  Parse h e (Some (VPtr (Some p))) = (Some (VPtr (Some p)), [], Some ErrNotAStructPtr).
Proof. intros h e p Hk. destruct p; try reflexivity. contradiction Hk. reflexivity. Qed.

(** C1. An argument that is not a pointer, or a pointer to something that
    is not a struct (a nil pointer included), makes [Parse] return
    [ErrNotAStructPtr] at once: the argument is as before and nothing has
    been written. *)
Theorem Parse_not_a_struct_pointer : forall (h : Host) (e : os.Environ) (v : interface),
  reflect.Kind_of v <> reflect.Ptr
  \/ (forall p, v = Some p -> reflect.Kind_of (reflect.Elem p) <> reflect.Struct) ->
  Parse h e v = (v, [], Some ErrNotAStructPtr).
Proof.
  intros h e v H. unfold Parse.
  destruct (reflect.Kind_eqb (reflect.Kind_of v) reflect.Ptr) eqn:Hk; [|reflexivity].
  cbn [negb].
  destruct H as [H|H].
  - unfold reflect.Kind_eqb in Hk.
    destruct (reflect.Kind_eq_dec (reflect.Kind_of v) reflect.Ptr); [contradiction|discriminate].
  - destruct v as [p|]; [|reflexivity].
    specialize (H p eq_refl).
    destruct (reflect.Kind_eqb (reflect.Kind_of (reflect.Elem p)) reflect.Struct) eqn:Hs;
      [|reflexivity].
    unfold reflect.Kind_eqb in Hs.
    destruct (reflect.Kind_eq_dec (reflect.Kind_of (reflect.Elem p)) reflect.Struct);
      [contradiction|discriminate].
Qed.

Lemma Parse_not_a_struct_pointer_witness :
  Parse plainHost [("HOME", "/root")] (Some (VInt 7))
  = (Some (VInt 7), [], Some ErrNotAStructPtr)
  /\ Parse plainHost [("HOME", "/root")] (Some (VPtr (Some (VString "x"))))
     = (Some (VPtr (Some (VString "x"))), [], Some ErrNotAStructPtr)
  /\ Parse plainHost [("HOME", "/root")] (Some (VPtr None))
     = (Some (VPtr None), [], Some ErrNotAStructPtr)
  /\ Parse plainHost [("HOME", "/root")] None = (None, [], Some ErrNotAStructPtr).
Proof.
  refine (conj _ (conj _ (conj _ _))); apply Parse_not_a_struct_pointer.
  - left. simpl. discriminate.
  - right. intros p Hp. inversion Hp; subst. simpl. discriminate.
  - right. intros p Hp. inversion Hp; subst. simpl. discriminate.
  - left. simpl. discriminate.
Defined.

(** [Parse] on a pointer to a struct is [doParse] on the fields. *)
Lemma Parse_struct_pointer : forall h e fs,
  Parse h e (Some (VPtr (Some (VStruct fs))))
  = (Some (VPtr (Some (VStruct (fieldsAfter (doParse h e false fs))))),
     writesOf (doParse h e false fs), errorOf (doParse h e false fs)).
Proof.
  intros. unfold Parse. simpl.
  destruct (doParse h e false fs) as [[fs' w] err]. reflexivity.
Qed.

Lemma doParse_loop : forall h e sticky fs,
  doParse h e sticky fs
  = (fieldsAfter (fieldLoop (fieldStep h e sticky) 0 fs []),
     writesOf (fieldLoop (fieldStep h e sticky) 0 fs []),
     result (loopEnding h e sticky fs)).
Proof.
  intros. unfold doParse, loopEnding, fieldsAfter, writesOf, errorOf.
  destruct (fieldLoop (fieldStep h e sticky) 0 fs []) as [[fs' w] fin]. reflexivity.
Qed.

(** ** The turn of one field, case by case *)

(** A pointer field that is not nil and can be set: [Parse] on the field,
    whatever its tags are. *)
Lemma fieldStep_pointer : forall h e sticky f p,
  reflect.CanSet sticky f = true ->
  fieldStep h e sticky f (VPtr (Some p))
  = afterParse (VPtr (Some p)) (Parse h e (Some (VPtr (Some p)))).
Proof.
  intros h e sticky f p Hc.
  destruct p; try (cbn; rewrite Hc; reflexivity).
  rewrite Parse_struct_pointer, doParse_loop.
  cbn [fieldStep]. unfold reflect.Kind_of, reflect.IsNil. rewrite Hc. cbn [reflect.Kind_eqb].
  cbn. unfold loopEnding, errorOf, fieldsAfter, writesOf.
  destruct (fieldLoop (fieldStep h e false) 0 fields []) as [[fs' w] fin]. cbn [fst snd].
  unfold afterParse. destruct (result fin); reflexivity.
Qed.

(** A field that cannot be set and is not a struct is skipped. *)
Lemma fieldStep_skip : forall h e sticky f v,
  reflect.CanSet sticky f = false ->
  reflect.Kind_of (Some v) <> reflect.Struct ->
  fieldStep h e sticky f v = Continue v [] None.
Proof.
  intros h e sticky f v Hc Hk.
  destruct v; try (cbn; rewrite Hc; reflexivity).
  - contradiction Hk. reflexivity.
  - destruct pointee as [p|]; [destruct p|]; cbn; rewrite Hc; reflexivity.
Qed.

(** A struct field whose resolved value is empty: [doParse] on its fields,
    the result of the call dropped. *)
Lemma fieldStep_struct : forall h e sticky f fs,
  fst (get e f) = "" ->
  fieldStep h e sticky f (VStruct fs)
  = Continue (VStruct (fieldsAfter (doParse h e (reflect.stickyRO sticky f) fs)))
             (writesOf (doParse h e (reflect.stickyRO sticky f) fs)) None.
Proof.
  intros h e sticky f fs Hv. rewrite doParse_loop.
  cbn [fieldStep]. unfold reflect.Kind_of. cbn [reflect.Kind_eqb].
  cbn. rewrite andb_false_r. cbn.
  destruct (get e f) as [value err]. simpl in Hv. subst value. cbn.
  unfold fieldsAfter, writesOf.
  destruct (fieldLoop (fieldStep h e (reflect.stickyRO sticky f)) 0 fs []) as [[fs' w] fin].
  reflexivity.
Qed.


Lemma fieldStep_settable : forall h e sticky f v,
  reflect.CanSet sticky f = true ->
  reflect.Kind_of (Some v) <> reflect.Struct ->
  (reflect.Kind_of (Some v) = reflect.Ptr -> reflect.IsNil v = true) ->
  fieldStep h e sticky f v = scalarTurn h e f v.
Proof.
  intros h e sticky f v Hc Hk Hnil. unfold scalarTurn.
  destruct v; try (cbn; rewrite Hc; cbn; destruct (get e f) as [value [err|]]; reflexivity).
  - contradiction Hk. reflexivity.
  - destruct pointee as [p|]; [specialize (Hnil eq_refl); discriminate|].
    cbn. rewrite Hc. cbn. destruct (get e f) as [value [err|]]; reflexivity.
Qed.

Lemma fieldStep_struct_value : forall h e sticky f fs,
  fst (get e f) <> "" ->
  fieldStep h e sticky f (VStruct fs) = scalarTurn h e f (VStruct fs).
Proof.
  intros h e sticky f fs Hv. unfold scalarTurn.
  cbn [fieldStep]. unfold reflect.Kind_of. cbn [reflect.Kind_eqb].
  cbn. rewrite andb_false_r. cbn.
  destruct (get e f) as [value err]. simpl in Hv.
  apply String.eqb_neq in Hv. rewrite Hv. reflexivity.
Qed.

(** The second recursion of the loop body, [doParse(ref.Field(i).Elem())],
    is never taken: a pointer field that gets past the first two tests is
    nil, and the [Elem] of a nil pointer is not a struct. *)
Lemma pointer_elem_recursion_dead : forall sticky f v,
  reflect.Kind_eqb reflect.Ptr (reflect.Kind_of (Some v))
    && negb (reflect.IsNil v) && reflect.CanSet sticky f = false ->
  negb (reflect.CanSet sticky f)
    && negb (reflect.Kind_eqb (reflect.Kind_of (Some v)) reflect.Struct) = false ->
  reflect.Kind_eqb (reflect.Kind_of (Some v)) reflect.Ptr
    && reflect.Kind_eqb (reflect.Kind_of (reflect.Elem v)) reflect.Struct = false.
Proof.
  intros sticky f v H1 H2.
  destruct v; try reflexivity.
  destruct pointee as [p|]; [|reflexivity].
  destruct (reflect.CanSet sticky f); discriminate.
Qed.

Ltac scalar_turn_continues H :=
  unfold scalarTurn in H;
  repeat match type of H with
         | context [get ?e ?f] => destruct (get e f) as [? [?|]]
         | context [String.eqb ?a ?b] => destruct (String.eqb a b)
         | context [set ?h ?v ?f ?x] => destruct (set h v f x)
         end;
  discriminate H.

(** Only the turn of a pointer field that is not nil and can be set leaves
    the loop. *)
Lemma fieldStep_return_pointer : forall h e sticky f v v' w err,
  fieldStep h e sticky f v = Return v' w err ->
  exists p, v = VPtr (Some p) /\ reflect.CanSet sticky f = true.
Proof.
  intros h e sticky f v v' w err H.
  destruct (reflect.CanSet sticky f) eqn:Hc.
  - destruct v;
      try (rewrite fieldStep_settable in H by (auto; cbn; discriminate);
           scalar_turn_continues H).
    + destruct (String.eqb_spec (fst (get e f)) "") as [He|He].
      * rewrite fieldStep_struct in H by assumption. discriminate.
      * rewrite fieldStep_struct_value in H by assumption. scalar_turn_continues H.
    + destruct pointee as [p|]; [eauto|].
      rewrite fieldStep_settable in H by (auto; cbn; discriminate).
      scalar_turn_continues H.
  - destruct v; try (rewrite fieldStep_skip in H by (auto; cbn; discriminate); discriminate).
    destruct (String.eqb_spec (fst (get e f)) "") as [He|He].
    + rewrite fieldStep_struct in H by assumption. discriminate.
    + rewrite fieldStep_struct_value in H by assumption. scalar_turn_continues H.
Qed.

(** ** Strings *)

Lemma append_assoc : forall a b c : string, ((a ++ b) ++ c = a ++ b ++ c)%string.
Proof. induction a as [|x a IH]; intros; simpl; [|rewrite IH]; reflexivity. Qed.

Lemma append_empty_r : forall a : string, (a ++ "" = a)%string.
Proof. induction a as [|x a IH]; simpl; [|rewrite IH]; reflexivity. Qed.

Lemma contains_refl : forall s, contains s s.
Proof. intros s. exists "", "". simpl. now rewrite append_empty_r. Qed.

Lemma contains_append_l : forall sub a s, contains sub s -> contains sub (a ++ s)%string.
Proof.
  intros sub a s [p [q ->]]. exists (a ++ p)%string, q. now rewrite append_assoc.
Qed.

Lemma contains_append_r : forall sub s b, contains sub s -> contains sub (s ++ b)%string.
Proof.
  intros sub s b [p [q ->]]. exists p, (q ++ b)%string. now rewrite !append_assoc.
Qed.

(** [strings.Join] keeps every element, in order. *)
Lemma Join_cons : forall x l sep,
  l <> [] -> strings.Join (x :: l) sep = (x ++ sep ++ strings.Join l sep)%string.
Proof. intros x [|y l] sep H; [contradiction|reflexivity]. Qed.

Lemma Join_contains : forall l sep m,
  In m l -> contains m (strings.Join l sep).
Proof.
  induction l as [|x l IH]; intros sep m Hin; [contradiction|].
  destruct l as [|y l].
  - destruct Hin as [->|[]]. apply contains_refl.
  - rewrite Join_cons by discriminate. destruct Hin as [->|Hin].
    + apply contains_append_r, contains_refl.
    + apply contains_append_l, contains_append_l, IH, Hin.
Qed.

Lemma Join_in_order : forall a m1 b m2 c sep,
  exists p q r,
    strings.Join (a ++ m1 :: b ++ m2 :: c) sep = (p ++ m1 ++ q ++ m2 ++ r)%string.
Proof.
  assert (Hone : forall b m2 c sep, exists q r,
             strings.Join (b ++ m2 :: c) sep = (q ++ m2 ++ r)%string).
  { induction b as [|x b IH]; intros m2 c sep.
    - destruct c as [|y c].
      + exists "", "". simpl. now rewrite append_empty_r.
      + exists "", (sep ++ strings.Join (y :: c) sep)%string. reflexivity.
    - destruct (IH m2 c sep) as [q [r Hq]].
      exists (x ++ sep ++ q)%string, r.
      rewrite <- app_comm_cons, Join_cons by (destruct b; discriminate).
      rewrite Hq, !append_assoc. reflexivity. }
  induction a as [|x a IH]; intros m1 b m2 c sep.
  - destruct (Hone b m2 c sep) as [q [r Hq]].
    exists "", (sep ++ q)%string, r. simpl app.
    rewrite Join_cons by (destruct b; discriminate).
    rewrite Hq, !append_assoc. reflexivity.
  - destruct (IH m1 b m2 c sep) as [p [q [r Hp]]].
    exists (x ++ sep ++ p)%string, q, r.
    rewrite <- app_comm_cons, Join_cons by (destruct a; discriminate).
    rewrite Hp, !append_assoc. reflexivity.
Qed.

Lemma genSplit_not_nil : forall sep s skip cur, strings.genSplit sep skip cur s <> [].
Proof.
  induction s as [|c s IH]; intros skip cur; cbn [strings.genSplit]; [discriminate|].
  destruct skip; [|apply IH].
  destruct (prefix sep (String c s)); [discriminate|apply IH].
Qed.

Lemma prefix_drop : forall sep s,
  prefix sep s = true -> (sep ++ dropBytes (String.length sep) s)%string = s.
Proof.
  induction sep as [|c sep IH]; intros s H; [reflexivity|].
  destruct s as [|c' s]; [discriminate|]. cbn [prefix] in H.
  destruct (ascii_dec c c') as [->|]; [|discriminate].
  cbn [String.length dropBytes append]. now rewrite IH.
Qed.

(** Joining the pieces of [strings.Split] with the separator gives the
    string back. *)
Lemma Join_genSplit : forall sep s skip cur,
  sep <> "" ->
  strings.Join (strings.genSplit sep skip cur s) sep = (cur ++ dropBytes skip s)%string.
Proof.
  intros sep s skip cur Hsep. revert skip cur.
  induction s as [|c s IH]; intros skip cur; cbn [strings.genSplit].
  - destruct skip; cbn [strings.Join dropBytes]; now rewrite append_empty_r.
  - destruct skip as [|k]; [|apply IH].
    cbn [dropBytes]. destruct (prefix sep (String c s)) eqn:Hp.
    + rewrite Join_cons by apply genSplit_not_nil. rewrite IH. cbn [append].
      f_equal. destruct sep as [|c0 sep]; [contradiction|].
      apply prefix_drop in Hp. cbn [String.length Nat.pred]. exact Hp.
    + rewrite IH. cbn [dropBytes]. rewrite append_assoc. reflexivity.
Qed.

Lemma Join_Split : forall s sep,
  sep <> "" -> strings.Join (strings.Split s sep) sep = s.
Proof.
  intros s [|c sep] H; [contradiction|]. unfold strings.Split.
  now rewrite Join_genSplit.
Qed.

(** ** The Resolver *)

Lemma parseKeyForOption_split : forall key,
  strings.Split key "," = fst (parseKeyForOption key) :: snd (parseKeyForOption key).
Proof.
  intros key. unfold parseKeyForOption.
  destruct (strings.Split key ",") eqn:Hs; [|reflexivity].
  exfalso. revert Hs. unfold strings.Split. apply genSplit_not_nil.
Qed.

Lemma get_fold : forall e f,
  get e f = fold_left (getOpt e (keyOf f)) (optionsOf f) (getOr e (keyOf f) (defaultOf f), None).
Proof.
  intros e f. unfold get, keyOf, optionsOf, defaultOf.
  destruct (parseKeyForOption _) as [key opts]. reflexivity.
Qed.

Lemma getOpt_empty : forall e key st, getOpt e key st "" = st.
Proof. intros e key [val err]. reflexivity. Qed.

Lemma getOpt_required : forall e key st, getOpt e key st "required" = getRequired e key.
Proof. intros e key [val err]. reflexivity. Qed.

Lemma getOpt_other : forall e key val err opt,
  opt <> "" -> opt <> "required" ->
  getOpt e key (val, err) opt = (val, Some (unsupportedOption opt)).
Proof.
  intros e key val err opt H1 H2. unfold getOpt.
  apply String.eqb_neq in H1, H2. now rewrite H1, H2.
Qed.

Lemma effective_snoc : forall opts opt,
  effective (opts ++ [opt]) = effective opts ++ (if String.eqb opt "" then [] else [opt]).
Proof.
  intros opts opt. unfold effective. rewrite filter_app. simpl.
  destruct (String.eqb opt ""); reflexivity.
Qed.

Lemma fold_getOpt_error : forall e key opts st,
  snd (fold_left (getOpt e key) opts st)
  = match effective opts with
    | [] => snd st
    | _ :: _ =>
        let opt := last (effective opts) "" in
        if String.eqb opt "required" then snd (getRequired e key)
        else Some (unsupportedOption opt)
    end.
Proof.
  intros e key opts. induction opts as [|opt opts IH] using rev_ind; intros st.
  - reflexivity.
  - rewrite fold_left_app, effective_snoc. cbn [fold_left].
    destruct (String.eqb_spec opt "") as [->|Hne].
    + rewrite getOpt_empty, app_nil_r. apply IH.
    + destruct (effective opts ++ [opt]) eqn:Happ; [now destruct (effective opts)|].
      rewrite <- Happ, last_last. cbv zeta.
      destruct (fold_left (getOpt e key) opts st) as [val err].
      destruct (String.eqb_spec opt "required") as [->|Hnr].
      * now rewrite getOpt_required.
      * now rewrite getOpt_other.
Qed.

Lemma fold_getOpt_value : forall e key opts st,
  fst (fold_left (getOpt e key) opts st)
  = if existsb (String.eqb "required") opts then fst (getRequired e key) else fst st.
Proof.
  intros e key opts. induction opts as [|opt opts IH] using rev_ind; intros st.
  - reflexivity.
  - rewrite fold_left_app, existsb_app. cbn [fold_left existsb]. rewrite orb_false_r.
    specialize (IH st).
    destruct (fold_left (getOpt e key) opts st) as [val err]. cbn [fst] in IH.
    destruct (String.eqb_spec opt "") as [->|Hne].
    + rewrite getOpt_empty. cbn [fst]. rewrite orb_false_r. exact IH.
    + destruct (String.eqb_spec "required" opt) as [<-|Hnr].
      * rewrite getOpt_required, orb_true_r. reflexivity.
      * rewrite getOpt_other by congruence. cbn [fst]. rewrite orb_false_r. exact IH.
Qed.

(** C9 (as the code has it).  The Resolver treats the option tokens in
    order, starting from the variable's value or the default.  An empty
    token changes nothing; [required] replaces both the value and the
    error by those of the required lookup; any other token replaces the
    error by an unrecognized-option error and keeps the value.  So the
    returned error is that of the last non-empty token, and the returned
    value is that of the required lookup as soon as [required] occurs
    anywhere among the tokens. *)
Theorem get_options_in_order : forall (e : os.Environ) (f : StructField),
  get e f = fold_left (getOpt e (keyOf f)) (optionsOf f)
              (getOr e (keyOf f) (defaultOf f), None)
  /\ (forall st, getOpt e (keyOf f) st "" = st)
  /\ (forall st, getOpt e (keyOf f) st "required" = getRequired e (keyOf f))
  /\ (forall val err opt, opt <> "" -> opt <> "required" ->
        getOpt e (keyOf f) (val, err) opt = (val, Some (unsupportedOption opt)))
  /\ snd (get e f)
     = match effective (optionsOf f) with
       | [] => None
       | _ :: _ =>
           let opt := last (effective (optionsOf f)) "" in
           if String.eqb opt "required" then snd (getRequired e (keyOf f))
           else Some (unsupportedOption opt)
       end
  /\ fst (get e f)
     = (if existsb (String.eqb "required") (optionsOf f)
        then fst (getRequired e (keyOf f))
        else getOr e (keyOf f) (defaultOf f)).
Proof.
  intros e f. rewrite get_fold.
  refine (conj eq_refl (conj _ (conj _ (conj _ (conj _ _))))).
  - apply getOpt_empty.
  - apply getOpt_required.
  - apply getOpt_other.
  - apply fold_getOpt_error.
  - apply fold_getOpt_value.
Qed.

Lemma get_options_in_order_witness :
  getOpt [] (keyOf requiredThenBogus) ("d", None) "bogus"
  = ("d", Some (unsupportedOption "bogus"))
  /\ snd (get [] requiredThenBogus) = Some (unsupportedOption "bogus")
  /\ fst (get [] requiredThenBogus) = "".
Proof.
  destruct (get_options_in_order [] requiredThenBogus) as (_ & _ & _ & Hother & Herr & Hval).
  refine (conj _ (conj _ _)).
  - apply Hother; discriminate.
  - rewrite Herr. reflexivity.
  - rewrite Hval. reflexivity.
Defined.

(** C9 as stated fails: with the same key, default, environment and last
    option, the option before the last one still shows in the result. *)
Lemma get_last_option_only_counterexample :
  last (optionsOf requiredThenBogus) "" = last (optionsOf bogusOnly) ""
  /\ keyOf requiredThenBogus = keyOf bogusOnly
  /\ defaultOf requiredThenBogus = defaultOf bogusOnly
  /\ get [] requiredThenBogus = ("", Some (unsupportedOption "bogus"))
  /\ get [] bogusOnly = ("d", Some (unsupportedOption "bogus"))
  /\ get [] requiredThenBogus <> get [] bogusOnly.
Proof.
  repeat (split; [reflexivity|]). discriminate.
Qed.

(** ** doParse *)

Lemma doParse_finished : forall h e sticky fs errorList,
  loopEnding h e sticky fs = Finished errorList ->
  allContinue (fieldStep h e sticky) fs
  /\ errorList = messages (fieldStep h e sticky) fs
  /\ doParse h e sticky fs
     = (map (stepped (fieldStep h e sticky)) fs,
        writesFrom (fieldStep h e sticky) 0 fs,
        result (Finished errorList)).
Proof.
  intros h e sticky fs errorList H.
  assert (Hall : allContinue (fieldStep h e sticky) fs).
  { unfold loopEnding, errorOf in H.
    destruct (fieldLoop (fieldStep h e sticky) 0 fs []) as [[fs' w] fin] eqn:Hl.
    simpl in H. subst fin. eapply fieldLoop_finished; eauto. }
  split; [assumption|].
  unfold loopEnding in H. rewrite doParse_loop. unfold loopEnding.
  rewrite fieldLoop_all_continue in * by assumption.
  unfold errorOf, fieldsAfter, writesOf in *. simpl in *.
  inversion H; subst. auto.
Qed.

Lemma messages_in : forall body fs k f v m,
  nth_error fs k = Some (f, v) ->
  In m (stepMessages (body f v)) ->
  In m (messages body fs).
Proof.
  intros body fs k f v m Hnth Hin. unfold messages.
  apply in_flat_map. exists (f, v). split; [eapply nth_error_In; eauto|assumption].
Qed.

Lemma messages_app : forall body a b,
  messages body (a ++ b) = messages body a ++ messages body b.
Proof. intros. unfold messages. apply flat_map_app. Qed.

Lemma result_nonempty : forall l m,
  In m l -> result (Finished l) = Some (errors_New (strings.Join l ". ")).
Proof. intros [|x l] m H; [contradiction|reflexivity]. Qed.

(** C6 (as the code has it).  When the loop over the fields runs to its
    end, the error list holds the messages of the failing fields in the
    order of the fields; the call returns nil when the list is empty and
    otherwise one error whose message is the list joined with ". ", so the
    messages of two failing fields occur in it in the order of the
    fields. *)
Theorem doParse_composite_error : forall (h : Host) (e : os.Environ) (sticky : bool)
    (fs : fieldList) (errorList : list string),
  loopEnding h e sticky fs = Finished errorList ->
  errorList = messages (fieldStep h e sticky) fs
  /\ (errorList = [] -> errorOf (doParse h e sticky fs) = None)
  /\ (errorList <> [] ->
      errorOf (doParse h e sticky fs) = Some (errors_New (strings.Join errorList ". ")))
  /\ (forall a f1 v1 b f2 v2 c m1 m2,
        fs = a ++ (f1, v1) :: b ++ (f2, v2) :: c ->
        stepMessages (fieldStep h e sticky f1 v1) = [m1] ->
        stepMessages (fieldStep h e sticky f2 v2) = [m2] ->
        exists p q r,
          errorOf (doParse h e sticky fs)
          = Some (errors_New (p ++ m1 ++ q ++ m2 ++ r)%string)).
Proof.
  intros h e sticky fs errorList Hfin.
  destruct (doParse_finished h e sticky fs errorList Hfin) as (Hall & Hmsg & Hdo).
  rewrite Hdo. unfold errorOf. cbn [snd].
  refine (conj Hmsg (conj _ (conj _ _))).
  - intros ->. reflexivity.
  - intros Hne. destruct errorList; [contradiction|reflexivity].
  - intros a f1 v1 b f2 v2 c m1 m2 Hfs H1 H2.
    assert (Hl : errorList
                 = messages (fieldStep h e sticky) a ++ m1
                   :: messages (fieldStep h e sticky) b ++ m2
                   :: messages (fieldStep h e sticky) c).
    { rewrite Hmsg, Hfs.
      rewrite messages_app. unfold messages at 2. cbn [flat_map fst snd]. rewrite H1.
      fold (messages (fieldStep h e sticky) (b ++ (f2, v2) :: c)).
      rewrite messages_app. unfold messages at 3. cbn [flat_map fst snd]. rewrite H2.
      reflexivity. }
    destruct (Join_in_order (messages (fieldStep h e sticky) a) m1
                (messages (fieldStep h e sticky) b) m2
                (messages (fieldStep h e sticky) c) ". ") as [p [q [r Hj]]].
    exists p, q, r. rewrite Hl.
    rewrite (result_nonempty _ m1) by (apply in_or_app; right; left; reflexivity).
    rewrite Hj. reflexivity.
Qed.

Lemma doParse_composite_error_witness :
  errorOf (doParse plainHost badEnviron false [requiredString; badBool])
  = Some (errors_New
      "Required environment variable A is not set. strconv.ParseBool: parsing maybe: invalid syntax").
Proof.
  destruct (doParse_composite_error plainHost badEnviron false [requiredString; badBool]
              ["Required environment variable A is not set";
               "strconv.ParseBool: parsing maybe: invalid syntax"] eq_refl)
    as (_ & _ & H & _).
  rewrite H by discriminate. reflexivity.
Defined.

(** C6 as stated fails for a call that a pointer field leaves early: no
    message has been collected and yet the call fails; or a message has
    been collected and the call fails with another error. *)
Lemma doParse_composite_error_counterexample :
  (errorListOf (loopEnding plainHost badEnviron false [intPointer]) = []
   /\ errorOf (Parse plainHost badEnviron (Some (VPtr (Some (VStruct [intPointer])))))
      = Some ErrNotAStructPtr)
  /\ (errorListOf (loopEnding plainHost badEnviron false [badBool; intPointer])
      = ["strconv.ParseBool: parsing maybe: invalid syntax"]
      /\ errorOf (Parse plainHost badEnviron
                    (Some (VPtr (Some (VStruct [badBool; intPointer])))))
         = Some ErrNotAStructPtr).
Proof. repeat split. Qed.

Lemma processed_reached : forall body fs k,
  allContinue body (firstn k fs) -> (k < length fs)%nat -> (k < processed body fs)%nat.
Proof.
  intros body fs. induction fs as [|fv rest IH]; intros k Hall Hlt; [simpl in Hlt; lia|].
  destruct k as [|k]; cbn [processed].
  - destruct (body (fst fv) (snd fv)); lia.
  - cbn [firstn] in Hall. inversion Hall as [|? ? Hc Hrest]; subst.
    destruct (body (fst fv) (snd fv)); [|contradiction].
    simpl in Hlt. apply -> Nat.succ_lt_mono. apply IH; [assumption|lia].
Qed.

Lemma allContinue_firstn : forall body fs k,
  allContinue body fs -> allContinue body (firstn k fs).
Proof.
  intros body fs k H. unfold allContinue in *. rewrite Forall_forall in *.
  intros x Hx. apply H. eapply In_nth_error in Hx. destruct Hx as [n Hn].
  rewrite nth_error_firstn in Hn. destruct (n <? k)%nat; [|discriminate].
  eapply nth_error_In; eauto.
Qed.

(** ** Resolution errors *)

Lemma scalarTurn_error : forall h e f v value err,
  get e f = (value, Some err) ->
  scalarTurn h e f v = Continue v [] (Some (Error h err)).
Proof. intros h e f v value err H. unfold scalarTurn. now rewrite H. Qed.

(** The fields whose turn gets to the error check of the loop body with
    the outcome of the resolution: those that can be set and are neither a
    struct nor a pointer that is not nil, and the structs whose resolved
    value is not empty. *)
Lemma fieldStep_checked : forall h e sticky f v,
  (reflect.Kind_of (Some v) = reflect.Struct -> fst (get e f) <> "") ->
  (reflect.Kind_of (Some v) <> reflect.Struct -> reflect.CanSet sticky f = true) ->
  (reflect.Kind_of (Some v) = reflect.Ptr -> reflect.IsNil v = true) ->
  fieldStep h e sticky f v = scalarTurn h e f v.
Proof.
  intros h e sticky f v Hs Hc Hnil.
  destruct (reflect.Kind_eq_dec (reflect.Kind_of (Some v)) reflect.Struct) as [Hk|Hk].
  - destruct v; try discriminate. apply fieldStep_struct_value. auto.
  - apply fieldStep_settable; auto.
Qed.

(** C3 (as the code has it).  For a field that can be set and is neither
    a struct nor a pointer that is not nil, and for a struct field whose
    resolved value is not empty: an error of the resolution is appended to
    the error list and the loop goes on to the next field, the field
    itself untouched; when the loop then runs to its end, the call fails
    with a composite error that contains the message. *)
Theorem resolution_error_recorded : forall (h : Host) (e : os.Environ) (sticky : bool)
    (fs : fieldList) (k : nat) (f : StructField) (v : Value) (value : string) (err : error),
  nth_error fs k = Some (f, v) ->
  get e f = (value, Some err) ->
  (reflect.Kind_of (Some v) = reflect.Struct -> value <> "") ->
  (reflect.Kind_of (Some v) <> reflect.Struct -> reflect.CanSet sticky f = true) ->
  (reflect.Kind_of (Some v) = reflect.Ptr -> reflect.IsNil v = true) ->
  fieldStep h e sticky f v = Continue v [] (Some (Error h err))
  /\ (forall errorList,
        loopEnding h e sticky fs = Finished errorList ->
        In (Error h err) errorList
        /\ errorOf (doParse h e sticky fs)
           = Some (errors_New (strings.Join errorList ". "))
        /\ contains (Error h err) (strings.Join errorList ". ")).
Proof.
  intros h e sticky fs k f v value err Hnth Hget Hs Hc Hnil.
  assert (Hstep : fieldStep h e sticky f v = Continue v [] (Some (Error h err))).
  { rewrite fieldStep_checked; auto.
    - eapply scalarTurn_error; eauto.
    - rewrite Hget. exact Hs. }
  split; [exact Hstep|].
  intros errorList Hfin.
  destruct (doParse_finished h e sticky fs errorList Hfin) as (Hall & Hmsg & Hdo).
  assert (Hin : In (Error h err) errorList).
  { rewrite Hmsg. eapply messages_in; eauto. rewrite Hstep. left. reflexivity. }
  refine (conj Hin (conj _ _)).
  - rewrite Hdo. unfold errorOf. cbn [snd]. eapply result_nonempty; eauto.
  - apply Join_contains. exact Hin.
Qed.

Lemma resolution_error_recorded_witness :
  fieldStep plainHost badEnviron false (fst requiredString) (snd requiredString)
  = Continue (VString "old") [] (Some "Required environment variable A is not set")
  /\ errorOf (doParse plainHost badEnviron false [badBool; requiredString])
     = Some (errors_New
         "strconv.ParseBool: parsing maybe: invalid syntax. Required environment variable A is not set").
Proof.
  destruct (resolution_error_recorded plainHost badEnviron false [badBool; requiredString]
              1 (fst requiredString) (snd requiredString) ""
              (errors_New "Required environment variable A is not set")
              eq_refl eq_refl) as [Hstep Hloop].
  - discriminate.
  - reflexivity.
  - discriminate.
  - split; [exact Hstep|].
    destruct (Hloop ["strconv.ParseBool: parsing maybe: invalid syntax";
                     "Required environment variable A is not set"] eq_refl)
      as (_ & Herr & _).
    exact Herr.
Defined.

(** C3 as stated fails for a field whose type is a nested record: the
    resolution of [Nested] yields the missing-required error, and the call
    succeeds. *)
Lemma resolution_error_recorded_counterexample :
  get [] (fst requiredStruct)
  = ("", Some (errors_New "Required environment variable A is not set"))
  /\ loopEnding plainHost [] false [requiredStruct] = Finished []
  /\ errorOf (Parse plainHost [] (Some (VPtr (Some (VStruct [requiredStruct]))))) = None.
Proof. repeat split. Qed.

(** ** Required variables *)

Lemma fold_getOpt_empties : forall e key opts st,
  Forall (eq "") opts -> fold_left (getOpt e key) opts st = st.
Proof.
  intros e key opts. induction opts as [|opt opts IH]; intros st H; [reflexivity|].
  inversion H as [|? ? Ho Hrest]; subst. cbn [fold_left]. rewrite getOpt_empty. auto.
Qed.

Lemma get_required_missing : forall e f a b,
  optionsOf f = a ++ "required" :: b ->
  Forall (eq "") b ->
  os.LookupEnv e (keyOf f) = None ->
  get e f = ("", Some (errors_New (missingRequired (keyOf f)))).
Proof.
  intros e f a b Hopts Hb Habsent.
  rewrite get_fold, Hopts, fold_left_app. cbn [fold_left].
  rewrite getOpt_required, fold_getOpt_empties by assumption.
  unfold getRequired. rewrite Habsent. reflexivity.
Qed.

Lemma length_append : forall a b : string,
  String.length (a ++ b) = (String.length a + String.length b)%nat.
Proof. induction a as [|c a IH]; intros b; simpl; [|rewrite IH]; reflexivity. Qed.

Lemma contains_length : forall sub s,
  contains sub s -> (String.length sub <= String.length s)%nat.
Proof. intros sub s [a [b ->]]. rewrite !length_append. lia. Qed.

(** C5 (as the code has it).  A field that can be set and is neither a
    struct nor a pointer that is not nil, whose last non-empty option is
    [required] and whose variable is not set: the resolution yields the
    empty value, whatever the declared default, and the missing-required
    error that names the variable; the field is left as it was; and when
    the loop runs to its end the call fails with a composite error that
    contains that message. *)
Theorem required_variable_missing : forall (h : Host) (e : os.Environ) (sticky : bool)
    (fs : fieldList) (k : nat) (f : StructField) (v : Value) (a b : list string),
  nth_error fs k = Some (f, v) ->
  optionsOf f = a ++ "required" :: b ->
  Forall (eq "") b ->
  os.LookupEnv e (keyOf f) = None ->
  reflect.CanSet sticky f = true ->
  reflect.Kind_of (Some v) <> reflect.Struct ->
  (reflect.Kind_of (Some v) = reflect.Ptr -> reflect.IsNil v = true) ->
  get e f = ("", Some (errors_New (missingRequired (keyOf f))))
  /\ fieldStep h e sticky f v = Continue v [] (Some (missingRequired (keyOf f)))
  /\ (forall errorList,
        loopEnding h e sticky fs = Finished errorList ->
        exists msg,
          errorOf (doParse h e sticky fs) = Some (errors_New msg)
          /\ contains (missingRequired (keyOf f)) msg).
Proof.
  intros h e sticky fs k f v a b Hnth Hopts Hb Habsent Hc Hk Hnil.
  pose proof (get_required_missing e f a b Hopts Hb Habsent) as Hget.
  assert (Hstep : fieldStep h e sticky f v = Continue v [] (Some (missingRequired (keyOf f)))).
  { rewrite fieldStep_settable by assumption.
    now rewrite (scalarTurn_error h e f v _ _ Hget). }
  refine (conj Hget (conj Hstep _)).
  intros errorList Hfin.
  destruct (doParse_finished h e sticky fs errorList Hfin) as (Hall & Hmsg & Hdo).
  assert (Hin : In (missingRequired (keyOf f)) errorList).
  { rewrite Hmsg. eapply messages_in; eauto. rewrite Hstep. left. reflexivity. }
  exists (strings.Join errorList ". "). split.
  - rewrite Hdo. unfold errorOf. cbn [snd]. eapply result_nonempty; eauto.
  - apply Join_contains. exact Hin.
Qed.

Lemma required_variable_missing_witness :
  get badEnviron (fst requiredWithDefault)
  = ("", Some (errors_New "Required environment variable A is not set"))
  /\ fieldStep plainHost badEnviron false (fst requiredWithDefault) (snd requiredWithDefault)
     = Continue (VString "old") [] (Some "Required environment variable A is not set")
  /\ exists msg,
       errorOf (doParse plainHost badEnviron false [badBool; requiredWithDefault])
       = Some (errors_New msg)
       /\ contains "Required environment variable A is not set" msg.
Proof.
  assert (Hk : reflect.Kind_of (Some (snd requiredWithDefault)) <> reflect.Struct)
    by discriminate.
  assert (Hnil : reflect.Kind_of (Some (snd requiredWithDefault)) = reflect.Ptr ->
                 reflect.IsNil (snd requiredWithDefault) = true) by discriminate.
  destruct (required_variable_missing plainHost badEnviron false
              [badBool; requiredWithDefault] 1
              (fst requiredWithDefault) (snd requiredWithDefault) [] []
              eq_refl eq_refl (Forall_nil _) eq_refl eq_refl Hk Hnil)
    as (Hget & Hstep & Hloop).
  refine (conj Hget (conj Hstep _)).
  exact (Hloop ["strconv.ParseBool: parsing maybe: invalid syntax";
                "Required environment variable A is not set"] eq_refl).
Defined.

(** C5 as stated fails: each of these fields carries [required], its
    variable [A] is not set, and the call succeeds (an unexported field, a
    nested record, a pointer that is not nil), or fails with an error that
    does not hold the missing-required message (an option after
    [required], a later pointer field that leaves the call). *)
Lemma required_variable_missing_counterexample :
  os.LookupEnv [] "A" = None
  /\ (In "required" (optionsOf (fst requiredUnexported))
      /\ errorOf (Parse plainHost [] (Some (VPtr (Some (VStruct [requiredUnexported])))))
         = None)
  /\ (In "required" (optionsOf (fst requiredStruct))
      /\ errorOf (Parse plainHost [] (Some (VPtr (Some (VStruct [requiredStruct])))))
         = None)
  /\ (In "required" (optionsOf (fst requiredPointer))
      /\ errorOf (Parse plainHost [] (Some (VPtr (Some (VStruct [requiredPointer])))))
         = None)
  /\ (In "required" (optionsOf (fst requiredThenBogusString))
      /\ errorOf (Parse plainHost []
                    (Some (VPtr (Some (VStruct [requiredThenBogusString])))))
         = Some (errors_New "Env tag option bogus not supported.")
      /\ ~ contains (missingRequired "A") "Env tag option bogus not supported.")
  /\ (In "required" (optionsOf (fst requiredString))
      /\ errorOf (Parse plainHost []
                    (Some (VPtr (Some (VStruct [requiredString; intPointer])))))
         = Some ErrNotAStructPtr
      /\ ~ contains (missingRequired "A") (Error plainHost ErrNotAStructPtr)).
Proof.
  refine (conj eq_refl (conj _ (conj _ (conj _ (conj _ _))))).
  - split; [left; reflexivity|reflexivity].
  - split; [left; reflexivity|reflexivity].
  - split; [left; reflexivity|reflexivity].
  - refine (conj _ (conj eq_refl _)); [left; reflexivity|].
    intros H. apply contains_length in H. simpl in H. lia.
  - refine (conj _ (conj eq_refl _)); [left; reflexivity|].
    intros H. apply contains_length in H. simpl in H. lia.
Qed.

(** ** What the binder writes *)

Lemma doParse_fields : forall h e sticky fs,
  fieldsAfter (doParse h e sticky fs) = fieldsAfter (fieldLoop (fieldStep h e sticky) 0 fs [])
  /\ writesOf (doParse h e sticky fs) = writesOf (fieldLoop (fieldStep h e sticky) 0 fs []).
Proof. intros. rewrite doParse_loop. split; reflexivity. Qed.

Lemma doParse_untouched : forall h e sticky fs k f v,
  nth_error fs k = Some (f, v) ->
  stepValue (fieldStep h e sticky f v) = v ->
  stepWrites (fieldStep h e sticky f v) = [] ->
  nth_error (fieldsAfter (doParse h e sticky fs)) k = Some (f, v)
  /\ writesAt k (writesOf (doParse h e sticky fs)) = [].
Proof.
  intros h e sticky fs k f v Hnth Hv Hw.
  destruct (doParse_fields h e sticky fs) as [-> ->].
  exact (fieldLoop_untouched (fieldStep h e sticky) fs 0 [] k f v Hnth Hv Hw).
Qed.

Lemma doParse_reached : forall h e sticky fs k f v,
  nth_error fs k = Some (f, v) ->
  allContinue (fieldStep h e sticky) (firstn k fs) ->
  nth_error (fieldsAfter (doParse h e sticky fs)) k
  = Some (f, stepValue (fieldStep h e sticky f v))
  /\ writesAt k (writesOf (doParse h e sticky fs))
     = map (cons k) (stepWrites (fieldStep h e sticky f v)).
Proof.
  intros h e sticky fs k f v Hnth Hpre.
  destruct (doParse_fields h e sticky fs) as [-> ->].
  apply (fieldLoop_reached (fieldStep h e sticky) fs 0 [] k f v Hnth).
  apply processed_reached; [assumption|].
  apply nth_error_Some. now rewrite Hnth.
Qed.

(** C2 (as the code has it).  In a record whose fields of kind [Float64]
    have the type [float64], at every depth (so that no [field.Set]
    panics), for a field that is neither a struct nor a pointer that is
    not nil: when its resolved value is empty, when it cannot be set, when
    the resolution fails or when the conversion fails, the field is not
    written and keeps its value; when it can be set, the resolution
    succeeds with a non-empty value and the conversion succeeds, and the
    loop gets to the field, the field is written exactly once, with the
    converted value. *)
Theorem field_written_once_or_untouched : forall (h : Host) (e : os.Environ) (sticky : bool)
    (fs : fieldList) (k : nat) (f : StructField) (v : Value),
  wellTypedFields fs = true ->
  nth_error fs k = Some (f, v) ->
  reflect.Kind_of (Some v) <> reflect.Struct ->
  (reflect.Kind_of (Some v) = reflect.Ptr -> reflect.IsNil v = true) ->
  (fst (get e f) = ""
   \/ reflect.CanSet sticky f = false
   \/ snd (get e f) <> None
   \/ (exists err, set h v f (fst (get e f)) = inr err) ->
   nth_error (fieldsAfter (doParse h e sticky fs)) k = Some (f, v)
   /\ writesAt k (writesOf (doParse h e sticky fs)) = [])
  /\ (forall value v',
        reflect.CanSet sticky f = true ->
        get e f = (value, None) ->
        value <> "" ->
        set h v f value = inl v' ->
        allContinue (fieldStep h e sticky) (firstn k fs) ->
        nth_error (fieldsAfter (doParse h e sticky fs)) k = Some (f, v')
        /\ writesAt k (writesOf (doParse h e sticky fs)) = [[k]]).
Proof.
  intros h e sticky fs k f v Htyped Hnth Hk Hnil. split.
  - intros Hcase. apply doParse_untouched; [assumption| |].
    + destruct (reflect.CanSet sticky f) eqn:Hc.
      * rewrite fieldStep_settable by assumption. unfold scalarTurn.
        destruct (get e f) as [value [er|]]; [reflexivity|]. cbn [fst snd] in Hcase.
        destruct (String.eqb_spec value ""); [reflexivity|].
        destruct Hcase as [H|[H|[H|[err H]]]]; try congruence.
        now rewrite H.
      * now rewrite fieldStep_skip.
    + destruct (reflect.CanSet sticky f) eqn:Hc.
      * rewrite fieldStep_settable by assumption. unfold scalarTurn.
        destruct (get e f) as [value [er|]]; [reflexivity|]. cbn [fst snd] in Hcase.
        destruct (String.eqb_spec value ""); [reflexivity|].
        destruct Hcase as [H|[H|[H|[err H]]]]; try congruence.
        now rewrite H.
      * now rewrite fieldStep_skip.
  - intros value v' Hc Hget Hne Hset Hpre.
    destruct (doParse_reached h e sticky fs k f v Hnth Hpre) as [-> ->].
    rewrite fieldStep_settable by assumption. unfold scalarTurn.
    rewrite Hget. apply String.eqb_neq in Hne. rewrite Hne, Hset. split; reflexivity.
Qed.

Lemma field_written_once_or_untouched_witness :
  (nth_error (fieldsAfter (doParse plainHost homeEnviron false [badBool; home])) 0
   = Some badBool
   /\ writesAt 0 (writesOf (doParse plainHost homeEnviron false [badBool; home])) = [])
  /\ (nth_error (fieldsAfter (doParse plainHost homeEnviron false [badBool; home])) 1
      = Some (fst home, VString "/root")
      /\ writesAt 1 (writesOf (doParse plainHost homeEnviron false [badBool; home]))
         = [[1%nat]]).
Proof.
  split.
  - assert (Hk : reflect.Kind_of (Some (snd badBool)) <> reflect.Struct) by discriminate.
    assert (Hnil : reflect.Kind_of (Some (snd badBool)) = reflect.Ptr ->
                   reflect.IsNil (snd badBool) = true) by discriminate.
    destruct (field_written_once_or_untouched plainHost homeEnviron false [badBool; home] 0
                (fst badBool) (snd badBool) eq_refl eq_refl Hk Hnil) as [Hsame _].
    apply Hsame. right. right. right.
    exists (strconv.syntaxError "ParseBool" "maybe"). reflexivity.
  - assert (Hk : reflect.Kind_of (Some (snd home)) <> reflect.Struct) by discriminate.
    assert (Hnil : reflect.Kind_of (Some (snd home)) = reflect.Ptr ->
                   reflect.IsNil (snd home) = true) by discriminate.
    destruct (field_written_once_or_untouched plainHost homeEnviron false [badBool; home] 1
                (fst home) (snd home) eq_refl eq_refl Hk Hnil) as [_ Hwritten].
    apply (Hwritten "/root" (VString "/root")); try reflexivity.
    + discriminate.
    + repeat constructor.
Defined.

(** C2 as stated fails.  The resolved value of the nested record [Foo] is
    empty and the field has changed after the call; the boolean field [B]
    can be set, is no pointer and resolves to a non-empty value, and is
    never written. *)
Lemma field_written_once_or_untouched_counterexample :
  (fst (get nameEnviron (fst nestedFoo)) = ""
   /\ nth_error (fieldsAfter (doParse plainHost nameEnviron false [nestedFoo])) 0
      = Some (fst nestedFoo,
              VStruct [(field "Name" true tString [("env", "NAME")], VString "new")])
   /\ nth_error (fieldsAfter (doParse plainHost nameEnviron false [nestedFoo])) 0
      <> Some nestedFoo)
  /\ (reflect.CanSet false (fst badBool) = true
      /\ reflect.Kind_of (Some (snd badBool)) <> reflect.Ptr
      /\ fst (get badEnviron (fst badBool)) = "maybe"
      /\ writesOf (doParse plainHost badEnviron false [badBool]) = []
      /\ fieldsAfter (doParse plainHost badEnviron false [badBool]) = [badBool]).
Proof.
  split.
  - refine (conj eq_refl (conj eq_refl _)). discriminate.
  - refine (conj eq_refl (conj _ (conj eq_refl (conj eq_refl eq_refl)))). discriminate.
Qed.

(** ** Recursion into nested records *)

Lemma doParse_return : forall h e sticky pre f v post v' w err,
  allContinue (fieldStep h e sticky) pre ->
  fieldStep h e sticky f v = Return v' w err ->
  doParse h e sticky (pre ++ (f, v) :: post)
  = (map (stepped (fieldStep h e sticky)) pre ++ (f, v') :: post,
     writesFrom (fieldStep h e sticky) 0 pre ++ map (cons (length pre)) w,
     Some err).
Proof.
  intros h e sticky pre f v post v' w err Hpre Hstep.
  unfold doParse.
  rewrite (fieldLoop_return (fieldStep h e sticky) pre f v post 0 [] v' w err Hpre Hstep).
  reflexivity.
Qed.

(** C4.  A pointer field that is not nil and can be set: the turn of the
    field is [Parse] on the field, whatever the tags of the field are (no
    resolution takes place); an error of that call is returned from
    [doParse] at once, as it is, and the fields after the pointer field
    are left as they were.  A struct field held by value whose resolved
    value is empty: [doParse] runs on its fields, its error is dropped (no
    message is added to the error list), and the loop goes on with the
    next field. *)
Theorem pointer_error_fatal_nested_error_dropped : forall (h : Host) (e : os.Environ)
    (sticky : bool),
  (forall f fs,
     reflect.CanSet sticky f = true ->
     fieldStep h e sticky f (VPtr (Some (VStruct fs)))
     = afterParse (VPtr (Some (VStruct fs))) (Parse h e (Some (VPtr (Some (VStruct fs))))))
  /\ (forall f f' fs,
        reflect.CanSet sticky f = true -> reflect.CanSet sticky f' = true ->
        fieldStep h e sticky f (VPtr (Some (VStruct fs)))
        = fieldStep h e sticky f' (VPtr (Some (VStruct fs))))
  /\ (forall pre f fs post after w err,
        reflect.CanSet sticky f = true ->
        allContinue (fieldStep h e sticky) pre ->
        Parse h e (Some (VPtr (Some (VStruct fs)))) = (Some after, w, Some err) ->
        doParse h e sticky (pre ++ (f, VPtr (Some (VStruct fs))) :: post)
        = (map (stepped (fieldStep h e sticky)) pre ++ (f, after) :: post,
           writesFrom (fieldStep h e sticky) 0 pre ++ map (cons (length pre)) w,
           Some err))
  /\ (forall f fs,
        fst (get e f) = "" ->
        fieldStep h e sticky f (VStruct fs)
        = Continue (VStruct (fieldsAfter (doParse h e (reflect.stickyRO sticky f) fs)))
                   (writesOf (doParse h e (reflect.stickyRO sticky f) fs)) None)
  /\ (forall f fs post i errorList,
        fst (get e f) = "" ->
        errorOf (fieldLoop (fieldStep h e sticky) i ((f, VStruct fs) :: post) errorList)
        = errorOf (fieldLoop (fieldStep h e sticky) (S i) post errorList)).
Proof.
  intros h e sticky. refine (conj _ (conj _ (conj _ (conj _ _)))).
  - intros f fs Hc. now apply fieldStep_pointer.
  - intros f f' fs Hc Hc'. now rewrite !fieldStep_pointer.
  - intros pre f fs post after w err Hc Hpre HP.
    apply doParse_return; [assumption|].
    rewrite fieldStep_pointer, HP by assumption. reflexivity.
  - intros f fs Hv. now apply fieldStep_struct.
  - intros f fs post i errorList Hv. cbn [fieldLoop].
    rewrite fieldStep_struct by assumption.
    destruct (fieldLoop (fieldStep h e sticky) (S i) post errorList) as [[post' w'] fin].
    reflexivity.
Qed.

Lemma pointer_error_fatal_nested_error_dropped_witness :
  doParse plainHost homeEnviron false [badBoolPointer; home]
  = ([badBoolPointer; home], [],
     Some (errors_New "strconv.ParseBool: parsing maybe: invalid syntax"))
  /\ errorOf (doParse plainHost homeEnviron false [badBool]) <> None
  /\ fieldStep plainHost homeEnviron false (fst badBoolNested) (snd badBoolNested)
     = Continue (snd badBoolNested) [] None
  /\ errorOf (fieldLoop (fieldStep plainHost homeEnviron false) 0 [badBoolNested; home] [])
     = Finished [].
Proof.
  destruct (pointer_error_fatal_nested_error_dropped plainHost homeEnviron false)
    as (_ & _ & Hfatal & Hnested & Hnext).
  refine (conj _ (conj _ (conj _ _))).
  - apply (Hfatal [] (fst badBoolPointer) [badBool] [home] (VPtr (Some (VStruct [badBool]))) []
             (errors_New "strconv.ParseBool: parsing maybe: invalid syntax")).
    + reflexivity.
    + constructor.
    + reflexivity.
  - discriminate.
  - unfold badBoolNested. cbn [fst snd]. rewrite Hnested by reflexivity. reflexivity.
  - unfold badBoolNested. rewrite Hnext by reflexivity. reflexivity.
Defined.

(** ** Pointer fields *)

(** C10 (as the code has it).  When the loop gets to a pointer field that
    is not nil, can be set and points to something that is not a struct,
    [doParse] returns [ErrNotAStructPtr] at once; the pointer field and
    the fields after it are left as they were.  The turn of a nil pointer
    field never leaves the loop and leaves the field nil; it adds no
    message when the field cannot be set or its resolved value is empty
    (as when the field has no [env] tag and no default), the message of the
    resolution error when the resolution fails, and the message of
    [ErrUnsupportedType] when the resolved value is not empty. *)
Theorem pointer_to_non_struct_fatal : forall (h : Host) (e : os.Environ) (sticky : bool),
  (forall pre f p post,
     reflect.CanSet sticky f = true ->
     reflect.Kind_of (Some p) <> reflect.Struct ->
     allContinue (fieldStep h e sticky) pre ->
     doParse h e sticky (pre ++ (f, VPtr (Some p)) :: post)
     = (map (stepped (fieldStep h e sticky)) pre ++ (f, VPtr (Some p)) :: post,
        writesFrom (fieldStep h e sticky) 0 pre,
        Some ErrNotAStructPtr))
  /\ (forall f,
        continues (fieldStep h e sticky f (VPtr None))
        /\ stepValue (fieldStep h e sticky f (VPtr None)) = VPtr None
        /\ stepWrites (fieldStep h e sticky f (VPtr None)) = [])
  /\ (forall f,
        reflect.CanSet sticky f = false \/ get e f = ("", None) ->
        fieldStep h e sticky f (VPtr None) = Continue (VPtr None) [] None)
  /\ (forall f,
        reflect.Tag_Get (reflect.Tag f) "env" = "" ->
        reflect.Tag_Get (reflect.Tag f) "envDefault" = "" ->
        get e f = ("", None))
  /\ (forall f value err,
        reflect.CanSet sticky f = true ->
        get e f = (value, Some err) ->
        fieldStep h e sticky f (VPtr None) = Continue (VPtr None) [] (Some (Error h err)))
  /\ (forall f value,
        reflect.CanSet sticky f = true ->
        get e f = (value, None) ->
        value <> "" ->
        fieldStep h e sticky f (VPtr None)
        = Continue (VPtr None) [] (Some (Error h ErrUnsupportedType))).
Proof.
  intros h e sticky.
  assert (Hnil : forall f, reflect.CanSet sticky f = true ->
                 fieldStep h e sticky f (VPtr None) = scalarTurn h e f (VPtr None)).
  { intros f Hc. apply fieldStep_settable; [assumption|discriminate|reflexivity]. }
  refine (conj _ (conj _ (conj _ (conj _ (conj _ _))))).
  - intros pre f p post Hc Hk Hpre.
    rewrite (doParse_return h e sticky pre f (VPtr (Some p)) post (VPtr (Some p)) []
               ErrNotAStructPtr Hpre).
    + cbn [map]. now rewrite app_nil_r.
    + rewrite fieldStep_pointer by assumption.
      rewrite Parse_pointer_to_non_struct by assumption. reflexivity.
  - intros f. destruct (reflect.CanSet sticky f) eqn:Hc.
    + rewrite Hnil by assumption. unfold scalarTurn.
      destruct (get e f) as [value [err|]]; [simpl; auto|].
      destruct (String.eqb value ""); simpl; auto.
    + rewrite fieldStep_skip by (auto; discriminate). simpl. auto.
  - intros f [Hc|Hget].
    + apply fieldStep_skip; [assumption|discriminate].
    + destruct (reflect.CanSet sticky f) eqn:Hc.
      * rewrite Hnil by assumption. unfold scalarTurn. now rewrite Hget.
      * apply fieldStep_skip; [assumption|discriminate].
  - intros f Henv Hdef. unfold get. rewrite Henv, Hdef. reflexivity.
  - intros f value err Hc Hget. rewrite Hnil by assumption.
    eapply scalarTurn_error; eauto.
  - intros f value Hc Hget Hne. rewrite Hnil by assumption. unfold scalarTurn.
    rewrite Hget. apply String.eqb_neq in Hne. now rewrite Hne.
Qed.

Lemma pointer_to_non_struct_fatal_witness :
  doParse plainHost homeEnviron false [home; intPointer; badBool]
  = ([(fst home, VString "/root"); intPointer; badBool], [[0%nat]], Some ErrNotAStructPtr)
  /\ fieldStep plainHost homeEnviron false (fst nilPointerPlain) (VPtr None)
     = Continue (VPtr None) [] None
  /\ fieldStep plainHost homeEnviron false (fst nilPointerTagged) (VPtr None)
     = Continue (VPtr None) [] (Some "Type is not supported").
Proof.
  destruct (pointer_to_non_struct_fatal plainHost homeEnviron false)
    as (Hfatal & _ & Hquiet & Hplain & _ & Hvalue).
  refine (conj _ (conj _ _)).
  - apply (Hfatal [home] (fst intPointer) (VInt 0) [badBool]).
    + reflexivity.
    + discriminate.
    + repeat constructor.
  - apply Hquiet. right. apply Hplain; reflexivity.
  - apply (Hvalue (fst nilPointerTagged) "/root").
    + reflexivity.
    + reflexivity.
    + discriminate.
Defined.

(** C10 as stated fails.  A nil pointer field with an [env] tag whose
    variable is set produces an error; and a record with a pointer to an
    [int] fails with another error when an earlier pointer field has left
    the call. *)
Lemma pointer_to_non_struct_fatal_counterexample :
  (snd nilPointerTagged = VPtr None
   /\ doParse plainHost homeEnviron false [nilPointerTagged]
      = ([nilPointerTagged], [], Some (errors_New "Type is not supported")))
  /\ (reflect.CanSet false (fst intPointer) = true
      /\ snd intPointer = VPtr (Some (VInt 0))
      /\ errorOf (Parse plainHost homeEnviron
                    (Some (VPtr (Some (VStruct [badBoolPointer; intPointer])))))
         = Some (errors_New "strconv.ParseBool: parsing maybe: invalid syntax")).
Proof. repeat split. Qed.

(** ** Sequence fields *)

Lemma Kind_eqb_eq : forall a b, reflect.Kind_eqb a b = true -> a = b.
Proof.
  intros a b. unfold reflect.Kind_eqb.
  destruct (reflect.Kind_eq_dec a b); [auto|discriminate].
Qed.

Lemma rtype_eqb_eq : forall a b, reflect.rtype_eqb a b = true -> a = b.
Proof.
  induction a as [s k|x IH]; intros [s' k'|y] H; simpl in H; try discriminate.
  - apply andb_prop in H. destruct H as [Hs Hk].
    apply String.eqb_eq in Hs. apply Kind_eqb_eq in Hk. congruence.
  - f_equal. auto.
Qed.

Section Elements.
Variable A : Type.
Variable parse : string -> A + error.
Variable mk : A -> Value.
Variable rule : string -> Value + error.
Hypothesis rule_parse : forall piece,
  rule piece = match parse piece with
               | inl x => inl (mk x)
               | inr err => inr err
               end.

Lemma parseEach_all : forall data xs acc,
  Forall2 (fun piece x => rule piece = inl x) data xs ->
  exists ys, xs = map mk ys /\ parseEach parse data acc = inl (acc ++ ys).
Proof.
  induction data as [|piece data IH]; intros xs acc H; inversion H as [|? x ? xs' Hx Hrest]; subst.
  - exists []. simpl. now rewrite app_nil_r.
  - rewrite rule_parse in Hx. cbn [parseEach].
    destruct (parse piece) as [y|err]; [|discriminate]. inversion Hx; subst.
    destruct (IH xs' (acc ++ [y]) Hrest) as [ys [-> Hys]].
    exists (y :: ys). rewrite Hys, <- app_assoc. auto.
Qed.

Lemma parseEach_first_error : forall pre piece post err acc,
  Forall (fun q => exists x, rule q = inl x) pre ->
  rule piece = inr err ->
  parseEach parse (pre ++ piece :: post) acc = inr err.
Proof.
  induction pre as [|q pre IH]; intros piece post err acc Hpre Hp.
  - rewrite rule_parse in Hp. simpl.
    destruct (parse piece); [discriminate|]. now inversion Hp.
  - inversion Hpre as [|? ? [x Hq] Hrest]; subst. rewrite rule_parse in Hq.
    cbn [app parseEach]. destruct (parse q); [|discriminate]. auto.
Qed.
End Elements.

Lemma checked_rule : forall (mk : Z -> Value) (r : Z * option error),
  match r with
  | (_, Some err) => inr err
  | (x, None) => inl (mk x)
  end
  = match checked r with
    | inl x => inl (mk x)
    | inr err => inr err
    end.
Proof. intros mk [x [err|]]; reflexivity. Qed.

(** C7 (as the code has it).  A slice field is converted by splitting the
    value at the separator of the field (the comma when the field declares
    none).  When the type of the field is one of the six slice types of the
    package, each piece is converted by the rule of [set] for a scalar
    field of the element type: if every piece converts, the field is set
    to the converted pieces, in order; otherwise the field is not written
    and the error is that of the first piece that does not convert.  A
    slice field of any other type fails with [ErrUnsupportedSliceType].
    The value [a:b:c] with the separator [:] gives a, b, c. *)
Theorem slice_field_conversion : forall (h : Host) (f : StructField) (t : rtype)
    (d : reflect.SliceData) (value : string),
  match elementField t with
  | Some scalar =>
      (forall xs,
         Forall2 (fun piece x => set h scalar (elementDescriptor t) piece = inl x)
                 (strings.Split value (separatorOf f)) xs ->
         exists d', set h (VSlice t d) f value = inl (VSlice t d') /\ elements d' = xs)
      /\ (forall pre piece post err,
            strings.Split value (separatorOf f) = pre ++ piece :: post ->
            Forall (fun q => exists x, set h scalar (elementDescriptor t) q = inl x) pre ->
            set h scalar (elementDescriptor t) piece = inr err ->
            set h (VSlice t d) f value = inr err)
  | None => set h (VSlice t d) f value = inr ErrUnsupportedSliceType
  end
  /\ (reflect.Tag_Get (reflect.Tag f) "envSeparator" = "" -> separatorOf f = ",")
  /\ set h (VSlice sliceOfStrings d) hosts "a:b:c"
     = inl (VSlice sliceOfStrings (Strings ["a"; "b"; "c"])).
Proof.
  intros h f t d value.
  refine (conj _ (conj _ eq_refl)).
  2: { intros Hsep. unfold separatorOf. now rewrite Hsep. }
  unfold elementField. cbn [set]. unfold handleSlice. fold (separatorOf f).
  set (pieces := strings.Split value (separatorOf f)).
  destruct (reflect.rtype_eqb t sliceOfStrings) eqn:E1.
  { apply rtype_eqb_eq in E1. subst t. split.
    - intros xs Hxs. exists (Strings pieces). split; [reflexivity|].
      cbn [elements]. clear -Hxs. induction Hxs as [|piece x l l' Hx Hrest IH]; [reflexivity|].
      cbn in Hx. injection Hx as <-. cbn [map]. now rewrite IH.
    - intros pre piece post err _ _ Hp. cbn in Hp. discriminate. }
  destruct (reflect.rtype_eqb t sliceOfInts) eqn:E2.
  { apply rtype_eqb_eq in E2. subst t. unfold parseInts. split.
    - intros xs Hxs.
      destruct (parseEach_all Z (fun v => checked (strconv.ParseInt v 10 32)) VInt _
                  (fun piece => checked_rule VInt (strconv.ParseInt piece 10 32))
                  pieces xs [] Hxs) as [ys [-> Hys]].
      rewrite Hys. eexists. split; reflexivity.
    - intros pre piece post err Hsplit Hpre Hp. rewrite Hsplit.
      rewrite (parseEach_first_error Z (fun v => checked (strconv.ParseInt v 10 32)) VInt _
                 (fun piece => checked_rule VInt (strconv.ParseInt piece 10 32))
                 pre piece post err [] Hpre Hp). reflexivity. }
  destruct (reflect.rtype_eqb t sliceOfInt64s) eqn:E3.
  { apply rtype_eqb_eq in E3. subst t. unfold parseInt64s. split.
    - intros xs Hxs.
      destruct (parseEach_all Z (fun v => checked (strconv.ParseInt v 10 64)) VInt64 _
                  (fun piece => checked_rule VInt64 (strconv.ParseInt piece 10 64))
                  pieces xs [] Hxs) as [ys [-> Hys]].
      rewrite Hys. eexists. split; reflexivity.
    - intros pre piece post err Hsplit Hpre Hp. rewrite Hsplit.
      rewrite (parseEach_first_error Z (fun v => checked (strconv.ParseInt v 10 64)) VInt64 _
                 (fun piece => checked_rule VInt64 (strconv.ParseInt piece 10 64))
                 pre piece post err [] Hpre Hp). reflexivity. }
  destruct (reflect.rtype_eqb t sliceOfFloat32s) eqn:E4.
  { apply rtype_eqb_eq in E4. subst t. unfold parseFloat32s. split.
    - intros xs Hxs.
      destruct (parseEach_all float64 (fun v => ParseFloat h v 32) VFloat32 _
                  (fun piece => eq_refl) pieces xs [] Hxs) as [ys [-> Hys]].
      rewrite Hys. eexists. split; reflexivity.
    - intros pre piece post err Hsplit Hpre Hp. rewrite Hsplit.
      rewrite (parseEach_first_error float64 (fun v => ParseFloat h v 32) VFloat32 _
                 (fun piece => eq_refl) pre piece post err [] Hpre Hp). reflexivity. }
  destruct (reflect.rtype_eqb t sliceOfFloat64s) eqn:E5.
  { apply rtype_eqb_eq in E5. subst t. unfold parseFloat64s. split.
    - intros xs Hxs.
      destruct (parseEach_all float64 (fun v => ParseFloat h v 64) VFloat64 _
                  (fun piece => eq_refl) pieces xs [] Hxs) as [ys [-> Hys]].
      rewrite Hys. eexists. split; reflexivity.
    - intros pre piece post err Hsplit Hpre Hp. rewrite Hsplit.
      rewrite (parseEach_first_error float64 (fun v => ParseFloat h v 64) VFloat64 _
                 (fun piece => eq_refl) pre piece post err [] Hpre Hp). reflexivity. }
  destruct (reflect.rtype_eqb t sliceOfBools) eqn:E6.
  { apply rtype_eqb_eq in E6. subst t. unfold parseBools. split.
    - intros xs Hxs.
      destruct (parseEach_all bool strconv.ParseBool VBool _
                  (fun piece => eq_refl) pieces xs [] Hxs) as [ys [-> Hys]].
      rewrite Hys. eexists. split; reflexivity.
    - intros pre piece post err Hsplit Hpre Hp. rewrite Hsplit.
      rewrite (parseEach_first_error bool strconv.ParseBool VBool _
                 (fun piece => eq_refl) pre piece post err [] Hpre Hp). reflexivity. }
  reflexivity.
Qed.

Lemma slice_field_conversion_witness :
  (exists d',
     set plainHost (VSlice sliceOfInts Elems) ports "80,443" = inl (VSlice sliceOfInts d')
     /\ elements d' = [VInt 80; VInt 443])
  /\ set plainHost (VSlice sliceOfInts Elems) ports "80,x,y"
     = inr (strconv.syntaxError "ParseInt" "x").
Proof.
  split.
  - destruct (slice_field_conversion plainHost ports sliceOfInts Elems "80,443")
      as [[Hall _] _].
    apply Hall. repeat constructor.
  - destruct (slice_field_conversion plainHost ports sliceOfInts Elems "80,x,y")
      as [[_ Hfirst] _].
    apply (Hfirst ["80"] "x" ["y"]).
    + reflexivity.
    + constructor; [|constructor]. exists (VInt 80). reflexivity.
    + reflexivity.
Defined.

(** C7 as stated fails for a slice of [uint]: the only piece converts by
    the rule of a [uint] field, and the slice field fails. *)
Lemma slice_field_conversion_counterexample :
  reflect.Kind_of (Some (VSlice sliceOfUints Elems)) = reflect.Slice
  /\ strings.Split "1" "," = ["1"]
  /\ set plainHost (VUint 0) (elementDescriptor sliceOfUints) "1" = inl (VUint 1)
  /\ set plainHost (VSlice sliceOfUints Elems) (field "Sizes" true sliceOfUints [("env", "SIZES")]) "1"
     = inr ErrUnsupportedSliceType.
Proof. repeat split. Qed.

(** ** Durations *)

Lemma leadingInt_suffix : forall s x v r,
  time.leadingInt s x = Some (v, r) -> (String.length r <= String.length s)%nat.
Proof.
  induction s as [|c s IH]; intros x v r H; cbn [time.leadingInt] in H.
  - inversion H; subst. auto.
  - destruct (time.isDigit c).
    + destruct (2 ^ 63 / 10 <? x); [discriminate|].
      destruct (2 ^ 63 <? x * 10 + time.code c - 48); [discriminate|].
      apply IH in H. simpl. lia.
    + inversion H; subst. auto.
Qed.

Lemma leadingInt_digit : forall c s v r,
  time.isDigit c = true ->
  time.leadingInt (String c s) 0 = Some (v, r) -> (String.length r <= String.length s)%nat.
Proof.
  intros c s v r Hd H. cbn [time.leadingInt] in H. rewrite Hd in H.
  destruct (2 ^ 63 / 10 <? 0); [discriminate|].
  destruct (2 ^ 63 <? 0 * 10 + time.code c - 48); [discriminate|].
  eapply leadingInt_suffix; eauto.
Qed.

Lemma leadingFraction_suffix : forall s x scale o,
  (String.length (snd (time.leadingFraction s x scale o)) <= String.length s)%nat.
Proof.
  induction s as [|c s IH]; intros x scale o; cbn [time.leadingFraction]; [auto|].
  destruct (time.isDigit c); [|auto].
  destruct o; [|destruct (_ <? x); [|destruct (2 ^ 63 <? _)]];
    match goal with |- context [time.leadingFraction s ?a ?b ?c] =>
      specialize (IH a b c) end; simpl; lia.
Qed.

Lemma unitSpan_length : forall s,
  (String.length (fst (time.unitSpan s)) + String.length (snd (time.unitSpan s))
   = String.length s)%nat.
Proof.
  induction s as [|c s IH]; cbn [time.unitSpan]; [reflexivity|].
  destruct (time.isDot c || time.isDigit c); [reflexivity|].
  destruct (time.unitSpan s) as [u r]. simpl in *. lia.
Qed.

Lemma segments_step : forall h fuel orig c s0 d,
  time.segments h (S fuel) orig (String c s0) d = None ->
  exists s3 d',
    (String.length s3 <= String.length s0)%nat /\ time.segments h fuel orig s3 d' = None.
Proof.
  intros h fuel orig c s0 d H. cbn [time.segments] in H.
  destruct (negb (time.isDot c || time.isDigit c)) eqn:Hc; [discriminate|].
  destruct (time.leadingInt (String c s0) 0) as [[v s1]|] eqn:Hli; [|discriminate].
  match type of H with
  | context [match ?M with (_, _) => _ end] =>
      match M with
      | match s1 with EmptyString => _ | String _ _ => _ end =>
          destruct M as [[[f scale] s2] post] eqn:HM
      end
  end.
  assert (Hs2 : (String.length s2 <= String.length s0)%nat).
  { destruct (time.isDigit c) eqn:Hd.
    - pose proof (leadingInt_digit c s0 v s1 Hd Hli) as Hl.
      destruct s1 as [|c1 s1']; [inversion HM; subst; exact Hl|].
      destruct (time.isDot c1); [|inversion HM; subst; exact Hl].
      pose proof (leadingFraction_suffix s1' 0 1 false) as Hf.
      destruct (time.leadingFraction s1' 0 1 false) as [[f' scale'] s2'].
      inversion HM; subst. simpl in *. lia.
    - cbn [time.leadingInt] in Hli. rewrite Hd in Hli. inversion Hli; subst.
      rewrite orb_false_r in Hc. apply negb_false_iff in Hc. rewrite Hc in HM.
      pose proof (leadingFraction_suffix s0 0 1 false) as Hf.
      destruct (time.leadingFraction s0 0 1 false) as [[f' scale'] s2'].
      inversion HM; subst. exact Hf. }
  destruct (_ && negb post); [discriminate|].
  pose proof (unitSpan_length s2) as Hu.
  destruct (time.unitSpan s2) as [u s3]. cbn [fst snd] in Hu.
  destruct (String.eqb u ""); [discriminate|].
  destruct (time.unitMap u) as [unit|]; [|discriminate].
  destruct (2 ^ 63 / unit <? v); [discriminate|].
  destruct (_ && _) in H; [discriminate|].
  destruct (2 ^ 63 <? _) in H; [discriminate|].
  eexists s3, _. split; [lia|exact H].
Qed.

Lemma segments_fuel : forall h fuel orig s d,
  (String.length s <= fuel)%nat -> time.segments h fuel orig s d <> None.
Proof.
  intros h fuel. induction fuel as [|fuel IH]; intros orig s d Hlen.
  - destruct s; [discriminate|simpl in Hlen; lia].
  - destruct s as [|c s0]; [discriminate|].
    intros H. apply segments_step in H. destruct H as (s3 & d' & Hs3 & H).
    revert H. apply IH. simpl in Hlen. lia.
Qed.

(** [time.ParseDuration] never runs out of turns: its result is that of
    the loop, run with as many turns as the string has bytes. *)
Lemma ParseDuration_total : forall h orig s d,
  exists r, time.segments h (String.length s) orig s d = Some r.
Proof.
  intros h orig s d. destruct (time.segments h (String.length s) orig s d) eqn:H; [eauto|].
  exfalso. revert H. apply segments_fuel. lia.
Qed.

(** C8.  A field of kind [Int64] whose type prints as [time.Duration] is
    converted by [time.ParseDuration]: the value 1h30m gives ninety
    minutes, the value garbage gives the error of the parser and the
    field is not written.  Every other field of kind [Int64] is converted
    by [strconv.ParseInt] in base 10 with 64 bits, for which 1h30m is a
    syntax error. *)
Theorem int64_field_conversion : forall (h : Host) (refType : StructField) (i : Z)
    (value : string),
  (reflect.Type_String (reflect.Typ refType) = "time.Duration" ->
   set h (VInt64 i) refType value
   = match time.ParseDuration h value with
     | inl dValue => inl (VInt64 dValue)
     | inr err => inr err
     end
   /\ set h (VInt64 i) refType "1h30m" = inl (VInt64 (90 * time.Minute))
   /\ set h (VInt64 i) refType "garbage"
      = inr (errors_New ("time: invalid duration " ++ time_quote h "garbage")))
  /\ (reflect.Type_String (reflect.Typ refType) <> "time.Duration" ->
      set h (VInt64 i) refType value
      = match strconv.ParseInt value 10 64 with
        | (_, Some err) => inr err
        | (intValue, None) => inl (VInt64 intValue)
        end
      /\ set h (VInt64 i) refType "-5400" = inl (VInt64 (-5400))
      /\ set h (VInt64 i) refType "1h30m" = inr (strconv.syntaxError "ParseInt" "1h30m")).
Proof.
  intros h refType i value. split.
  - intros Hd. cbn [set]. rewrite Hd. cbn [String.eqb Ascii.eqb Bool.eqb].
    refine (conj eq_refl (conj _ _)); reflexivity.
  - intros Hd. cbn [set]. apply String.eqb_neq in Hd. rewrite Hd.
    refine (conj eq_refl (conj _ _)); reflexivity.
Qed.

Lemma int64_field_conversion_witness :
  set plainHost (VInt64 0) (field "Duration" true tDuration [("env", "DURATION")]) "1h30m"
  = inl (VInt64 5400000000000)
  /\ set plainHost (VInt64 0) (field "Duration" true tDuration [("env", "DURATION")]) "garbage"
     = inr (errors_New "time: invalid duration garbage")
  /\ set plainHost (VInt64 0) (field "Count" true (T "int64" reflect.Int64) [("env", "COUNT")])
       "1h30m"
     = inr (strconv.syntaxError "ParseInt" "1h30m").
Proof.
  destruct (int64_field_conversion plainHost
              (field "Duration" true tDuration [("env", "DURATION")]) 0 "")
    as [Hduration _].
  destruct (int64_field_conversion plainHost
              (field "Count" true (T "int64" reflect.Int64) [("env", "COUNT")]) 0 "")
    as [_ Hplain].
  destruct (Hduration eq_refl) as (_ & H90 & Hbad).
  destruct Hplain as (_ & _ & Hsyntax); [discriminate|].
  refine (conj H90 (conj Hbad Hsyntax)).
Defined.

(** Bound through [Parse]: the record of the example program, with its
    [Duration] field. *)
Example Parse_duration_field :
  Parse plainHost [("DURATION", "1h30m")]
    (Some (VPtr (Some (VStruct
       [(field "Duration" true tDuration [("env", "DURATION")], VInt64 0)]))))
  = (Some (VPtr (Some (VStruct
       [(field "Duration" true tDuration [("env", "DURATION")], VInt64 (90 * time.Minute))]))),
     [[0%nat]], None)
  /\ Parse plainHost [("DURATION", "garbage")]
       (Some (VPtr (Some (VStruct
          [(field "Duration" true tDuration [("env", "DURATION")], VInt64 0)]))))
     = (Some (VPtr (Some (VStruct
          [(field "Duration" true tDuration [("env", "DURATION")], VInt64 0)]))),
        [], Some (errors_New "time: invalid duration garbage")).
Proof. split; reflexivity. Qed.

(** * Further properties *)

(** ** The Resolver, continued *)

Lemma hasByte_append : forall c a b,
  hasByte c (a ++ b)%string = hasByte c a || hasByte c b.
Proof.
  induction a as [|x a IH]; intros b; simpl; [reflexivity|].
  now rewrite IH, orb_assoc.
Qed.

Lemma prefix_comma : forall c s,
  prefix "," (String c s) = if ascii_dec "," c then true else false.
Proof.
  intros c s. cbn [prefix]. destruct (ascii_dec "," c); [destruct s|]; reflexivity.
Qed.

Lemma genSplit_comma_free : forall s cur,
  hasByte comma cur = false ->
  Forall (fun piece => hasByte comma piece = false) (strings.genSplit "," 0 cur s).
Proof.
  induction s as [|c s IH]; intros cur Hcur; cbn [strings.genSplit].
  - constructor; [assumption|constructor].
  - rewrite prefix_comma. destruct (ascii_dec "," c) as [<-|Hne].
    + cbn [String.length Nat.pred]. constructor; [assumption|]. apply IH. reflexivity.
    + apply IH. rewrite hasByte_append, Hcur. cbn [hasByte orb].
      rewrite orb_false_r. apply Ascii.eqb_neq. intros Heq. apply Hne.
      rewrite Heq. reflexivity.
Qed.

(** X1.  [parseKeyForOption] cuts the tag at every comma: neither the key
    nor any option holds a comma, and the key and the options joined by
    commas give the tag back. *)
Theorem parseKeyForOption_round_trip : forall tag : string,
  strings.Join (fst (parseKeyForOption tag) :: snd (parseKeyForOption tag)) "," = tag
  /\ hasByte comma (fst (parseKeyForOption tag)) = false
  /\ Forall (fun opt => hasByte comma opt = false) (snd (parseKeyForOption tag)).
Proof.
  intros tag.
  pose proof (parseKeyForOption_split tag) as Hs.
  assert (Hfree : Forall (fun piece => hasByte comma piece = false)
                    (fst (parseKeyForOption tag) :: snd (parseKeyForOption tag))).
  { rewrite <- Hs. unfold strings.Split. apply genSplit_comma_free. reflexivity. }
  inversion Hfree as [|? ? Hkey Hopts]; subst.
  refine (conj _ (conj Hkey Hopts)).
  rewrite <- Hs. apply Join_Split. discriminate.
Qed.

Lemma hasByte_false_no_prefix : forall s cur,
  hasByte comma s = false -> strings.genSplit "," 0 cur s = [(cur ++ s)%string].
Proof.
  induction s as [|c s IH]; intros cur H; cbn [strings.genSplit].
  - now rewrite append_empty_r.
  - cbn [hasByte] in H. apply orb_false_elim in H. destruct H as [Hc Hs].
    rewrite prefix_comma. destruct (ascii_dec "," c) as [<-|Hne]; [discriminate|].
    rewrite IH by assumption. rewrite append_assoc. reflexivity.
Qed.

(** A tag without a comma is a key without options. *)
Lemma parseKeyForOption_plain : forall tag,
  hasByte comma tag = false -> parseKeyForOption tag = (tag, []).
Proof.
  intros tag H. unfold parseKeyForOption, strings.Split.
  now rewrite hasByte_false_no_prefix.
Qed.

Lemma fold_getOpt_set : forall e key value opts st,
  os.LookupEnv e key = Some value ->
  Forall (fun opt => opt = "" \/ opt = "required") opts ->
  fst st = value -> snd st = None ->
  fold_left (getOpt e key) opts st = (value, None).
Proof.
  intros e key value opts. induction opts as [|opt opts IH]; intros st Hset Hopts Hv Herr.
  - destruct st; simpl in *; congruence.
  - inversion Hopts as [|? ? Ho Hrest]; subst. cbn [fold_left].
    destruct Ho as [->| ->].
    + rewrite getOpt_empty. auto.
    + rewrite getOpt_required. apply IH; auto; unfold getRequired; now rewrite Hset.
Qed.

(** X2.  How a field resolves when its options are only empty tokens and
    [required].  When the variable is set, the resolved value is the value
    of the variable (the empty string included) and there is no error,
    whatever the default is.  When the variable is not set and no option
    is [required] (in particular when the tag holds no comma), the resolved
    value is the declared default and there is no error. *)
Theorem get_resolves : forall (e : os.Environ) (f : StructField),
  Forall (fun opt => opt = "" \/ opt = "required") (optionsOf f) ->
  (forall value, os.LookupEnv e (keyOf f) = Some value -> get e f = (value, None))
  /\ (os.LookupEnv e (keyOf f) = None ->
      Forall (eq "") (optionsOf f) ->
      get e f = (defaultOf f, None))
  /\ (hasByte comma (reflect.Tag_Get (reflect.Tag f) "env") = false ->
      keyOf f = reflect.Tag_Get (reflect.Tag f) "env" /\ optionsOf f = []).
Proof.
  intros e f Hopts. refine (conj _ (conj _ _)).
  - intros value Hset. rewrite get_fold.
    apply fold_getOpt_set; auto. unfold getOr. now rewrite Hset.
  - intros Hunset Hempty. rewrite get_fold, fold_getOpt_empties by assumption.
    unfold getOr. now rewrite Hunset.
  - intros Hplain. unfold keyOf, optionsOf.
    rewrite parseKeyForOption_plain by assumption. auto.
Qed.

Lemma get_resolves_witness :
  get [("A", "")] (fst requiredWithDefault) = ("", None)
  /\ get homeEnviron (fst home) = ("/root", None)
  /\ get [] (field "Port" true tInt [("env", "PORT"); ("envDefault", "3000")])
     = ("3000", None).
Proof.
  refine (conj _ (conj _ _)).
  - destruct (get_resolves [("A", "")] (fst requiredWithDefault)) as (Hset & _).
    + change (optionsOf (fst requiredWithDefault)) with ["required"].
      constructor; [right; reflexivity|constructor].
    + apply Hset. reflexivity.
  - destruct (get_resolves homeEnviron (fst home)) as (Hset & _).
    + change (optionsOf (fst home)) with (@nil string). constructor.
    + apply Hset. reflexivity.
  - destruct (get_resolves [] (field "Port" true tInt [("env", "PORT"); ("envDefault", "3000")]))
      as (_ & Hunset & _).
    + change (Forall (fun opt => opt = "" \/ opt = "required") (@nil string)). constructor.
    + apply Hunset; [reflexivity|].
      change (Forall (eq "") (@nil string)). constructor.
Defined.

(** ** Integer fields *)

Lemma uintLoop_bounds : forall base cutoff maxVal s n0 n,
  0 <= n0 <= maxVal ->
  strconv.uintLoop base cutoff maxVal s n0 = inl n ->
  0 <= n <= maxVal.
Proof.
  intros base cutoff maxVal. induction s as [|c s IH]; intros n0 n Hn0 H;
    cbn [strconv.uintLoop] in H.
  - inversion H; subst. assumption.
  - destruct (strconv.digit c) as [d|]; [|discriminate].
    destruct (base <=? d); [discriminate|].
    destruct (cutoff <=? n0); [discriminate|].
    destruct (_ || _) eqn:Hover in H; [discriminate|].
    apply orb_false_elim in Hover. destruct Hover as [_ Hmax].
    apply Z.ltb_ge in Hmax.
    apply IH in H; [assumption|].
    split; [|assumption]. apply Z.mod_pos_bound. lia.
Qed.

Lemma ParseUint_value : forall s base bitSize,
  0 <= bitSize ->
  0 <= fst (strconv.ParseUint s base bitSize) <= 2 ^ bitSize - 1.
Proof.
  intros s base bitSize Hbits.
  assert (Hmax : 0 <= 2 ^ bitSize - 1) by (pose proof (Z.pow_pos_nonneg 2 bitSize); lia).
  unfold strconv.ParseUint. destruct s as [|c s]; [simpl; lia|].
  destruct (strconv.uintLoop _ _ _ _ 0) as [n|[|]] eqn:Hloop; cbn [fst]; try lia.
  eapply uintLoop_bounds; [|exact Hloop]. lia.
Qed.

Lemma syntax_error_match : forall (A : Type) (x y : A) (err : option error),
  match err with
  | Some (NumError _ _ (errors_New "invalid syntax")) => x
  | _ => y
  end = x
  \/ match err with
     | Some (NumError _ _ (errors_New "invalid syntax")) => x
     | _ => y
     end = y.
Proof.
  intros A x y err.
  repeat match goal with
         | |- context [match ?v with _ => _ end] =>
             is_var v; destruct v; try (right; reflexivity); try (left; reflexivity)
         end.
Qed.

Lemma ParseInt_range : forall s base bitSize n,
  0 < bitSize ->
  strconv.ParseInt s base bitSize = (n, None) ->
  inInt bitSize n.
Proof.
  intros s base bitSize n Hbits H. unfold strconv.ParseInt in H.
  destruct s as [|c rest]; [discriminate|].
  set (signed := if Ascii.eqb c "+" then (false, rest)
                 else if Ascii.eqb c "-" then (true, rest)
                 else (false, String c rest)) in H.
  destruct signed as [neg s'].
  pose proof (ParseUint_value s' base bitSize ltac:(lia)) as Hun.
  destruct (strconv.ParseUint s' base bitSize) as [un err]. cbn [fst] in Hun.
  destruct (syntax_error_match _
              (0, Some (strconv.syntaxError "ParseInt" (String c rest)))
              (let cutoff := 2 ^ (bitSize - 1) in
               if negb neg && (cutoff <=? un)
               then (cutoff - 1, Some (strconv.rangeError "ParseInt" (String c rest)))
               else if neg && (cutoff <? un)
                    then (- cutoff, Some (strconv.rangeError "ParseInt" (String c rest)))
                    else (if neg then - un else un, None))
              err) as [Hm|Hm];
    pose proof (eq_trans (eq_sym Hm) H) as H'; clear H Hm; rename H' into H.
  - discriminate.
  - cbv zeta in H. unfold inInt.
    destruct (negb neg && (2 ^ (bitSize - 1) <=? un)) eqn:H1; [discriminate|].
    destruct (neg && (2 ^ (bitSize - 1) <? un)) eqn:H2; [discriminate|].
    inversion H; subst. clear H.
    assert (Hpow : 0 < 2 ^ (bitSize - 1)) by (apply Z.pow_pos_nonneg; lia).
    destruct neg; cbn [negb andb] in H1, H2.
    + apply Z.ltb_ge in H2. lia.
    + apply Z.leb_gt in H1. lia.
Qed.

Lemma parseEach_Forall : forall (A : Type) (Q : A -> Prop) (parse : string -> A + error),
  (forall piece x, parse piece = inl x -> Q x) ->
  forall data acc l,
    Forall Q acc -> parseEach parse data acc = inl l -> Forall Q l.
Proof.
  intros A Q parse Hparse. induction data as [|piece data IH]; intros acc l Hacc H;
    cbn [parseEach] in H.
  - inversion H; subst. assumption.
  - destruct (parse piece) as [x|err] eqn:Hp; [|discriminate].
    apply (IH (acc ++ [x]) l); [|assumption].
    apply Forall_app. split; [assumption|]. constructor; [|constructor]. eauto.
Qed.

Lemma segments_bounds : forall h fuel orig s d0 d,
  0 <= d0 <= 2 ^ 63 ->
  time.segments h fuel orig s d0 = Some (inl d) ->
  0 <= d <= 2 ^ 63.
Proof.
  intros h fuel. induction fuel as [|fuel IH]; intros orig s d0 d Hd0 H.
  - destruct s; cbn [time.segments] in H; [|discriminate]. inversion H; subst. assumption.
  - destruct s as [|c s0]; cbn [time.segments] in H; [inversion H; subst; assumption|].
    destruct (negb (time.isDot c || time.isDigit c)); [discriminate|].
    destruct (time.leadingInt (String c s0) 0) as [[v s1]|]; [|discriminate].
    match type of H with
    | context [match ?M with (_, _) => _ end] =>
        match M with
        | match s1 with EmptyString => _ | String _ _ => _ end =>
            destruct M as [[[f scale] s2] post]
        end
    end.
    destruct (_ && negb post); [discriminate|].
    destruct (time.unitSpan s2) as [u s3].
    destruct (String.eqb u ""); [discriminate|].
    destruct (time.unitMap u) as [unit|]; [|discriminate].
    destruct (2 ^ 63 / unit <? v); [discriminate|].
    destruct (_ && _) in H; [discriminate|].
    destruct (2 ^ 63 <? _) eqn:Hover in H; [discriminate|].
    apply Z.ltb_ge in Hover.
    apply IH in H; [assumption|].
    split; [|assumption]. apply Z.mod_pos_bound. lia.
Qed.

Lemma ParseDuration_range : forall h s d,
  time.ParseDuration h s = inl d -> inInt 64 d.
Proof.
  intros h s d H. unfold time.ParseDuration in H. unfold inInt.
  change (2 ^ (64 - 1)) with (2 ^ 63).
  match type of H with
  | context [let '(_, _) := ?M in _] => destruct M as [neg s']
  end.
  destruct (String.eqb s' "0"); [inversion H; subst; lia|].
  destruct (String.eqb s' ""); [discriminate|].
  destruct (time.segments h (String.length s') s s' 0) as [[d'|err]|] eqn:Hseg;
    try discriminate.
  apply segments_bounds in Hseg; [|lia].
  destruct neg.
  - inversion H; subst. lia.
  - destruct (2 ^ 63 - 1 <? d') eqn:Hmax; [discriminate|].
    apply Z.ltb_ge in Hmax. inversion H; subst. lia.
Qed.


Lemma decimal_digit : forall c,
  isDecimalDigit c = true ->
  strconv.digit c = Some (Z.of_nat (nat_of_ascii c) - 48)
  /\ 0 <= Z.of_nat (nat_of_ascii c) - 48 <= 9.
Proof.
  intros c H. unfold isDecimalDigit in H. unfold strconv.digit. cbv zeta.
  rewrite H. apply andb_prop in H. destruct H as [H1 H2].
  apply Z.leb_le in H1, H2. split; [reflexivity|lia].
Qed.

Lemma digitsValue_grows : forall s acc total,
  0 <= acc -> digitsValue s acc = Some total -> acc <= total.
Proof.
  induction s as [|c s IH]; intros acc total Hacc H; cbn [digitsValue] in H.
  - inversion H; subst. lia.
  - destruct (isDecimalDigit c) eqn:Hd; [|discriminate].
    destruct (decimal_digit c Hd) as [_ Hr].
    apply IH in H; lia.
Qed.

(** The digit loop of [ParseUint] on a decimal numeral: the number the
    numeral denotes when it is no more than [maxVal], the range error
    otherwise. *)
Lemma uintLoop_decimal : forall maxVal s n0 total,
  0 <= n0 <= maxVal ->
  maxVal <= strconv.maxUint64 ->
  digitsValue s n0 = Some total ->
  strconv.uintLoop 10 (strconv.maxUint64 / 10 + 1) maxVal s n0
  = if total <=? maxVal then inl total else inr true.
Proof.
  intros maxVal.
  assert (Hmax64 : strconv.maxUint64 = 18446744073709551615) by reflexivity.
  assert (Hcut : strconv.maxUint64 / 10 + 1 = 1844674407370955162) by reflexivity.
  assert (Hpow : 2 ^ 64 = 18446744073709551616) by reflexivity.
  induction s as [|c s IH]; intros n0 total Hn0 Hmax H; cbn [digitsValue] in H.
  - inversion H; subst. cbn [strconv.uintLoop].
    destruct (Z.leb_spec total maxVal); [reflexivity|lia].
  - destruct (isDecimalDigit c) eqn:Hd; [|discriminate].
    destruct (decimal_digit c Hd) as [Hdigit Hr].
    set (d := Z.of_nat (nat_of_ascii c) - 48) in *.
    assert (Hgrow : n0 * 10 + d <= total) by (eapply digitsValue_grows; [lia|exact H]).
    cbn [strconv.uintLoop]. rewrite Hdigit.
    destruct (Z.leb_spec 10 d); [lia|].
    rewrite Hmax64 in Hmax.
    destruct (Z.leb_spec (strconv.maxUint64 / 10 + 1) n0) as [Hc|Hc]; rewrite Hcut in Hc.
    + destruct (Z.leb_spec total maxVal); [lia|reflexivity].
    + cbv zeta.
      destruct (Z_lt_le_dec (n0 * 10 + d) (2 ^ 64)) as [Hfit|Hwrap].
      * rewrite (Z.mod_small (n0 * 10 + d)) by lia.
        destruct (Z.ltb_spec (n0 * 10 + d) (n0 * 10)); [lia|]. cbn [orb].
        destruct (Z.ltb_spec maxVal (n0 * 10 + d)).
        -- destruct (Z.leb_spec total maxVal); [lia|reflexivity].
        -- apply IH; [lia|lia|exact H].
      * assert (Hm : (n0 * 10 + d) mod 2 ^ 64 = n0 * 10 + d - 2 ^ 64).
        { symmetry. apply Z.mod_unique with (q := 1); lia. }
        rewrite Hm.
        destruct (Z.ltb_spec (n0 * 10 + d - 2 ^ 64) (n0 * 10)); [|lia].
        cbn [orb]. destruct (Z.leb_spec total maxVal); [lia|reflexivity].
Qed.

Lemma pow_bits : forall bitSize,
  2 <= bitSize <= 64 ->
  2 ^ bitSize = 2 * 2 ^ (bitSize - 1)
  /\ 2 <= 2 ^ (bitSize - 1)
  /\ 2 ^ bitSize - 1 <= strconv.maxUint64.
Proof.
  intros bitSize H.
  assert (H1 : 2 ^ bitSize = 2 * 2 ^ (bitSize - 1)).
  { replace bitSize with (Z.succ (bitSize - 1)) at 1 by lia.
    rewrite Z.pow_succ_r by lia. reflexivity. }
  assert (H2 : 2 ^ 1 <= 2 ^ (bitSize - 1)) by (apply Z.pow_le_mono_r; lia).
  assert (H3 : 2 ^ bitSize <= 2 ^ 64) by (apply Z.pow_le_mono_r; lia).
  change (2 ^ 1) with 2 in H2. unfold strconv.maxUint64. lia.
Qed.

Lemma ParseUint_decimal : forall s bitSize n,
  2 <= bitSize <= 64 ->
  unsignedDecimal s = Some n ->
  strconv.ParseUint s 10 bitSize
  = if n <=? 2 ^ bitSize - 1 then (n, None)
    else (2 ^ bitSize - 1, Some (strconv.rangeError "ParseUint" s)).
Proof.
  intros s bitSize n Hbits H.
  destruct (pow_bits bitSize Hbits) as (Hp1 & Hp2 & Hp3).
  destruct s as [|c s]; [discriminate|]. unfold unsignedDecimal in H.
  unfold strconv.ParseUint.
  rewrite (uintLoop_decimal (2 ^ bitSize - 1) (String c s) 0 n) by (lia || assumption).
  destruct (n <=? 2 ^ bitSize - 1); reflexivity.
Qed.

Lemma unsignedDecimal_nonneg : forall s n, unsignedDecimal s = Some n -> 0 <= n.
Proof.
  intros s n H. destruct s; [discriminate|]. unfold unsignedDecimal in H.
  eapply digitsValue_grows in H; lia.
Qed.

(** [ParseInt] on a numeral with an optional sign: the number it denotes
    when that is in the range of the bit size, the range error otherwise. *)
Lemma ParseInt_decimal : forall s bitSize n,
  2 <= bitSize <= 64 ->
  signedDecimal s = Some n ->
  (inInt bitSize n -> strconv.ParseInt s 10 bitSize = (n, None))
  /\ (~ inInt bitSize n ->
      snd (strconv.ParseInt s 10 bitSize) = Some (strconv.rangeError "ParseInt" s)).
Proof.
  intros s bitSize n Hbits H.
  destruct (pow_bits bitSize Hbits) as (Hp1 & Hp2 & Hp3).
  destruct s as [|c rest]; [discriminate|].
  unfold signedDecimal in H. unfold strconv.ParseInt, inInt.
  set (s0 := String c rest) in *.
  assert (Hcore : forall (neg : bool) s' u,
            unsignedDecimal s' = Some u ->
            n = (if neg then - u else u) ->
            let r :=
              let '(un, err) := strconv.ParseUint s' 10 bitSize in
              match err with
              | Some (NumError _ _ (errors_New "invalid syntax")) =>
                  (0, Some (strconv.syntaxError "ParseInt" s0))
              | _ =>
                  let cutoff := 2 ^ (bitSize - 1) in
                  if negb neg && (cutoff <=? un)
                  then (cutoff - 1, Some (strconv.rangeError "ParseInt" s0))
                  else if neg && (cutoff <? un)
                       then (- cutoff, Some (strconv.rangeError "ParseInt" s0))
                       else (if neg then - un else un, None)
              end in
            (- 2 ^ (bitSize - 1) <= n < 2 ^ (bitSize - 1) -> r = (n, None))
            /\ (~ - 2 ^ (bitSize - 1) <= n < 2 ^ (bitSize - 1) ->
                snd r = Some (strconv.rangeError "ParseInt" s0))).
  { intros neg s' u Hu Hn.
    pose proof (unsignedDecimal_nonneg s' u Hu) as Hu0.
    rewrite (ParseUint_decimal s' bitSize u Hbits Hu). cbv zeta.
    destruct (Z.leb_spec u (2 ^ bitSize - 1)) as [Hfit|Hbig].
    - destruct neg; cbn [negb andb].
      + destruct (Z.ltb_spec (2 ^ (bitSize - 1)) u); cbn [snd];
          split; intros Hr; try lia; try reflexivity. subst n. reflexivity.
      + destruct (Z.leb_spec (2 ^ (bitSize - 1)) u); cbn [snd];
          split; intros Hr; try lia; try reflexivity. subst n. reflexivity.
    - change (match Some (strconv.rangeError "ParseUint" s') with
              | Some (NumError _ _ (errors_New "invalid syntax")) => ?x
              | _ => ?y
              end) with y.
      destruct neg; cbn [negb andb].
      + destruct (Z.ltb_spec (2 ^ (bitSize - 1)) (2 ^ bitSize - 1)); [|lia].
        cbn [snd]. split; intros Hr; [lia|reflexivity].
      + destruct (Z.leb_spec (2 ^ (bitSize - 1)) (2 ^ bitSize - 1)); [|lia].
        cbn [snd]. split; intros Hr; [lia|reflexivity]. }
  destruct (Ascii.eqb c "+") eqn:Hplus.
  - apply (Hcore false rest n H). reflexivity.
  - destruct (Ascii.eqb c "-") eqn:Hminus.
    + destruct (unsignedDecimal rest) as [u|] eqn:Hu; [|discriminate].
      cbn [option_map] in H. inversion H; subst n.
      apply (Hcore true rest u Hu). reflexivity.
    + apply (Hcore false s0 n H). reflexivity.
Qed.

Lemma parseEach_some_error : forall (A : Type) (parse : string -> A + error) data piece err acc,
  In piece data -> parse piece = inr err ->
  exists err', parseEach parse data acc = inr err'.
Proof.
  intros A parse. induction data as [|q data IH]; intros piece err acc Hin Hp; [contradiction|].
  cbn [parseEach]. destruct (parse q) as [x|e0] eqn:Hq; [|eauto].
  destruct Hin as [->|Hin]; [congruence|]. eapply IH; eauto.
Qed.

(** X3.  The integers a conversion stores are in the range of the size the
    package parses them with: 32 bits for a field of kind [Int] or [Uint]
    and for the elements of an [[]int] (although a Go [int] may hold 64),
    64 bits for a field of kind [Int64], a duration included, and for the
    elements of an [[]int64].  And a number outside the range is an error:
    when the value is a decimal numeral (with an optional sign for [Int]
    and [Int64], without a sign for [Uint]), a field of kind [Int], [Uint]
    or [Int64] (no duration) is set to the number the numeral denotes if
    the number is in the range, and otherwise the conversion returns the
    range error of [strconv] and nothing is stored; an [[]int] or
    [[]int64] field fails when one of its pieces is a numeral out of the
    range. *)
Theorem set_integer_ranges : forall (h : Host) (f : StructField) (value : string)
    (v' : Value),
  (forall i, set h (VInt i) f value = inl v' -> exists n, v' = VInt n /\ inInt 32 n)
  /\ (forall u, set h (VUint u) f value = inl v' -> exists n, v' = VUint n /\ inUint 32 n)
  /\ (forall i, set h (VInt64 i) f value = inl v' -> exists n, v' = VInt64 n /\ inInt 64 n)
  /\ (forall d, set h (VSlice sliceOfInts d) f value = inl v' ->
        exists l, v' = VSlice sliceOfInts (Ints l) /\ Forall (inInt 32) l)
  /\ (forall d, set h (VSlice sliceOfInt64s d) f value = inl v' ->
        exists l, v' = VSlice sliceOfInt64s (Int64s l) /\ Forall (inInt 64) l)
  /\ (forall i n,
        signedDecimal value = Some n ->
        (inInt 32 n -> set h (VInt i) f value = inl (VInt n))
        /\ (~ inInt 32 n ->
            set h (VInt i) f value = inr (strconv.rangeError "ParseInt" value)))
  /\ (forall u n,
        unsignedDecimal value = Some n ->
        (inUint 32 n -> set h (VUint u) f value = inl (VUint n))
        /\ (~ inUint 32 n ->
            set h (VUint u) f value = inr (strconv.rangeError "ParseUint" value)))
  /\ (forall i n,
        reflect.Type_String (reflect.Typ f) <> "time.Duration" ->
        signedDecimal value = Some n ->
        (inInt 64 n -> set h (VInt64 i) f value = inl (VInt64 n))
        /\ (~ inInt 64 n ->
            set h (VInt64 i) f value = inr (strconv.rangeError "ParseInt" value)))
  /\ (forall d piece n,
        In piece (strings.Split value (separatorOf f)) ->
        signedDecimal piece = Some n -> ~ inInt 32 n ->
        exists err, set h (VSlice sliceOfInts d) f value = inr err)
  /\ (forall d piece n,
        In piece (strings.Split value (separatorOf f)) ->
        signedDecimal piece = Some n -> ~ inInt 64 n ->
        exists err, set h (VSlice sliceOfInt64s d) f value = inr err).
Proof.
  intros h f value v'.
  assert (Hchecked : forall bits piece x, 0 < bits ->
            checked (strconv.ParseInt piece 10 bits) = inl x -> inInt bits x).
  { intros bits piece x Hbits H.
    destruct (strconv.ParseInt piece 10 bits) as [n [err|]] eqn:Hp; [discriminate|].
    inversion H; subst. eapply ParseInt_range; eauto. }
  assert (Hdecimal : forall bits piece n, 2 <= bits <= 64 ->
            signedDecimal piece = Some n ->
            (inInt bits n -> strconv.ParseInt piece 10 bits = (n, None))
            /\ (~ inInt bits n ->
                exists x, strconv.ParseInt piece 10 bits
                          = (x, Some (strconv.rangeError "ParseInt" piece)))).
  { intros bits piece n Hbits Hn.
    destruct (ParseInt_decimal piece bits n Hbits Hn) as [Hin Hout].
    split; [exact Hin|]. intros Hr. specialize (Hout Hr).
    destruct (strconv.ParseInt piece 10 bits) as [x err]. cbn [snd] in Hout.
    subst err. eauto. }
  refine (conj _ (conj _ (conj _ (conj _ (conj _ (conj _ (conj _ (conj _ (conj _ _))))))))).
  - intros i H. cbn [set] in H.
    destruct (strconv.ParseInt value 10 32) as [n [err|]] eqn:Hp; [discriminate|].
    inversion H; subst. exists n. split; [reflexivity|].
    eapply ParseInt_range; [|exact Hp]. lia.
  - intros u H. cbn [set] in H.
    pose proof (ParseUint_value value 10 32 ltac:(lia)) as Hu.
    destruct (strconv.ParseUint value 10 32) as [n [err|]]; [discriminate|].
    inversion H; subst. exists n. split; [reflexivity|].
    cbn [fst] in Hu. unfold inUint. lia.
  - intros i H. cbn [set] in H.
    destruct (String.eqb _ "time.Duration").
    + destruct (time.ParseDuration h value) as [d|err] eqn:Hp; [|discriminate].
      inversion H; subst. exists d. split; [reflexivity|].
      eapply ParseDuration_range; eauto.
    + destruct (strconv.ParseInt value 10 64) as [n [err|]] eqn:Hp; [discriminate|].
      inversion H; subst. exists n. split; [reflexivity|].
      eapply ParseInt_range; [|exact Hp]. lia.
  - intros d H. cbn in H. unfold parseInts in H.
    destruct (parseEach _ _ []) as [l|err] eqn:Hp; [|discriminate].
    inversion H; subst. exists l. split; [reflexivity|].
    eapply (parseEach_Forall Z (inInt 32)); [|constructor|exact Hp].
    intros piece x Hx. apply (Hchecked 32 piece x); [lia|exact Hx].
  - intros d H. cbn in H. unfold parseInt64s in H.
    destruct (parseEach _ _ []) as [l|err] eqn:Hp; [|discriminate].
    inversion H; subst. exists l. split; [reflexivity|].
    eapply (parseEach_Forall Z (inInt 64)); [|constructor|exact Hp].
    intros piece x Hx. apply (Hchecked 64 piece x); [lia|exact Hx].
  - intros i n Hn. destruct (Hdecimal 32 value n ltac:(lia) Hn) as [Hin Hout].
    cbn [set]. split; intros Hr.
    + now rewrite (Hin Hr).
    + destruct (Hout Hr) as [x ->]. reflexivity.
  - intros u n Hn. cbn [set].
    pose proof (unsignedDecimal_nonneg value n Hn) as Hn0.
    rewrite (ParseUint_decimal value 32 n ltac:(lia) Hn). unfold inUint.
    destruct (Z.leb_spec n (2 ^ 32 - 1)); split; intros Hr; try lia; reflexivity.
  - intros i n Hd Hn. destruct (Hdecimal 64 value n ltac:(lia) Hn) as [Hin Hout].
    cbn [set]. apply String.eqb_neq in Hd. rewrite Hd. split; intros Hr.
    + now rewrite (Hin Hr).
    + destruct (Hout Hr) as [x ->]. reflexivity.
  - intros d piece n Hin Hn Hr. cbn [set]. unfold handleSlice. fold (separatorOf f).
    cbn [reflect.rtype_eqb sliceOfInts sliceOfStrings String.eqb Ascii.eqb Bool.eqb
         reflect.Kind_eqb andb]. cbn.
    destruct (Hdecimal 32 piece n ltac:(lia) Hn) as [_ Hout]. destruct (Hout Hr) as [x Hx].
    destruct (parseEach_some_error Z (fun v => checked (strconv.ParseInt v 10 32))
                (strings.Split value (separatorOf f)) piece
                (strconv.rangeError "ParseInt" piece) [] Hin) as [err' Herr'].
    { now rewrite Hx. }
    unfold parseInts. rewrite Herr'. eauto.
  - intros d piece n Hin Hn Hr. cbn [set]. unfold handleSlice. fold (separatorOf f). cbn.
    destruct (Hdecimal 64 piece n ltac:(lia) Hn) as [_ Hout]. destruct (Hout Hr) as [x Hx].
    destruct (parseEach_some_error Z (fun v => checked (strconv.ParseInt v 10 64))
                (strings.Split value (separatorOf f)) piece
                (strconv.rangeError "ParseInt" piece) [] Hin) as [err' Herr'].
    { now rewrite Hx. }
    unfold parseInt64s. rewrite Herr'. eauto.
Qed.

Lemma set_integer_ranges_witness :
  (exists n, VInt 3000 = VInt n /\ inInt 32 n)
  /\ set plainHost (VInt 0) (field "Port" true tInt [("env", "PORT")]) "2147483647"
     = inl (VInt 2147483647)
  /\ set plainHost (VInt 0) (field "Port" true tInt [("env", "PORT")]) "2147483648"
     = inr (strconv.rangeError "ParseInt" "2147483648")
  /\ set plainHost (VUint 0) (field "Port" true tUint [("env", "PORT")]) "4294967296"
     = inr (strconv.rangeError "ParseUint" "4294967296")
  /\ (exists err, set plainHost (VSlice sliceOfInts (Ints [])) ports "80,2147483648"
                  = inr err).
Proof.
  refine (conj _ (conj _ (conj _ (conj _ _)))).
  - destruct (set_integer_ranges plainHost (field "Port" true tInt [("env", "PORT")])
                "3000" (VInt 3000)) as (Hint & _).
    apply (Hint 0). reflexivity.
  - destruct (set_integer_ranges plainHost (field "Port" true tInt [("env", "PORT")])
                "2147483647" (VInt 0)) as (_ & _ & _ & _ & _ & Hint & _).
    apply (Hint 0 2147483647 eq_refl). unfold inInt. lia.
  - destruct (set_integer_ranges plainHost (field "Port" true tInt [("env", "PORT")])
                "2147483648" (VInt 0)) as (_ & _ & _ & _ & _ & Hint & _).
    apply (Hint 0 2147483648 eq_refl). unfold inInt. lia.
  - destruct (set_integer_ranges plainHost (field "Port" true tUint [("env", "PORT")])
                "4294967296" (VUint 0)) as (_ & _ & _ & _ & _ & _ & Huint & _).
    apply (Huint 0 4294967296 eq_refl). unfold inUint. lia.
  - destruct (set_integer_ranges plainHost ports "80,2147483648" (VInt 0))
      as (_ & _ & _ & _ & _ & _ & _ & _ & Hints & _).
    apply (Hints (Ints []) "2147483648" 2147483648).
    + right. left. reflexivity.
    + reflexivity.
    + unfold inInt. lia.
Defined.

(** ** Sequence fields, continued *)

Lemma separatorOf_not_empty : forall f, separatorOf f <> "".
Proof.
  intros f. unfold separatorOf.
  destruct (String.eqb_spec (reflect.Tag_Get (reflect.Tag f) "envSeparator") "");
    [discriminate|assumption].
Qed.

(** X4.  A [[]string] field always converts: it receives the pieces of the
    value, at least one, and the pieces joined by the separator of the
    field give the value back. *)
Theorem string_slice_round_trip : forall (h : Host) (f : StructField)
    (d : reflect.SliceData) (value : string),
  exists l,
    set h (VSlice sliceOfStrings d) f value = inl (VSlice sliceOfStrings (Strings l))
    /\ l <> []
    /\ strings.Join l (separatorOf f) = value.
Proof.
  intros h f d value. exists (strings.Split value (separatorOf f)).
  refine (conj eq_refl (conj _ _)).
  - pose proof (separatorOf_not_empty f) as Hsep. unfold strings.Split.
    destruct (separatorOf f); [contradiction|]. apply genSplit_not_nil.
  - apply Join_Split. apply separatorOf_not_empty.
Qed.

(** ** The record as a whole *)

(** A conversion keeps the kind of the field (and the type of a slice),
    and converting again gives the same value. *)
Lemma set_again : forall h v f value v',
  set h v f value = inl v' ->
  set h v' f value = inl v'
  /\ skeleton v' = skeleton v
  /\ isLeaf v' = true
  /\ reflect.Kind_of (Some v') <> reflect.Struct
  /\ reflect.IsNil v' = true.
Proof.
  intros h v f value v' H.
  destruct v; cbn [set] in H; try discriminate.
  - inversion H; subst. refine (conj _ (conj _ (conj _ (conj _ _)))); cbn; rewrite ?Hp; try reflexivity; discriminate.
  - destruct (strconv.ParseBool value) eqn:Hp; [|discriminate]. inversion H; subst.
    cbn [set]. rewrite Hp. refine (conj _ (conj _ (conj _ (conj _ _)))); cbn; rewrite ?Hp; try reflexivity; discriminate.
  - destruct (strconv.ParseInt value 10 32) as [n [err|]] eqn:Hp; [discriminate|].
    inversion H; subst. cbn [set]. rewrite Hp. refine (conj _ (conj _ (conj _ (conj _ _)))); cbn; rewrite ?Hp; try reflexivity; discriminate.
  - destruct (strconv.ParseUint value 10 32) as [n [err|]] eqn:Hp; [discriminate|].
    inversion H; subst. cbn [set]. rewrite Hp. refine (conj _ (conj _ (conj _ (conj _ _)))); cbn; rewrite ?Hp; try reflexivity; discriminate.
  - destruct (ParseFloat h value 32) eqn:Hp; [|discriminate]. inversion H; subst.
    cbn [set]. rewrite Hp. refine (conj _ (conj _ (conj _ (conj _ _)))); cbn; rewrite ?Hp; try reflexivity; discriminate.
  - destruct (ParseFloat h value 64) eqn:Hp; [|discriminate]. inversion H; subst.
    cbn [set]. rewrite Hp. refine (conj _ (conj _ (conj _ (conj _ _)))); cbn; rewrite ?Hp; try reflexivity; discriminate.
  - destruct (String.eqb _ "time.Duration") eqn:Hd.
    + destruct (time.ParseDuration h value) eqn:Hp; [|discriminate]. inversion H; subst.
      refine (conj _ (conj _ (conj _ (conj _ _)))); cbn [set];
        rewrite ?Hd, ?Hp; try reflexivity; discriminate.
    + destruct (strconv.ParseInt value 10 64) as [n [err|]] eqn:Hp; [discriminate|].
      inversion H; subst.
      refine (conj _ (conj _ (conj _ (conj _ _)))); cbn [set];
        rewrite ?Hd, ?Hp; try reflexivity; discriminate.
  - cbn [set] in *. unfold handleSlice in H.
    repeat match type of H with
           | context [reflect.rtype_eqb t ?x] => destruct (reflect.rtype_eqb t x) eqn:?
           | context [match ?r with inl _ => _ | inr _ => _ end] => destruct r eqn:?
           end;
      try discriminate; inversion H; subst;
      (refine (conj _ (conj _ (conj _ (conj _ _))));
       [|reflexivity|reflexivity|cbn; discriminate|reflexivity]).
    all: cbn [set]; unfold handleSlice.
    all: repeat match goal with
                | E : reflect.rtype_eqb ?t ?x = _ |- _ => rewrite E; clear E
                | E : _ = inl _ |- _ => rewrite E; clear E
                end; reflexivity.
Qed.

Lemma scalarTurn_again : forall h e f v,
  scalarTurn h e f (stepValue (scalarTurn h e f v)) = scalarTurn h e f v
  /\ skeleton (stepValue (scalarTurn h e f v)) = skeleton v.
Proof.
  intros h e f v. unfold scalarTurn.
  destruct (get e f) as [value [err|]]; [split; reflexivity|].
  destruct (String.eqb value ""); [split; reflexivity|].
  destruct (set h v f value) as [v'|err] eqn:Hset; [|split; cbn; now rewrite ?Hset].
  destruct (set_again h v f value v' Hset) as (Hagain & Hskel & _).
  cbn [stepValue]. now rewrite Hagain.
Qed.

Section Loops.
Variable body : StructField -> Value -> step.

Lemma fieldLoop_again : forall fs i errorList,
  Forall (fun fv => body (fst fv) (stepValue (body (fst fv) (snd fv)))
                    = body (fst fv) (snd fv)) fs ->
  fieldLoop body i (fieldsAfter (fieldLoop body i fs errorList)) errorList
  = fieldLoop body i fs errorList.
Proof.
  unfold fieldsAfter.
  induction fs as [|[f v] rest IH]; intros i errorList Hall; [reflexivity|].
  inversion Hall as [|? ? Hfv Hrest]; subst. cbn [fst snd] in Hfv.
  cbn [fieldLoop]. destruct (body f v) as [v' w msg|v' w err] eqn:Hb.
  - cbn [stepValue] in Hfv.
    match goal with |- context [fieldLoop body (S i) rest ?l] =>
      specialize (IH (S i) l Hrest);
      destruct (fieldLoop body (S i) rest l) as [[rest' w'] fin] end.
    cbn [fst snd] in *. cbn [fieldLoop]. rewrite Hfv, IH. reflexivity.
  - cbn [stepValue] in Hfv. cbn [fst snd fieldLoop]. rewrite Hfv. reflexivity.
Qed.

Lemma fieldLoop_skeletons : forall fs i errorList,
  Forall (fun fv => skeleton (stepValue (body (fst fv) (snd fv))) = skeleton (snd fv)) fs ->
  skeletons (fieldsAfter (fieldLoop body i fs errorList)) = skeletons fs.
Proof.
  unfold fieldsAfter.
  induction fs as [|[f v] rest IH]; intros i errorList Hall; [reflexivity|].
  inversion Hall as [|? ? Hfv Hrest]; subst. cbn [fst snd] in Hfv.
  cbn [fieldLoop]. destruct (body f v) as [v' w msg|v' w err] eqn:Hb.
  - cbn [stepValue] in Hfv.
    match goal with |- context [fieldLoop body (S i) rest ?l] =>
      specialize (IH (S i) l Hrest);
      destruct (fieldLoop body (S i) rest l) as [[rest' w'] fin] end.
    cbn [fst snd] in *. unfold skeletons in *. cbn [map]. now rewrite Hfv, IH.
  - cbn [stepValue] in Hfv. cbn [fst snd]. unfold skeletons. cbn [map]. now rewrite Hfv.
Qed.

Lemma fieldLoop_unchanged : forall fs i errorList,
  Forall (fun fv => continues (body (fst fv) (snd fv))
                    /\ stepValue (body (fst fv) (snd fv)) = snd fv
                    /\ stepWrites (body (fst fv) (snd fv)) = []) fs ->
  fieldLoop body i fs errorList = (fs, [], Finished (errorList ++ messages body fs)).
Proof.
  induction fs as [|[f v] rest IH]; intros i errorList Hall.
  - simpl. now rewrite app_nil_r.
  - inversion Hall as [|? ? (Hc & Hv & Hw) Hrest]; subst. cbn [fst snd] in *.
    cbn [fieldLoop]. unfold messages. cbn [flat_map fst snd].
    destruct (body f v) as [v' w msg|]; [|contradiction].
    cbn [stepValue stepWrites] in *. subst v' w.
    rewrite (IH (S i) _ Hrest). unfold messages.
    destruct msg; cbn [stepMessages map app]; [rewrite <- app_assoc|]; reflexivity.
Qed.

Lemma fieldLoop_returned : forall (Q : error -> Prop) fs i errorList fs' w l err,
  Forall (fun fv => forall v' w' err', body (fst fv) (snd fv) = Return v' w' err' -> Q err') fs ->
  fieldLoop body i fs errorList = (fs', w, Returned l err) ->
  Q err.
Proof.
  intros Q. induction fs as [|[f v] rest IH]; intros i errorList fs' w l err Hall H.
  - discriminate.
  - inversion Hall as [|? ? Hfv Hrest]; subst. cbn [fst snd] in Hfv.
    cbn [fieldLoop] in H. destruct (body f v) as [v' w0 msg|v' w0 err0] eqn:Hb.
    + destruct (fieldLoop body (S i) rest _) as [[rest' w'] fin] eqn:Hl.
      inversion H; subst. eapply IH; eauto.
    + inversion H; subst. eapply Hfv; eauto.
Qed.
End Loops.

Lemma doParse_again_fields : forall h e sticky fs,
  Forall (fun fv => fieldStep h e sticky (fst fv)
                      (stepValue (fieldStep h e sticky (fst fv) (snd fv)))
                    = fieldStep h e sticky (fst fv) (snd fv)) fs ->
  doParse h e sticky (fieldsAfter (doParse h e sticky fs)) = doParse h e sticky fs.
Proof.
  intros h e sticky fs Hall.
  destruct (doParse_fields h e sticky fs) as [Hf _]. rewrite Hf.
  unfold doParse. now rewrite fieldLoop_again.
Qed.

Lemma leaf_cases : forall v,
  isLeaf v = true ->
  reflect.Kind_of (Some v) <> reflect.Struct
  /\ ((exists p, v = VPtr (Some p) /\ reflect.Kind_of (Some p) <> reflect.Struct)
      \/ (reflect.Kind_of (Some v) = reflect.Ptr -> reflect.IsNil v = true)).
Proof.
  intros v H. destruct v; try discriminate; try (split; [discriminate|right; discriminate]).
  destruct pointee as [p|].
  - split; [discriminate|]. left. exists p. split; [reflexivity|].
    destruct p; try discriminate.
  - split; [discriminate|]. right. reflexivity.
Qed.

Lemma stepValue_afterParse : forall v x w err,
  stepValue (afterParse v (Some x, w, err)) = x.
Proof. intros v x w [err|]; reflexivity. Qed.

Lemma stepWrites_afterParse : forall v x w err,
  stepWrites (afterParse v (x, w, err)) = w.
Proof. intros v x w [err|]; reflexivity. Qed.

(** The value after the turn of a scalar is the old one or a converted
    one, a leaf in both cases. *)
Lemma scalarTurn_value : forall h e f v,
  reflect.Kind_of (Some v) <> reflect.Struct ->
  (reflect.Kind_of (Some v) = reflect.Ptr -> reflect.IsNil v = true) ->
  reflect.Kind_of (Some (stepValue (scalarTurn h e f v))) <> reflect.Struct
  /\ (reflect.Kind_of (Some (stepValue (scalarTurn h e f v))) = reflect.Ptr ->
      reflect.IsNil (stepValue (scalarTurn h e f v)) = true).
Proof.
  intros h e f v Hk Hnil. unfold scalarTurn.
  destruct (get e f) as [value [err|]]; [auto|].
  destruct (String.eqb value ""); [auto|].
  destruct (set h v f value) as [v'|err] eqn:Hset; [|auto].
  destruct (set_again h v f value v' Hset) as (_ & _ & _ & Hk' & Hnil').
  cbn [stepValue]. auto.
Qed.

Lemma scalarTurn_struct_value : forall h e f fs,
  stepValue (scalarTurn h e f (VStruct fs)) = VStruct fs
  /\ stepWrites (scalarTurn h e f (VStruct fs)) = []
  /\ continues (scalarTurn h e f (VStruct fs)).
Proof.
  intros h e f fs. unfold scalarTurn.
  destruct (get e f) as [value [err|]]; [cbn; auto|].
  destruct (String.eqb value ""); cbn; auto.
Qed.

(** The turn of a field on the value it has produced is the same turn. *)
Lemma fieldStep_again : forall h e v sticky f,
  fieldStep h e sticky f (stepValue (fieldStep h e sticky f v)) = fieldStep h e sticky f v.
Proof.
  intros h e v.
  apply (Value_nested_ind (fun v => forall sticky f,
           fieldStep h e sticky f (stepValue (fieldStep h e sticky f v))
           = fieldStep h e sticky f v)); clear v.
  - intros v Hleaf sticky f.
    destruct (leaf_cases v Hleaf) as [Hk [[p [-> Hp]]|Hnil]];
      destruct (reflect.CanSet sticky f) eqn:Hc.
    + rewrite (fieldStep_pointer h e sticky f p Hc), Parse_pointer_to_non_struct by assumption.
      cbn [afterParse stepValue].
      now rewrite (fieldStep_pointer h e sticky f p Hc), Parse_pointer_to_non_struct.
    + rewrite (fieldStep_skip h e sticky f (VPtr (Some p)) Hc Hk). cbn [stepValue].
      now rewrite (fieldStep_skip h e sticky f (VPtr (Some p)) Hc Hk).
    + rewrite (fieldStep_settable h e sticky f v Hc Hk Hnil).
      destruct (scalarTurn_value h e f v Hk Hnil) as [Hk' Hnil'].
      rewrite fieldStep_settable by assumption. apply scalarTurn_again.
    + rewrite (fieldStep_skip h e sticky f v Hc Hk). cbn [stepValue].
      now rewrite fieldStep_skip.
  - intros fs IH sticky f.
    destruct (String.eqb_spec (fst (get e f)) "") as [He|He].
    + rewrite (fieldStep_struct h e sticky f fs He). cbn [stepValue].
      rewrite fieldStep_struct by assumption.
      rewrite doParse_again_fields; [reflexivity|].
      eapply Forall_impl; [|exact IH]. intros fv Hfv. apply Hfv.
    + rewrite (fieldStep_struct_value h e sticky f fs He).
      destruct (scalarTurn_struct_value h e f fs) as (Hv & _). rewrite Hv.
      now rewrite fieldStep_struct_value.
  - intros fs IH sticky f. destruct (reflect.CanSet sticky f) eqn:Hc.
    + rewrite (fieldStep_pointer h e sticky f (VStruct fs) Hc), Parse_struct_pointer.
      rewrite stepValue_afterParse.
      rewrite fieldStep_pointer, Parse_struct_pointer by assumption.
      rewrite doParse_again_fields; [reflexivity|].
      eapply Forall_impl; [|exact IH]. intros fv Hfv. apply Hfv.
    + assert (Hk : reflect.Kind_of (Some (VPtr (Some (VStruct fs)))) <> reflect.Struct)
        by discriminate.
      rewrite (fieldStep_skip h e sticky f _ Hc Hk). cbn [stepValue].
      now rewrite (fieldStep_skip h e sticky f _ Hc Hk).
Qed.

(** X5.  Binding twice is binding once: [doParse] on the fields it has
    produced, in the same environment, leaves them as they are, makes the
    same writes and returns the same error; and so does [Parse] on its
    argument after a first call. *)
Theorem binding_idempotent : forall (h : Host) (e : os.Environ),
  (forall sticky fs,
     doParse h e sticky (fieldsAfter (doParse h e sticky fs)) = doParse h e sticky fs)
  /\ (forall v, Parse h e (fieldsAfter (Parse h e v)) = Parse h e v).
Proof.
  intros h e.
  assert (Hdo : forall sticky fs,
            doParse h e sticky (fieldsAfter (doParse h e sticky fs)) = doParse h e sticky fs).
  { intros sticky fs. apply doParse_again_fields.
    apply Forall_forall. intros fv _. apply fieldStep_again. }
  split; [exact Hdo|].
  intros [[]|]; try reflexivity.
  destruct pointee as [[]|]; try reflexivity.
  rewrite Parse_struct_pointer. unfold fieldsAfter at 1. cbn [fst].
  rewrite Parse_struct_pointer, Hdo. reflexivity.
Qed.

Lemma skeleton_leaf_scalarTurn : forall h e f v,
  skeleton (stepValue (scalarTurn h e f v)) = skeleton v.
Proof. intros. apply scalarTurn_again. Qed.

Lemma fieldStep_skeleton : forall h e v sticky f,
  skeleton (stepValue (fieldStep h e sticky f v)) = skeleton v.
Proof.
  intros h e v.
  apply (Value_nested_ind (fun v => forall sticky f,
           skeleton (stepValue (fieldStep h e sticky f v)) = skeleton v)); clear v.
  - intros v Hleaf sticky f.
    destruct (leaf_cases v Hleaf) as [Hk [[p [-> Hp]]|Hnil]];
      destruct (reflect.CanSet sticky f) eqn:Hc.
    + now rewrite (fieldStep_pointer h e sticky f p Hc), Parse_pointer_to_non_struct.
    + now rewrite (fieldStep_skip h e sticky f (VPtr (Some p)) Hc Hk).
    + rewrite (fieldStep_settable h e sticky f v Hc Hk Hnil). apply scalarTurn_again.
    + now rewrite (fieldStep_skip h e sticky f v Hc Hk).
  - intros fs IH sticky f.
    destruct (String.eqb_spec (fst (get e f)) "") as [He|He].
    + rewrite (fieldStep_struct h e sticky f fs He). cbn [stepValue skeleton].
      f_equal. destruct (doParse_fields h e (reflect.stickyRO sticky f) fs) as [-> _].
      apply fieldLoop_skeletons.
      eapply Forall_impl; [|exact IH]. intros fv Hfv. apply Hfv.
    + rewrite (fieldStep_struct_value h e sticky f fs He).
      destruct (scalarTurn_struct_value h e f fs) as (Hv & _). now rewrite Hv.
  - intros fs IH sticky f. destruct (reflect.CanSet sticky f) eqn:Hc.
    + rewrite (fieldStep_pointer h e sticky f (VStruct fs) Hc), Parse_struct_pointer.
      rewrite stepValue_afterParse. cbn [skeleton]. do 3 f_equal.
      destruct (doParse_fields h e false fs) as [-> _].
      apply fieldLoop_skeletons.
      eapply Forall_impl; [|exact IH]. intros fv Hfv. apply Hfv.
    + assert (Hk : reflect.Kind_of (Some (VPtr (Some (VStruct fs)))) <> reflect.Struct)
        by discriminate.
      now rewrite (fieldStep_skip h e sticky f _ Hc Hk).
Qed.

Lemma skeletons_descriptors : forall a b : fieldList,
  skeletons a = skeletons b -> map fst a = map fst b.
Proof.
  induction a as [|[f x] a IH]; intros [|[g y] b] H; try discriminate; [reflexivity|].
  unfold skeletons in H. cbn [map] in H. inversion H; subst. cbn [map fst].
  f_equal. now apply IH.
Qed.

(** X6.  Binding changes data only: after [doParse], and after [Parse],
    the record has the same schema as before, at every depth: the same
    fields with the same descriptors in the same order, every field of the
    kind it had, every slice of the type it had, every nil pointer still
    nil and every other pointer still not nil. *)
Theorem binding_keeps_schema : forall (h : Host) (e : os.Environ),
  (forall sticky fs, skeletons (fieldsAfter (doParse h e sticky fs)) = skeletons fs)
  /\ (forall sticky fs, map fst (fieldsAfter (doParse h e sticky fs)) = map fst fs)
  /\ (forall v, option_map skeleton (fieldsAfter (Parse h e v)) = option_map skeleton v).
Proof.
  intros h e.
  assert (Hdo : forall sticky fs,
            skeletons (fieldsAfter (doParse h e sticky fs)) = skeletons fs).
  { intros sticky fs. destruct (doParse_fields h e sticky fs) as [-> _].
    apply fieldLoop_skeletons. apply Forall_forall. intros fv _. apply fieldStep_skeleton. }
  refine (conj Hdo (conj _ _)).
  - intros sticky fs. apply skeletons_descriptors, Hdo.
  - intros [[]|]; try reflexivity.
    destruct pointee as [[]|]; try reflexivity.
    rewrite Parse_struct_pointer. unfold fieldsAfter at 1. cbn [fst option_map skeleton].
    unfold skeletons in Hdo. now rewrite Hdo.
Qed.

(** The kind of every field and the number of fields are read off the
    schema. *)
Lemma skeleton_kind : forall v v',
  skeleton v' = skeleton v ->
  reflect.Kind_of (Some v') = reflect.Kind_of (Some v) /\ reflect.IsNil v' = reflect.IsNil v.
Proof.
  intros v v' H.
  destruct v, v';
    repeat match goal with
           | p : option Value |- _ => destruct p
           end;
    try discriminate; try (inversion H; subst); split; reflexivity.
Qed.

(** ** The errors of a call *)

Lemma fieldStep_plain_error : forall h e v sticky f v' w err,
  fieldStep h e sticky f v = Return v' w err -> plainError err.
Proof.
  intros h e v.
  apply (Value_nested_ind (fun v => forall sticky f v' w err,
           fieldStep h e sticky f v = Return v' w err -> plainError err)); clear v.
  - intros v Hleaf sticky f v' w err H.
    destruct (fieldStep_return_pointer h e sticky f v v' w err H) as [p [-> Hc]].
    destruct (leaf_cases _ Hleaf) as [_ [[q [Hq Hk]]|Hnil]].
    + inversion Hq; subst q.
      rewrite (fieldStep_pointer h e sticky f p Hc), Parse_pointer_to_non_struct in H
        by assumption.
      inversion H; subst. left. reflexivity.
    + specialize (Hnil eq_refl). discriminate.
  - intros fs IH sticky f v' w err H.
    destruct (fieldStep_return_pointer h e sticky f _ v' w err H) as [p [Hp _]].
    discriminate.
  - intros fs IH sticky f v' w err H.
    destruct (fieldStep_return_pointer h e sticky f _ v' w err H) as [p [_ Hc]].
    rewrite (fieldStep_pointer h e sticky f (VStruct fs) Hc), Parse_struct_pointer in H.
    rewrite doParse_loop in H. unfold errorOf at 1 in H. cbn [snd] in H.
    unfold afterParse in H.
    destruct (result (loopEnding h e false fs)) as [err0|] eqn:Hres; [|discriminate].
    inversion H; subst err0. clear H.
    unfold loopEnding, errorOf in Hres.
    destruct (fieldLoop (fieldStep h e false) 0 fs []) as [[fs' w'] fin] eqn:Hloop.
    cbn [snd] in Hres. destruct fin as [l|l err1].
    + destruct l; [discriminate|]. inversion Hres; subst. right. eexists. reflexivity.
    + inversion Hres; subst err1.
      eapply (fieldLoop_returned (fieldStep h e false) plainError); [|exact Hloop].
      eapply Forall_impl; [|exact IH]. intros fv Hfv. apply Hfv.
Qed.

(** X7.  The error [Parse] returns is [ErrNotAStructPtr] itself or a value
    made by [errors.New] from the messages: the failures of the fields come
    back as text only.  [Parse] never returns [ErrUnsupportedType],
    [ErrMismatchType], [ErrUnsupportedSliceType] or an error of [strconv]
    as a value, whatever the record and the environment are. *)
Theorem Parse_error_values : forall (h : Host) (e : os.Environ) (v : interface) (err : error),
  errorOf (Parse h e v) = Some err ->
  plainError err
  /\ err <> ErrUnsupportedType
  /\ err <> ErrMismatchType
  /\ err <> ErrUnsupportedSliceType
  /\ (forall fn num cause, err <> NumError fn num cause).
Proof.
  intros h e v err H.
  assert (Hplain : plainError err).
  { destruct v as [[]|]; try (inversion H; left; reflexivity).
    destruct pointee as [[]|]; try (inversion H; left; reflexivity).
    rewrite Parse_struct_pointer in H. unfold errorOf at 1 in H. cbn [snd] in H.
    rewrite doParse_loop in H. unfold errorOf at 1 in H. cbn [snd] in H.
    unfold loopEnding, errorOf in H.
    destruct (fieldLoop (fieldStep h e false) 0 fields []) as [[fs' w'] fin] eqn:Hloop.
    cbn [snd] in H. destruct fin as [l|l err1].
    - destruct l; [discriminate|]. inversion H; subst. right. eexists. reflexivity.
    - inversion H; subst err1.
      eapply (fieldLoop_returned (fieldStep h e false) plainError); [|exact Hloop].
      apply Forall_forall. intros fv _ v' w0 err' Hr.
      eapply fieldStep_plain_error; eauto. }
  split; [exact Hplain|].
  destruct Hplain as [->|[text ->]]; repeat split; try discriminate; intros; discriminate.
Qed.

Lemma Parse_error_values_witness :
  plainError (errors_New "Type is not supported")
  /\ errors_New "Type is not supported" <> ErrUnsupportedType.
Proof.
  destruct (Parse_error_values plainHost homeEnviron
              (Some (VPtr (Some (VStruct [nilPointerTagged]))))
              (errors_New "Type is not supported") eq_refl) as (Hplain & Hne & _).
  split; assumption.
Defined.

(** ** Unexported structs *)

Lemma CanSet_sticky : forall f, reflect.CanSet true f = false.
Proof. reflexivity. Qed.

Lemma fieldStep_sticky : forall h e v f,
  continues (fieldStep h e true f v)
  /\ stepValue (fieldStep h e true f v) = v
  /\ stepWrites (fieldStep h e true f v) = [].
Proof.
  intros h e v.
  apply (Value_nested_ind (fun v => forall f,
           continues (fieldStep h e true f v)
           /\ stepValue (fieldStep h e true f v) = v
           /\ stepWrites (fieldStep h e true f v) = [])); clear v.
  - intros v Hleaf f. destruct (leaf_cases v Hleaf) as [Hk _].
    rewrite (fieldStep_skip h e true f v (CanSet_sticky f) Hk). cbn. auto.
  - intros fs IH f.
    destruct (String.eqb_spec (fst (get e f)) "") as [He|He].
    + rewrite (fieldStep_struct h e true f fs He).
      change (reflect.stickyRO true f) with true.
      rewrite doParse_loop, (fieldLoop_unchanged (fieldStep h e true) fs 0 []).
      * cbn. auto.
      * eapply Forall_impl; [|exact IH]. intros fv Hfv. apply Hfv.
    + rewrite (fieldStep_struct_value h e true f fs He).
      destruct (scalarTurn_struct_value h e f fs) as (Hv & Hw & Hc). auto.
  - intros fs IH f.
    assert (Hk : reflect.Kind_of (Some (VPtr (Some (VStruct fs)))) <> reflect.Struct)
      by discriminate.
    rewrite (fieldStep_skip h e true f _ (CanSet_sticky f) Hk). cbn. auto.
Qed.

(** X8.  What an unexported struct field lets through.  Below a struct
    field that is unexported and not embedded nothing is ever written: the
    field is after the call what it was before, at every depth, whatever
    the tags and the environment are ([doParse] on a struct reached that
    way changes no field and makes no write).  An unexported struct field
    that is embedded, in a record that can be set, is bound as an exported
    one: when its resolved value is empty its fields are bound by
    [doParse] as the fields of the record itself are. *)
Theorem unexported_struct_fields : forall (h : Host) (e : os.Environ),
  (forall fs,
     fieldsAfter (doParse h e true fs) = fs /\ writesOf (doParse h e true fs) = [])
  /\ (forall sticky f fs,
        reflect.exported f = false -> reflect.Anonymous f = false ->
        continues (fieldStep h e sticky f (VStruct fs))
        /\ stepValue (fieldStep h e sticky f (VStruct fs)) = VStruct fs
        /\ stepWrites (fieldStep h e sticky f (VStruct fs)) = [])
  /\ (forall f fs,
        reflect.exported f = false -> reflect.Anonymous f = true ->
        fst (get e f) = "" ->
        fieldStep h e false f (VStruct fs)
        = Continue (VStruct (fieldsAfter (doParse h e false fs)))
                   (writesOf (doParse h e false fs)) None).
Proof.
  intros h e.
  assert (Hdo : forall fs, doParse h e true fs
                           = (fs, [], result (Finished (messages (fieldStep h e true) fs)))).
  { intros fs. unfold doParse.
    rewrite (fieldLoop_unchanged (fieldStep h e true) fs 0 []); [reflexivity|].
    apply Forall_forall. intros fv _. apply fieldStep_sticky. }
  refine (conj _ (conj _ _)).
  - intros fs. rewrite Hdo. split; reflexivity.
  - intros sticky f fs Hexp Hanon.
    destruct (String.eqb_spec (fst (get e f)) "") as [He|He].
    + rewrite (fieldStep_struct h e sticky f fs He).
      assert (Hs : reflect.stickyRO sticky f = true).
      { unfold reflect.stickyRO. rewrite Hexp, Hanon. now destruct sticky. }
      rewrite Hs, Hdo. cbn. auto.
    + rewrite (fieldStep_struct_value h e sticky f fs He).
      destruct (scalarTurn_struct_value h e f fs) as (Hv & Hw & Hc). auto.
  - intros f fs Hexp Hanon He.
    rewrite (fieldStep_struct h e false f fs He).
    assert (Hs : reflect.stickyRO false f = false).
    { unfold reflect.stickyRO. now rewrite Hexp, Hanon. }
    now rewrite Hs.
Qed.

Lemma unexported_struct_fields_witness :
  stepValue (fieldStep plainHost fooEnviron false hiddenFoo (VStruct fooFields))
  = VStruct fooFields
  /\ fieldStep plainHost fooEnviron false embeddedFoo (VStruct fooFields)
     = Continue
         (VStruct [(field "Name1" true tString [("env", "EXAMPLE_FOO1")], VString "one");
                   (field "Name2" true tString [("env", "EXAMPLE_FOO2")], VString "two")])
         [[0%nat]; [1%nat]] None.
Proof.
  destruct (unexported_struct_fields plainHost fooEnviron) as (_ & Hhidden & Hembedded).
  split.
  - apply (Hhidden false hiddenFoo fooFields); reflexivity.
  - rewrite (Hembedded embeddedFoo fooFields) by reflexivity. reflexivity.
Defined.

(** ** Records without tags *)

Lemma get_bare : forall e f, bare f = true -> get e f = ("", None).
Proof.
  intros e f H. unfold bare in H. apply andb_prop in H. destruct H as [Henv Hdef].
  apply String.eqb_eq in Henv, Hdef. unfold get. now rewrite Henv, Hdef.
Qed.

Lemma inertFields_Forall : forall fs,
  inertFields fs = true ->
  Forall (fun fv => bare (fst fv) = true /\ inert (snd fv) = true) fs.
Proof.
  intros fs H. unfold inertFields in H. rewrite forallb_forall in H.
  apply Forall_forall. intros [f x] Hin. specialize (H _ Hin). cbn [fst snd].
  now apply andb_prop in H.
Qed.

Lemma fieldStep_inert : forall h e v sticky f,
  inert v = true -> bare f = true ->
  fieldStep h e sticky f v = Continue v [] None.
Proof.
  intros h e v.
  apply (Value_nested_ind (fun v => forall sticky f,
           inert v = true -> bare f = true ->
           fieldStep h e sticky f v = Continue v [] None)); clear v.
  - intros v Hleaf sticky f Hinert Hbare.
    destruct (leaf_cases v Hleaf) as [Hk [[p [-> Hp]]|Hnil]].
    + destruct p; discriminate.
    + destruct (reflect.CanSet sticky f) eqn:Hc.
      * rewrite (fieldStep_settable h e sticky f v Hc Hk Hnil). unfold scalarTurn.
        now rewrite (get_bare e f Hbare).
      * now apply fieldStep_skip.
  - intros fs IH sticky f Hinert Hbare.
    assert (He : fst (get e f) = "") by now rewrite (get_bare e f Hbare).
    rewrite (fieldStep_struct h e sticky f fs He).
    rewrite doParse_loop, (fieldLoop_unchanged (fieldStep h e (reflect.stickyRO sticky f)) fs 0 []).
    + reflexivity.
    + pose proof (inertFields_Forall fs Hinert) as Hall.
      rewrite Forall_forall in *. intros fv Hin.
      destruct (Hall fv Hin) as [Hb Hi].
      rewrite (IH fv Hin _ _ Hi Hb). cbn. auto.
  - intros fs IH sticky f Hinert Hbare.
    destruct (reflect.CanSet sticky f) eqn:Hc.
    + rewrite (fieldStep_pointer h e sticky f (VStruct fs) Hc), Parse_struct_pointer.
      rewrite doParse_loop. unfold loopEnding.
      rewrite (fieldLoop_unchanged (fieldStep h e false) fs 0 []).
      * assert (Hm : messages (fieldStep h e false) fs = []).
        { pose proof (inertFields_Forall fs Hinert) as Hall.
          unfold messages. clear -Hall IH.
          induction fs as [|fv fs IHfs]; [reflexivity|].
          inversion Hall as [|? ? [Hb Hi] Hrest]; subst.
          inversion IH as [|? ? Hfv HIH]; subst.
          cbn [flat_map]. rewrite (Hfv _ _ Hi Hb). cbn [stepMessages app]. auto. }
        unfold errorOf, fieldsAfter, writesOf. cbn [fst snd app]. rewrite Hm. reflexivity.
      * pose proof (inertFields_Forall fs Hinert) as Hall.
        rewrite Forall_forall in *. intros fv Hin.
        destruct (Hall fv Hin) as [Hb Hi].
        rewrite (IH fv Hin _ _ Hi Hb). cbn. auto.
    + apply fieldStep_skip; [assumption|discriminate].
Qed.

(** X9.  A record without tags is left alone.  When no field of the
    record, at any depth, has an [env] or an [envDefault] tag, and no
    pointer in it points to something that is not a struct, [doParse]
    changes nothing, writes nothing and returns nil, in every
    environment; and so does [Parse] on a pointer to the record. *)
Theorem untagged_record_untouched : forall (h : Host) (e : os.Environ) (sticky : bool)
    (fs : fieldList),
  inertFields fs = true ->
  doParse h e sticky fs = (fs, [], None)
  /\ Parse h e (Some (VPtr (Some (VStruct fs))))
     = (Some (VPtr (Some (VStruct fs))), [], None).
Proof.
  intros h e sticky fs Hinert.
  assert (Hdo : forall s, doParse h e s fs = (fs, [], None)).
  { intros s. unfold doParse.
    pose proof (inertFields_Forall fs Hinert) as Hall.
    rewrite (fieldLoop_unchanged (fieldStep h e s) fs 0 []).
    - assert (Hm : messages (fieldStep h e s) fs = []).
      { unfold messages. clear -Hall.
        induction fs as [|fv fs IHfs]; [reflexivity|].
        inversion Hall as [|? ? [Hb Hi] Hrest]; subst.
        cbn [flat_map]. rewrite (fieldStep_inert h e _ s _ Hi Hb).
        cbn [stepMessages app]. auto. }
      rewrite Hm. reflexivity.
    - rewrite Forall_forall in *. intros fv Hin. destruct (Hall fv Hin) as [Hb Hi].
      rewrite (fieldStep_inert h e _ s _ Hi Hb). cbn. auto. }
  split; [apply Hdo|].
  rewrite Parse_struct_pointer, Hdo. reflexivity.
Qed.

Lemma untagged_record_untouched_witness :
  doParse plainHost homeEnviron false
    [(field "Count" true tInt [], VInt 7); nilPointerPlain;
     (hiddenFoo, VStruct [(field "Level" true tInt [], VInt 1)])]
  = ([(field "Count" true tInt [], VInt 7); nilPointerPlain;
      (hiddenFoo, VStruct [(field "Level" true tInt [], VInt 1)])], [], None).
Proof.
  apply (untagged_record_untouched plainHost homeEnviron false). reflexivity.
Defined.

(** ** Records by value and through a pointer *)

(** X10.  A nested record is bound the same way whether an exported field
    holds it by value or through a pointer that is not nil: in a record
    that can be set, the fields of the nested record after the turn and
    the writes of the turn are those of [doParse] in both cases.  Only the
    error differs: through the pointer an error of [doParse] leaves the
    loop, by value (the resolved value of the field being empty) it is
    dropped. *)
Theorem nested_by_value_or_pointer : forall (h : Host) (e : os.Environ)
    (byPointer byValue : StructField) (fs : fieldList),
  reflect.exported byPointer = true ->
  reflect.exported byValue = true ->
  fst (get e byValue) = "" ->
  stepValue (fieldStep h e false byPointer (VPtr (Some (VStruct fs))))
  = VPtr (Some (VStruct (fieldsAfter (doParse h e false fs))))
  /\ stepValue (fieldStep h e false byValue (VStruct fs))
     = VStruct (fieldsAfter (doParse h e false fs))
  /\ stepWrites (fieldStep h e false byPointer (VPtr (Some (VStruct fs))))
     = stepWrites (fieldStep h e false byValue (VStruct fs))
  /\ continues (fieldStep h e false byValue (VStruct fs))
  /\ stepMessages (fieldStep h e false byValue (VStruct fs)) = []
  /\ (forall err,
        errorOf (doParse h e false fs) = Some err ->
        fieldStep h e false byPointer (VPtr (Some (VStruct fs)))
        = Return (VPtr (Some (VStruct (fieldsAfter (doParse h e false fs)))))
                 (writesOf (doParse h e false fs)) err).
Proof.
  intros h e byPointer byValue fs Hp Hv He.
  assert (Hc : reflect.CanSet false byPointer = true) by exact Hp.
  assert (Hs : reflect.stickyRO false byValue = false).
  { unfold reflect.stickyRO. now rewrite Hv. }
  rewrite (fieldStep_pointer h e false byPointer (VStruct fs) Hc), Parse_struct_pointer.
  rewrite (fieldStep_struct h e false byValue fs He), Hs.
  rewrite stepValue_afterParse, stepWrites_afterParse.
  refine (conj eq_refl (conj eq_refl (conj eq_refl (conj I (conj eq_refl _))))).
  intros err Herr. unfold afterParse. now rewrite Herr.
Qed.

Lemma nested_by_value_or_pointer_witness :
  stepValue (fieldStep plainHost fooEnviron false (field "Ptr" true tFooPtr [])
               (VPtr (Some (VStruct fooFields))))
  = VPtr (Some (VStruct (fieldsAfter (doParse plainHost fooEnviron false fooFields))))
  /\ stepValue (fieldStep plainHost fooEnviron false (field "Foo" true tFoo [])
                  (VStruct fooFields))
     = VStruct (fieldsAfter (doParse plainHost fooEnviron false fooFields)).
Proof.
  destruct (nested_by_value_or_pointer plainHost fooEnviron
              (field "Ptr" true tFooPtr []) (field "Foo" true tFoo []) fooFields
              eq_refl eq_refl eq_refl) as (Hptr & Hval & _).
  split; assumption.
Defined.

(** ** The data a record held before *)

Lemma set_same_schema : forall h v v2 f value,
  skeleton v = skeleton v2 ->
  set h v f value = set h v2 f value.
Proof.
  intros h v v2 f value H.
  destruct v, v2;
    repeat match goal with
           | p : option Value |- _ => destruct p
           end;
    try discriminate; try reflexivity.
  inversion H; subst. reflexivity.
Qed.

Lemma scalarTurn_same_schema : forall h e f v v2,
  skeleton v = skeleton v2 ->
  outcome (scalarTurn h e f v) = outcome (scalarTurn h e f v2).
Proof.
  intros h e f v v2 H. unfold scalarTurn.
  destruct (get e f) as [value [err|]]; [reflexivity|].
  destruct (String.eqb value ""); [reflexivity|].
  rewrite (set_same_schema h v v2 f value H).
  destruct (set h v2 f value); reflexivity.
Qed.

Lemma skeletons_Forall2 : forall fs fs2,
  skeletons fs = skeletons fs2 ->
  Forall2 (fun fv fv2 => fst fv = fst fv2 /\ skeleton (snd fv) = skeleton (snd fv2)) fs fs2.
Proof.
  induction fs as [|[f x] fs IH]; intros [|[g y] fs2] H; try discriminate; [constructor|].
  unfold skeletons in H. cbn [map] in H. inversion H; subst.
  constructor; [cbn; auto|]. now apply IH.
Qed.

Lemma fieldLoop_same_outcome : forall body fs fs2 i errorList,
  Forall2 (fun fv fv2 => fst fv = fst fv2
                         /\ outcome (body (fst fv) (snd fv))
                            = outcome (body (fst fv2) (snd fv2))) fs fs2 ->
  writesOf (fieldLoop body i fs errorList) = writesOf (fieldLoop body i fs2 errorList)
  /\ errorOf (fieldLoop body i fs errorList) = errorOf (fieldLoop body i fs2 errorList).
Proof.
  unfold writesOf, errorOf.
  intros body fs fs2 i errorList H. revert i errorList.
  induction H as [|[f x] [g y] fs fs2 [Hf Ho] _ IH]; intros i errorList; [auto|].
  cbn [fst snd] in Hf, Ho. subst g. cbn [fieldLoop].
  destruct (body f x) as [v' w msg|v' w err], (body f y) as [v2' w2 msg2|v2' w2 err2];
    cbn [outcome] in Ho; inversion Ho; subst.
  - match goal with |- context [fieldLoop body (S i) fs ?l] =>
      specialize (IH (S i) l);
      destruct (fieldLoop body (S i) fs l) as [[r1 w1] fin1];
      destruct (fieldLoop body (S i) fs2 l) as [[r2 w2'] fin2] end.
    cbn [fst snd] in *. destruct IH as [-> ->]. auto.
  - cbn [fst snd]. auto.
Qed.

Lemma doParse_error : forall h e sticky fs,
  errorOf (doParse h e sticky fs) = result (loopEnding h e sticky fs).
Proof. intros. now rewrite doParse_loop. Qed.

Lemma doParse_same_outcome : forall h e sticky fs fs2,
  Forall2 (fun fv fv2 => fst fv = fst fv2
                         /\ outcome (fieldStep h e sticky (fst fv) (snd fv))
                            = outcome (fieldStep h e sticky (fst fv2) (snd fv2))) fs fs2 ->
  writesOf (doParse h e sticky fs) = writesOf (doParse h e sticky fs2)
  /\ errorOf (doParse h e sticky fs) = errorOf (doParse h e sticky fs2).
Proof.
  intros h e sticky fs fs2 H.
  destruct (fieldLoop_same_outcome (fieldStep h e sticky) fs fs2 0 [] H) as [Hw Herr].
  destruct (doParse_fields h e sticky fs) as [_ ->].
  destruct (doParse_fields h e sticky fs2) as [_ ->].
  rewrite !doParse_error. unfold loopEnding. now rewrite Hw, Herr.
Qed.

Lemma fieldStep_same_schema : forall h e v v2 sticky f,
  skeleton v = skeleton v2 ->
  outcome (fieldStep h e sticky f v) = outcome (fieldStep h e sticky f v2).
Proof.
  intros h e v.
  apply (Value_nested_ind (fun v => forall v2 sticky f,
           skeleton v = skeleton v2 ->
           outcome (fieldStep h e sticky f v) = outcome (fieldStep h e sticky f v2))); clear v.
  - intros v Hleaf v2 sticky f H.
    destruct (skeleton_kind v v2 (eq_sym H)) as [Hkind Hisnil].
    destruct (leaf_cases v Hleaf) as [Hk [[p [-> Hp]]|Hnil]].
    + destruct v2 as [| | | | | | | | |[p2|]|]; try discriminate.
      assert (Hp2 : reflect.Kind_of (Some p2) <> reflect.Struct).
      { cbn [skeleton] in H. inversion H as [Hs].
        destruct (skeleton_kind p p2 (eq_sym Hs)) as [Hkp _]. congruence. }
      destruct (reflect.CanSet sticky f) eqn:Hc.
      * rewrite !fieldStep_pointer, !Parse_pointer_to_non_struct by assumption. reflexivity.
      * rewrite !fieldStep_skip by (assumption || discriminate). reflexivity.
    + assert (Hk2 : reflect.Kind_of (Some v2) <> reflect.Struct) by congruence.
      assert (Hnil2 : reflect.Kind_of (Some v2) = reflect.Ptr -> reflect.IsNil v2 = true).
      { intros Hptr. rewrite Hisnil. apply Hnil. congruence. }
      destruct (reflect.CanSet sticky f) eqn:Hc.
      * rewrite !fieldStep_settable by assumption. now apply scalarTurn_same_schema.
      * rewrite !fieldStep_skip by assumption. reflexivity.
  - intros fs IH v2 sticky f H.
    destruct v2 as [| | | | | | | |fs2| |]; try discriminate;
      try (destruct pointee; discriminate).
    assert (Hsk : skeletons fs = skeletons fs2) by (cbn [skeleton] in H; now inversion H).
    destruct (String.eqb_spec (fst (get e f)) "") as [He|He].
    + rewrite !fieldStep_struct by assumption. cbn [outcome]. f_equal.
      destruct (doParse_fields h e (reflect.stickyRO sticky f) fs) as [_ ->].
      destruct (doParse_fields h e (reflect.stickyRO sticky f) fs2) as [_ ->].
      apply fieldLoop_same_outcome.
      pose proof (skeletons_Forall2 fs fs2 Hsk) as H2.
      clear -H2 IH. induction H2 as [|fv fv2 l l2 [Hf Hs] _ IH2]; [constructor|].
      inversion IH as [|? ? Hfv Hrest]; subst.
      constructor; [|auto]. split; [assumption|]. rewrite <- Hf. now apply Hfv.
    + rewrite !fieldStep_struct_value by assumption.
      now apply scalarTurn_same_schema.
  - intros fs IH v2 sticky f H.
    destruct v2 as [| | | | | | | | |[p2|]|]; try discriminate.
    destruct p2 as [| | | | | | | |fs2| |]; try discriminate;
      try (destruct pointee; discriminate).
    assert (Hsk : skeletons fs = skeletons fs2) by (cbn [skeleton] in H; now inversion H).
    destruct (reflect.CanSet sticky f) eqn:Hc.
    + rewrite !fieldStep_pointer, !Parse_struct_pointer by assumption.
      assert (Hsame : writesOf (doParse h e false fs) = writesOf (doParse h e false fs2)
                      /\ errorOf (doParse h e false fs) = errorOf (doParse h e false fs2)).
      { apply doParse_same_outcome.
        pose proof (skeletons_Forall2 fs fs2 Hsk) as H2.
        clear -H2 IH. induction H2 as [|fv fv2 l l2 [Hf Hs] _ IH2]; [constructor|].
        inversion IH as [|? ? Hfv Hrest]; subst.
        constructor; [|auto]. split; [assumption|]. rewrite <- Hf. now apply Hfv. }
      destruct Hsame as [Hw Herr]. unfold afterParse. rewrite Hw, Herr.
      destruct (errorOf (doParse h e false fs2)); reflexivity.
    + rewrite !fieldStep_skip by (assumption || discriminate). reflexivity.
Qed.

(** X11.  Whether a call fails, with which error, and which fields it
    writes depend on the schema of the record and on the environment only,
    not on the data the record holds: two records of the same schema get
    the same writes and the same error from [doParse], and from [Parse]. *)
Theorem binding_ignores_old_data : forall (h : Host) (e : os.Environ),
  (forall sticky fs fs2,
     skeletons fs = skeletons fs2 ->
     writesOf (doParse h e sticky fs) = writesOf (doParse h e sticky fs2)
     /\ errorOf (doParse h e sticky fs) = errorOf (doParse h e sticky fs2))
  /\ (forall v v2,
        option_map skeleton v = option_map skeleton v2 ->
        writesOf (Parse h e v) = writesOf (Parse h e v2)
        /\ errorOf (Parse h e v) = errorOf (Parse h e v2)).
Proof.
  intros h e.
  assert (Hdo : forall sticky fs fs2,
            skeletons fs = skeletons fs2 ->
            writesOf (doParse h e sticky fs) = writesOf (doParse h e sticky fs2)
            /\ errorOf (doParse h e sticky fs) = errorOf (doParse h e sticky fs2)).
  { intros sticky fs fs2 Hsk. apply doParse_same_outcome.
    pose proof (skeletons_Forall2 fs fs2 Hsk) as H2.
    clear -H2. induction H2 as [|fv fv2 l l2 [Hf Hs] _ IH2]; [constructor|].
    constructor; [|auto]. split; [assumption|]. rewrite <- Hf.
    now apply fieldStep_same_schema. }
  split; [exact Hdo|].
  intros v v2 H.
  destruct v as [v|], v2 as [v2|]; try discriminate; [|split; reflexivity].
  cbn [option_map] in H. inversion H as [Hs]. clear H.
  destruct v as [| | | | | | | | |[p|]|], v2 as [| | | | | | | | |[p2|]|];
    try discriminate; try (split; reflexivity).
  cbn [skeleton] in Hs. inversion Hs as [Hp]. clear Hs.
  destruct p as [| | | | | | | |fs| |], p2 as [| | | | | | | |fs2| |];
    try discriminate; try (split; reflexivity);
    try (destruct pointee; discriminate).
  rewrite !Parse_struct_pointer.
  change (writesOf (doParse h e false fs) = writesOf (doParse h e false fs2)
          /\ errorOf (doParse h e false fs) = errorOf (doParse h e false fs2)).
  apply Hdo. cbn [skeleton] in Hp. now inversion Hp.
Qed.

Lemma binding_ignores_old_data_witness :
  errorOf (doParse plainHost badEnviron false
             [(fst badBool, VBool true); (fst requiredString, VString "other")])
  = errorOf (doParse plainHost badEnviron false [badBool; requiredString]).
Proof.
  destruct (binding_ignores_old_data plainHost badEnviron) as [Hdo _].
  destruct (Hdo false [(fst badBool, VBool true); (fst requiredString, VString "other")]
              [badBool; requiredString] eq_refl) as [_ Herr].
  exact Herr.
Defined.

(** ** Fields without a key *)

Lemma LookupEnv_empty_key : forall e, os.LookupEnv e "" = None.
Proof. reflexivity. Qed.

(** X12.  A field whose key is empty (no [env] tag, or a tag that starts
    with a comma) never reads the environment: the empty name is never set.
    Without options it resolves to its declared default in every
    environment; with [required] as its last non-empty option it fails with
    the missing-required error in every environment. *)
Theorem get_without_key : forall (e : os.Environ) (f : StructField),
  keyOf f = "" ->
  (Forall (eq "") (optionsOf f) -> get e f = (defaultOf f, None))
  /\ (forall a b,
        optionsOf f = a ++ "required" :: b -> Forall (eq "") b ->
        get e f = ("", Some (errors_New (missingRequired ""))))
  /\ (reflect.Tag_Get (reflect.Tag f) "env" = "" -> get e f = (defaultOf f, None)).
Proof.
  intros e f Hkey. refine (conj _ (conj _ _)).
  - intros Hopts. rewrite get_fold, fold_getOpt_empties by assumption.
    unfold getOr. now rewrite Hkey, LookupEnv_empty_key.
  - intros a b Hopts Hb.
    rewrite (get_required_missing e f a b Hopts Hb); [now rewrite Hkey|].
    rewrite Hkey. apply LookupEnv_empty_key.
  - intros Htag. unfold get, defaultOf. rewrite Htag. reflexivity.
Qed.

Lemma get_without_key_witness :
  get homeEnviron (field "Port" true tInt [("envDefault", "3000")]) = ("3000", None)
  /\ get homeEnviron (field "Port" true tInt [("env", ",required"); ("envDefault", "3000")])
     = ("", Some (errors_New "Required environment variable  is not set")).
Proof.
  split.
  - destruct (get_without_key homeEnviron (field "Port" true tInt [("envDefault", "3000")])
                eq_refl) as (_ & _ & Htag).
    apply Htag. reflexivity.
  - destruct (get_without_key homeEnviron
                (field "Port" true tInt [("env", ",required"); ("envDefault", "3000")])
                eq_refl) as (_ & Hreq & _).
    apply (Hreq [] []); [reflexivity|constructor].
Defined.
